(** * Tree shaking serializer of [@expo/metro-config]

    A shallow embedding of
    [packages/@expo/metro-config/src/serializer/withExpoSerializers.ts]:
    the serializer chain, the tree-shaking plugin with its mutable module
    graph, and the static-export branch of the default serializer.

    Conventions of the embedding.
    - A thrown JavaScript exception is the [Throw] result; the recursion of
      [treeShakeAll] is driven by a depth budget, and [OutOfFuel] is the
      result of exhausting it (it is proved below that a budget always
      suffices).
    - [graph.dependencies] is a JavaScript [Map] from which the pass only
      ever deletes.  It is a list of slots in insertion order; a deleted
      slot keeps its module object (loops that already hold the object keep
      using it) and is marked absent, which is what a live [Map] iterator
      observes.
    - [Module.inverseDependencies] is Metro's [CountingSet], which counts
      a path once per dependency entry that resolves to the module; it is
      a list that holds a path once per count.
    - [traverse(ast, visitors)] enters the nodes of a tree in depth-first
      pre-order; a visitor for a node type is a function applied to the
      nodes of that type in that order. *)

From Stdlib Require Import String List Bool Arith ZArith Lia Sorted Permutation.
From stdpp Require Import base list relations.

Set Warnings "-register-all".

Open Scope string_scope.
Open Scope list_scope.

(** ** Results of fallible code *)

Inductive error :=
| GraphKeyError (importName modulePath : string)
| TypeError
| RemovedPathError
| ExternalError (message : string).

Inductive result (A : Type) :=
| Ok (a : A)
| Throw (e : error)
| OutOfFuel.

Arguments Ok {A} a.
Arguments Throw {A} e.
Arguments OutOfFuel {A}.

Definition bind {A B : Type} (m : result A) (k : A -> result B) : result B :=
  match m with
  | Ok a => k a
  | Throw e => Throw e
  | OutOfFuel => OutOfFuel
  end.

Notation "'do' x <- m ; k" := (bind m (fun x => k))
  (at level 10, x name, m at level 100, k at level 200, only parsing).
Notation "'do' ' p <- m ; k" := (bind m (fun x => let 'p := x in k))
  (at level 10, p pattern, m at level 100, k at level 200, only parsing).

Fixpoint mapM {A B : Type} (f : A -> result B) (l : list A) : result (list B) :=
  match l with
  | [] => Ok []
  | x :: l' => do y <- f x; do ys <- mapM f l'; Ok (y :: ys)
  end.

(** ** Syntax trees *)

Module Ast.

(** Expression-level nodes.  [binding] on an identifier is the answer of
    [path.scope.bindingIdentifierEquals(node.name, node)]: whether the node
    is the identifier that the scope holds for the binding of its name.  It
    is [false] on a reference, and also on the identifier of a
    redeclaration ([var a = 1; var a = 2;] binds [a] to the first one).
    [Node] is any other node kind, entered by the traversal but matched by
    no visitor. *)
Inductive expr :=
| Identifier (name : string) (binding : bool)
| StringLiteral (value : string)
| MemberExpression (object property : expr)
| CallExpression (callee : expr) (arguments : list expr)
| Node (children : list expr).

Inductive specifier :=
| ImportSpecifier (imported local : string)
| ImportDefaultSpecifier (local : string)
| ImportNamespaceSpecifier (local : string).

(** [decl.id]: an identifier, with the answer of the scope for it, or
    a destructuring pattern. *)
Inductive pattern :=
| IdentifierPattern (name : string) (binding : bool)
| OtherPattern (p : expr).

Record declarator := { id : pattern; init : option expr }.

Inductive declaration :=
| VariableDeclaration (declarations : list declarator)
| NamedDeclaration (name : string) (binding : bool) (body : expr).

Record exportSpecifier := { local : string; exported : string }.

Inductive statement :=
| ImportDeclaration (source : string) (specifiers : list specifier)
| ExportDefaultDeclaration (declaration : expr)
| ExportNamedDeclaration (declaration : option declaration)
                         (specifiers : list exportSpecifier)
| Statement (body : expr).

Abbreviation program := (list statement).

(** The nodes of an expression in the order the traversal enters them. *)
Fixpoint nodesOf (e : expr) : list expr :=
  e :: match e with
       | Identifier _ _ | StringLiteral _ => []
       | MemberExpression o p => nodesOf o ++ nodesOf p
       | CallExpression c args =>
           nodesOf c ++ (fix go (l : list expr) : list expr :=
                           match l with
                           | [] => []
                           | a :: l' => nodesOf a ++ go l'
                           end) args
       | Node cs => (fix go (l : list expr) : list expr :=
                       match l with
                       | [] => []
                       | a :: l' => nodesOf a ++ go l'
                       end) cs
       end.

Definition optNodes (o : option expr) : list expr :=
  match o with Some e => nodesOf e | None => [] end.

Definition declaratorNodes (d : declarator) : list expr :=
  match id d with
  | IdentifierPattern x binding => [Identifier x binding]
  | OtherPattern p => nodesOf p
  end ++ optNodes (init d).

Definition declarationNodes (d : declaration) : list expr :=
  match d with
  | VariableDeclaration ds => flat_map declaratorNodes ds
  | NamedDeclaration x binding body => Identifier x binding :: nodesOf body
  end.

Definition exportSpecifierNodes (s : exportSpecifier) : list expr :=
  [Identifier (local s) false; Identifier (exported s) false].

(** The expression-level nodes below a top-level statement.  The children
    of an import declaration are its specifiers, handled by the visitors
    themselves. *)
Definition statementNodes (s : statement) : list expr :=
  match s with
  | ImportDeclaration _ _ => []
  | ExportDefaultDeclaration d => nodesOf d
  | ExportNamedDeclaration d specs =>
      match d with Some d' => declarationNodes d' | None => [] end
      ++ flat_map exportSpecifierNodes specs
  | Statement b => nodesOf b
  end.

Definition nameOf (e : expr) : option string :=
  match e with Identifier x _ => Some x | _ => None end.

Definition hasName (e : expr) (x : string) : bool :=
  match nameOf e with Some y => String.eqb y x | None => false end.

End Ast.
Export Ast.

(** ** The module graph *)

Module Graph.

Record Dependency := { absolutePath : string; data_name : string }.

(** An entry of [outputItem.data.modules.imports]. *)
Record specifierRecord := {
  spec_type : string;
  importedName : option string;
  localName : string
}.

Record importItem := {
  source : string;
  key : string;
  specifiers : list specifierRecord;
  cjs : bool
}.

Record modulesInfo := { imports : list importItem; exports : list string }.

Record outputData := {
  ast : program;
  modules : option modulesInfo;
  code : string;
  lineCount : nat;
  map_segments : list (list nat);
  functionMap : option string
}.

Record outputItem := { type : string; data : outputData }.

Record Module := {
  path : string;
  dependencies : list (string * Dependency);
  inverseDependencies : list string;
  output : list outputItem
}.

(** A slot of the [graph.dependencies] map. *)
Record slot := { depId : string; present : bool; value : Module }.

Abbreviation graph := (list slot).

Definition set_ast (a : program) (o : outputItem) : outputItem :=
  {| type := type o;
     data := {| ast := a; modules := modules (data o); code := code (data o);
                lineCount := lineCount (data o);
                map_segments := map_segments (data o);
                functionMap := functionMap (data o) |} |}.

Definition set_modules (m : option modulesInfo) (o : outputItem) : outputItem :=
  {| type := type o;
     data := {| ast := ast (data o); modules := m; code := code (data o);
                lineCount := lineCount (data o);
                map_segments := map_segments (data o);
                functionMap := functionMap (data o) |} |}.

Definition set_output (os : list outputItem) (m : Module) : Module :=
  {| path := path m; dependencies := dependencies m;
     inverseDependencies := inverseDependencies m; output := os |}.

Definition set_dependencies (ds : list (string * Dependency)) (m : Module) : Module :=
  {| path := path m; dependencies := ds;
     inverseDependencies := inverseDependencies m; output := output m |}.

Definition set_inverseDependencies (inv : list string) (m : Module) : Module :=
  {| path := path m; dependencies := dependencies m;
     inverseDependencies := inv; output := output m |}.

Definition set_value (m : Module) (e : slot) : slot :=
  {| depId := depId e; present := present e; value := m |}.

Definition set_absent (e : slot) : slot :=
  {| depId := depId e; present := false; value := value e |}.

(** [alter f i g] applies [f] to the slot at position [i]. *)
Definition alterSlot (f : slot -> slot) (i : nat) (g : graph) : graph :=
  match g !! i with
  | Some e => <[i := f e]> g
  | None => g
  end.

Definition alterModule (f : Module -> Module) : nat -> graph -> graph :=
  alterSlot (fun e => set_value (f (value e)) e).

(** Position of the live slot that [graph.dependencies] holds under a key. *)
Fixpoint indexOf (id : string) (g : graph) : option nat :=
  match g with
  | [] => None
  | e :: g' =>
      if present e && String.eqb (depId e) id then Some 0
      else match indexOf id g' with Some n => Some (S n) | None => None end
  end.

(** [graph.dependencies.get(id)] *)
Definition graphGet (g : graph) (id : string) : option Module :=
  match indexOf id g with
  | Some i => match g !! i with Some e => Some (value e) | None => None end
  | None => None
  end.

(** [Map.prototype.get] and [Map.prototype.delete] on [module.dependencies]. *)
Fixpoint mapGet {V : Type} (k : string) (m : list (string * V)) : option V :=
  match m with
  | [] => None
  | (k', v) :: m' => if String.eqb k' k then Some v else mapGet k m'
  end.

Definition mapDelete {V : Type} (k : string) (m : list (string * V)) : list (string * V) :=
  List.filter (fun kv => negb (String.eqb (fst kv) k)) m.

(** [Set.prototype.has] and [Set.prototype.add], [Array.prototype.includes]. *)
Definition includes (l : list string) (x : string) : bool :=
  existsb (String.eqb x) l.

Definition setAdd (x : string) (s : list string) : list string :=
  if includes s x then s else s ++ [x].

Definition mkSet (l : list string) : list string :=
  fold_left (fun s x => setAdd x s) l [].

(** [Module.inverseDependencies] is Metro's [CountingSet], a set that
    keeps a count for each element: [add] raises the count of an element,
    [delete] lowers it and removes the element when its count reaches
    zero, and [values()] and [size] see every element once, in the order
    of first insertion.  The list holds an element once per count.
    [countingDelete] takes away the last occurrence of the element, which
    leaves the first occurrences, and so the order of [values()], as they
    are. *)
Fixpoint countingDelete (x : string) (s : list string) : list string :=
  match s with
  | [] => []
  | y :: s' =>
      if String.eqb y x && negb (includes s' x) then s'
      else y :: countingDelete x s'
  end.

Definition countingValues (s : list string) : list string := mkSet s.

Definition countingSize (s : list string) : nat := length (countingValues s).

End Graph.
Export Graph.

(** ** The tree-shaking pass *)

Module TreeShake.

(** *** [collectImportExports] *)

Definition getGraphId (value : Module) (moduleId : string) : result string :=
  match List.find (fun dep => String.eqb (data_name dep) moduleId)
                  (List.map snd (dependencies value)) with
  | Some dep =>
      if String.eqb (absolutePath dep) ""
      then Throw (GraphKeyError moduleId (path value))
      else Ok (absolutePath dep)
  | None => Throw (GraphKeyError moduleId (path value))
  end.

Definition specifierRecordOf (s : specifier) : specifierRecord :=
  match s with
  | ImportSpecifier imported local =>
      {| spec_type := "ImportSpecifier"; importedName := Some imported;
         localName := local |}
  | ImportDefaultSpecifier local =>
      {| spec_type := "ImportDefaultSpecifier"; importedName := None;
         localName := local |}
  | ImportNamespaceSpecifier local =>
      {| spec_type := "ImportNamespaceSpecifier"; importedName := None;
         localName := local |}
  end.

(** The [CallExpression] visitor that tracks [require] calls. *)
Definition requireVisitor (value : Module) (e : expr) : result (list importItem) :=
  match e with
  | CallExpression callee args =>
      if hasName callee "require" then
        match args with
        | [] => Throw TypeError
        | StringLiteral v :: _ =>
            do k <- getGraphId value v;
            Ok [{| source := v; key := k; specifiers := []; cjs := true |}]
        | _ :: _ => Ok []
        end
      else Ok []
  | _ => Ok []
  end.

Definition collectStatement (value : Module) (s : statement) : result (list importItem) :=
  match s with
  | ImportDeclaration src specs =>
      do k <- getGraphId value src;
      Ok [{| source := src; key := k;
             specifiers := List.map specifierRecordOf specs; cjs := false |}]
  | _ =>
      do rs <- mapM (requireVisitor value) (statementNodes s);
      Ok (concat rs)
  end.

Definition collectProgram (value : Module) (body : program) : result (list importItem) :=
  do rs <- mapM (collectStatement value) body;
  Ok (concat rs).

Definition collectOutput (value : Module) (o : outputItem) : result outputItem :=
  do imps <- collectProgram value (ast (data o));
  Ok (set_modules (Some {| imports := imps; exports := [] |}) o).

Definition collectImportExports (value : Module) : result Module :=
  do os <- mapM (collectOutput value) (output value);
  Ok (set_output os value).

(** The first loop of [treeShakeAll]. *)
Definition collectSlot (e : slot) : result slot :=
  if present e
  then do m <- collectImportExports (value e); Ok (set_value m e)
  else Ok e.

Definition collectAll (g : graph) : result graph := mapM collectSlot g.

(** *** [detectCommonJsExportsUsage] *)

Definition memberVisitor (e : expr) : bool :=
  match e with
  | MemberExpression o p =>
      (hasName o "module" && hasName p "exports") || hasName o "exports"
  | _ => false
  end.

Definition isMember (e : expr) : bool :=
  match e with MemberExpression _ _ => true | _ => false end.

Definition callVisitor (e : expr) : result bool :=
  match e with
  | CallExpression (MemberExpression o p) args =>
      if hasName o "Object" && (hasName p "assign" || hasName p "defineProperties")
      then match args with
           | [] => Throw TypeError
           | MemberExpression o' p' :: _ =>
               Ok (hasName o' "module" && hasName p' "exports")
           | Identifier x _ :: _ => Ok (String.eqb x "exports")
           | _ :: _ => Ok false
           end
      else Ok false
  | _ => Ok false
  end.

Definition detectNode (e : expr) : result bool :=
  do c <- callVisitor e; Ok (memberVisitor e || c).

Definition detectCommonJsExportsUsage (body : program) : result bool :=
  do bs <- mapM detectNode (flat_map statementNodes body);
  Ok (existsb (fun b => b) bs).

(** *** [treeShakeExports] *)

Definition importItemUses (depId importName : string) (it : importItem) : bool :=
  String.eqb (key it) depId
  && (cjs it
      || existsb (fun s => match importedName s with
                           | Some x => String.eqb x importName
                           | None => false
                           end) (specifiers it)).

Definition outputUses (depId importName : string) (o : outputItem) : bool :=
  if String.eqb (type o) "js/module" then
    match modules (data o) with
    | Some ms => existsb (importItemUses depId importName) (imports ms)
    | None => false
    end
  else false.

Definition isExportUsed (g : graph) (depId : string) (value : Module)
    (importName : string) : bool :=
  existsb (fun dep => match dep with
                      | Some m => existsb (outputUses depId importName) (output m)
                      | None => false
                      end)
          (List.map (graphGet g) (countingValues (inverseDependencies value))).

(** [markUnused] with [annotate = false] is [path.remove()]; [removed]
    tells whether the path was removed before, in which case the call
    throws. *)
Definition markUnused (removed : bool) : result bool :=
  if removed then Throw RemovedPathError else Ok true.

Fixpoint shakeDeclarators (used : string -> bool) (ds : list declarator)
    (removed : bool) : result bool :=
  match ds with
  | [] => Ok removed
  | d :: ds' =>
      match id d with
      | IdentifierPattern x _ =>
          if used x then shakeDeclarators used ds' removed
          else do r <- markUnused removed; shakeDeclarators used ds' r
      | OtherPattern _ => shakeDeclarators used ds' removed
      end
  end.

(** The two export visitors on one top-level statement; the answer is
    whether the statement has been removed. *)
Definition shakeStatement (used : string -> bool) (s : statement) : result bool :=
  match s with
  | ExportDefaultDeclaration _ =>
      if used "default" then Ok false else markUnused false
  | ExportNamedDeclaration (Some (VariableDeclaration ds)) _ =>
      shakeDeclarators used ds false
  | ExportNamedDeclaration (Some (NamedDeclaration x _ _)) _ =>
      if used x then Ok false else markUnused false
  | _ => Ok false
  end.

Fixpoint shakeProgram (used : string -> bool) (body : program) : result program :=
  match body with
  | [] => Ok []
  | s :: body' =>
      do removed <- shakeStatement used s;
      do rest <- shakeProgram used body';
      Ok (if removed then rest else s :: rest)
  end.

Definition shakeOutput (used : string -> bool) (o : outputItem) : result outputItem :=
  do a <- shakeProgram used (ast (data o)); Ok (set_ast a o).

Definition treeShakeExports (i : nat) (g : graph) : result graph :=
  match g !! i with
  | None => Throw TypeError
  | Some e =>
      do os <- mapM (shakeOutput (isExportUsed g (depId e) (value e)))
                    (output (value e));
      Ok (<[i := set_value (set_output os (value e)) e]> g)
  end.

(** *** [removeUnusedImports] *)

(** First traversal: the names added to [importedIdentifiers]. *)
Definition importedOfSpecifier (s : specifier) : string :=
  match s with
  | ImportSpecifier imported _ => imported
  | ImportDefaultSpecifier local => local
  | ImportNamespaceSpecifier local => local
  end.

Definition importedOfStatement (s : statement) : list string :=
  match s with
  | ImportDeclaration _ specs => List.map importedOfSpecifier specs
  | _ => []
  end.

Definition importedIdentifiers (body : program) : list string :=
  mkSet (flat_map importedOfStatement body).

(** First traversal: the names added to [usedIdentifiers] by the
    [Identifier] visitor.  Identifiers below an [ImportSpecifier] are
    skipped, and the local name of a default or namespace specifier is the
    declaring occurrence of its binding. *)
Definition usedOfNode (e : expr) : list string :=
  match e with
  | Identifier x false => [x]
  | _ => []
  end.

Definition usedIdentifiers (body : program) : list string :=
  mkSet (flat_map usedOfNode (flat_map statementNodes body)).

Definition unusedImports (body : program) : list string :=
  List.filter (fun identifier => negb (includes (usedIdentifiers body) identifier))
              (importedIdentifiers body).

(** The callback of [specifiers.filter] reads [specifier.imported.name]. *)
Fixpoint filterSpecifiers (unused : list string) (specs : list specifier)
    : result (list specifier) :=
  match specs with
  | [] => Ok []
  | ImportSpecifier imported local :: specs' =>
      do rest <- filterSpecifiers unused specs';
      Ok (if includes unused imported then rest
          else ImportSpecifier imported local :: rest)
  | _ :: _ => Throw TypeError
  end.

(** Unlinking the import of [importModuleId] by the module in slot [i]. *)
Definition unlink (i : nat) (importModuleId : string) (g : graph) : result graph :=
  match g !! i with
  | None => Throw TypeError
  | Some e =>
      match List.find (fun kd => String.eqb (data_name (snd kd)) importModuleId)
                      (dependencies (value e)) with
      | None => Throw (GraphKeyError importModuleId importModuleId)
      | Some (depKey, _) =>
          if String.eqb depKey "" then Throw (GraphKeyError importModuleId importModuleId)
          else
            match mapGet depKey (dependencies (value e)) with
            | None => Throw TypeError
            | Some dep =>
                match indexOf (absolutePath dep) g with
                | None => Throw TypeError
                | Some k =>
                    match g !! k with
                    | None => Throw TypeError
                    | Some graphDep =>
                        let inv := countingDelete (path (value e))
                                     (inverseDependencies (value graphDep)) in
                        let graphDep' :=
                          set_value (set_inverseDependencies inv (value graphDep))
                                    graphDep in
                        let g1 := <[k := if Nat.eqb (countingSize inv) 0
                                         then set_absent graphDep'
                                         else graphDep']> g in
                        Ok (alterModule
                              (fun m => set_dependencies
                                          (mapDelete depKey (dependencies m)) m)
                              i g1)
                    end
                end
            end
      end
  end.

(** Second traversal: the [ImportDeclaration] visitor over the body, with
    the graph and the [removed] flag threaded through. *)
Fixpoint pruneImports (i : nat) (unused : list string) (body : program)
    (g : graph) (removed : bool) : result (program * graph * bool) :=
  match body with
  | [] => Ok ([], g, removed)
  | ImportDeclaration src specs :: body' =>
      do specs' <- filterSpecifiers unused specs;
      match specs' with
      | [] =>
          do g' <- unlink i src g;
          pruneImports i unused body' g' true
      | _ :: _ =>
          do '(rest, g', r) <- pruneImports i unused body' g removed;
          Ok (ImportDeclaration src specs' :: rest, g', r)
      end
  | s :: body' =>
      do '(rest, g', r) <- pruneImports i unused body' g removed;
      Ok (s :: rest, g', r)
  end.

Definition nonEmpty (l : list string) : bool :=
  match l with [] => false | _ :: _ => true end.

Definition setAst (i j : nat) (a : program) (g : graph) : graph :=
  alterModule
    (fun m => match output m !! j with
              | Some o => set_output (<[j := set_ast a o]> (output m)) m
              | None => m
              end) i g.

(** [removeUnusedImports(value, ast)] for the tree of output [j] of the
    module in slot [i]. *)
Definition removeUnusedImports (i j : nat) (g : graph) : result (bool * graph) :=
  match g !! i with
  | None => Throw TypeError
  | Some e =>
      match output (value e) !! j with
      | None => Throw TypeError
      | Some o =>
          let unused := unusedImports (ast (data o)) in
          do '(body, g', removed) <-
             pruneImports i unused (ast (data o)) g (nonEmpty unused);
          Ok (removed, setAst i j body g')
      end
  end.

(** *** [treeShakeAll] *)

Section Loops.
Variable rerun : graph -> result graph.

(** [for (const index in value.output)] *)
Fixpoint forOutputs (i : nat) (js : list nat) (g : graph) : result graph :=
  match js with
  | [] => Ok g
  | j :: js' =>
      do '(removed, g1) <- removeUnusedImports i j g;
      do g2 <- (if removed : bool then rerun g1 else Ok g1);
      forOutputs i js' g2
  end.

(** [for (const [depId, value] of graph.dependencies.entries())]: the
    iterator skips the slots deleted by the time it reaches them. *)
Fixpoint forModules (idxs : list nat) (g : graph) : result graph :=
  match idxs with
  | [] => Ok g
  | i :: idxs' =>
      match g !! i with
      | Some e =>
          if present e then
            do g1 <- treeShakeExports i g;
            do g2 <- forOutputs i (seq 0 (length (output (value e)))) g1;
            forModules idxs' g2
          else forModules idxs' g
      | None => forModules idxs' g
      end
  end.
End Loops.

Fixpoint treeShakeAll (fuel : nat) (g : graph) : result graph :=
  match fuel with
  | 0 => OutOfFuel
  | S fuel' =>
      do g1 <- collectAll g;
      forModules (treeShakeAll fuel') (seq 0 (length g1)) g1
  end.

(** The number of import declarations and import specifiers in the trees
    of the graph: the depth budget that [treeShakeAll] needs. *)
Definition importSizeOfStatement (s : statement) : nat :=
  match s with
  | ImportDeclaration _ specs => S (length specs)
  | _ => 0
  end.

Definition importSizeOfProgram (body : program) : nat :=
  list_sum (List.map importSizeOfStatement body).

Definition importSizeOfModule (m : Module) : nat :=
  list_sum (List.map (fun o => importSizeOfProgram (ast (data o))) (output m)).

Definition importSize (g : graph) : nat :=
  list_sum (List.map (fun e => importSizeOfModule (value e)) g).

(** The tree of output [j] of the module in slot [i]. *)
Definition treeOf (g : graph) (i j : nat) : option program :=
  match g !! i with
  | Some e => match output (value e) !! j with
              | Some o => Some (ast (data o))
              | None => None
              end
  | None => None
  end.

(** The pass run to completion: a recursion depth of [importSize g + 1]
    always suffices. *)
Definition treeShake (g : graph) : result graph :=
  treeShakeAll (S (importSize g)) g.

End TreeShake.
Export TreeShake.

(** ** The serializer chain *)

Module Serializer.

Record SerializerOptions := {
  sourceUrl : option string;
  sourceMapUrl : option string;
  dev : bool;
  serverRoot : option string;
  projectRoot : string;
  createModuleId : string -> nat
}.

Definition SerializerParameters : Type :=
  string * list Module * graph * SerializerOptions.

(** What a serializer resolves to: a bundle string or a [{code, map}] pair. *)
Inductive serialized :=
| BundleString (code : string)
| BundleWithMap (code map : string).

Definition Serializer : Type := SerializerParameters -> result serialized.

Definition SerializerPlugin : Type :=
  SerializerParameters -> result SerializerParameters.

Record SerialAsset := {
  filename : string;
  originFilename : string;
  asset_type : string;
  asset_source : string
}.

(** The parsed source map: its [sources] array and the remaining fields. *)
Record parsedMap := { sources : list string; otherFields : string }.

Definition nullish {A : Type} (o : option A) (d : A) : A :=
  match o with Some a => a | None => d end.

Definition startsWith (prefix s : string) : bool := String.prefix prefix s.

Section Regenerate.
(** The two [transformFromAstSync] runs around [JsFileWrapping.wrapModule]
    give the code and the function map of a tree; [countLines] is Metro's. *)
Variable generate : string -> program -> result (string * option string).
Variable countLines : string -> nat.

Definition regenerateOutput (value : Module) (o : outputItem) : result outputItem :=
  do '(outputCode, fm) <- generate (path value) (ast (data o));
  Ok {| type := type o;
        data := {| ast := ast (data o); modules := modules (data o);
                   code := outputCode; lineCount := countLines outputCode;
                   map_segments := []; functionMap := fm |} |}.

Definition regenerateSlot (e : slot) : result slot :=
  if present e
  then do os <- mapM (regenerateOutput (value e)) (output (value e));
       Ok (set_value (set_output os (value e)) e)
  else Ok e.

Definition treeShakeSerializerPlugin : SerializerPlugin :=
  fun '(entryPoint, preModules, graph, options) =>
    do g1 <- treeShake graph;
    do g2 <- mapM regenerateSlot g1;
    Ok (entryPoint, preModules, g2, options).
End Regenerate.

(** [getSortedModules]: a stable sort of the live modules by module id. *)
Fixpoint insertById (createModuleId : string -> nat) (m : Module) (l : list Module)
    : list Module :=
  match l with
  | [] => [m]
  | m' :: l' =>
      if Nat.ltb (createModuleId (path m')) (createModuleId (path m))
      then m' :: insertById createModuleId m l'
      else m :: l
  end.

Definition getSortedModules (g : graph) (createModuleId : string -> nat) : list Module :=
  fold_right (insertById createModuleId) []
    (List.map value (List.filter present g)).

Section Emitter.
Variable baseJSBundleCode : SerializerParameters -> result string.
Variable sourceMapString : list Module -> SerializerOptions -> string.
Variable isJscSafeUrl : string -> bool.
Variable toNormalUrl : string -> string.
Variable searchParamsGet : string -> string -> option string.
Variable pathname : string -> string.
Variable getCssSerialAssets : graph -> SerializerOptions -> list SerialAsset.
Variable fileNameFromContents : string -> string -> string.
Variable JSON_parse : string -> result parsedMap.
Variable JSON_stringify_map : parsedMap -> string.
Variable JSON_stringify_assets : list SerialAsset -> string.
Variable relative : string -> string -> string.

Definition serializeToSourceMap (props : SerializerParameters) : string :=
  let '(_, prepend, graph, options) := props in
  sourceMapString (prepend ++ getSortedModules graph (createModuleId options)) options.

(** The callback of [parsed.sources.map]. *)
Definition rewriteSource (options : SerializerOptions) (value : string) : string :=
  if startsWith "/" value
  then String.append "/"
         (relative (nullish (serverRoot options) (projectRoot options)) value)
  else value.

Definition rewriteSources (options : SerializerOptions) (parsed : parsedMap) : parsedMap :=
  {| sources := List.map (rewriteSource options) (sources parsed);
     otherFields := otherFields parsed |}.

Definition truthy (s : option string) : bool :=
  match s with Some "" => false | Some _ => true | None => false end.

Definition optEq (o : option string) (s : string) : bool :=
  match o with Some x => String.eqb x s | None => false end.

(** The [jsAssets] array of the static-export branch. *)
Definition jsAssets (props : SerializerParameters) (url : string)
    (includeSourceMaps : bool) (jsCode : serialized) : result (list SerialAsset) :=
  let '(_, _, _, options) := props in
  let nonEmptyCode := match jsCode with
                      | BundleString "" => false
                      | _ => true
                      end in
  if nonEmptyCode then
    let stringContents := match jsCode with
                          | BundleString c => c
                          | BundleWithMap c _ => c
                          end in
    let jsFilename := fileNameFromContents (pathname url) stringContents in
    let js := {| filename := if dev options then "index.js"
                             else ("_expo/static/js/web/" ++ jsFilename ++ ".js")%string;
                 originFilename := "index.js"; asset_type := "js";
                 asset_source := stringContents |} in
    if includeSourceMaps && truthy (sourceMapUrl options) then
      let sourceMap := match jsCode with
                       | BundleString _ => serializeToSourceMap props
                       | BundleWithMap _ m => m
                       end in
      do parsed <- JSON_parse sourceMap;
      Ok [js;
          {| filename := if dev options then "index.map"
                         else ("_expo/static/js/web/" ++ jsFilename ++ ".js.map")%string;
             originFilename := "index.map"; asset_type := "map";
             asset_source := JSON_stringify_map (rewriteSources options parsed) |}]
    else Ok [js]
  else Ok [].

Definition getDefaultSerializer (fallbackSerializer : option Serializer) : Serializer :=
  let defaultSerializer : Serializer :=
    nullish fallbackSerializer
      (fun params => do c <- baseJSBundleCode params; Ok (BundleString c)) in
  fun props =>
    let '(_, _, graph, options) := props in
    do jsCode <- defaultSerializer props;
    if truthy (sourceUrl options) then
      let raw := nullish (sourceUrl options) "" in
      let url := if isJscSafeUrl raw then toNormalUrl raw else raw in
      if negb (optEq (searchParamsGet url "platform") "web")
         || negb (optEq (searchParamsGet url "serializer.output") "static")
      then Ok jsCode
      else
        let includeSourceMaps := optEq (searchParamsGet url "serializer.map") "true" in
        let cssDeps := getCssSerialAssets graph options in
        do assets <- jsAssets props url includeSourceMaps jsCode;
        Ok (BundleString (JSON_stringify_assets (assets ++ cssDeps)))
    else Ok jsCode.

(** The loop of the serializer built by
    [createSerializerFromSerialProcessors]. *)
Fixpoint runProcessors (processors : list (option SerializerPlugin))
    (props : SerializerParameters) : result SerializerParameters :=
  match processors with
  | [] => Ok props
  | Some processor :: rest => do props' <- processor props; runProcessors rest props'
  | None :: rest => runProcessors rest props
  end.

Definition createSerializerFromSerialProcessors
    (processors : list (option SerializerPlugin))
    (originalSerializer : option Serializer) : Serializer :=
  let finalSerializer := getDefaultSerializer originalSerializer in
  fun props =>
    do props' <- runProcessors processors props;
    finalSerializer props'.

(** The chain as the specification words it: the defined plugins composed
    left to right, then the final serializer. *)
Definition definedPlugins (processors : list (option SerializerPlugin))
    : list SerializerPlugin :=
  flat_map (fun p => match p with Some f => [f] | None => [] end) processors.

Definition chainSpec (plugins : list SerializerPlugin) (final : Serializer)
    : Serializer :=
  fun props =>
    do props' <- fold_left (fun acc f => do p <- acc; f p) plugins (Ok props);
    final props'.

(** *** The Metro configuration *)

(** The part of Metro's [InputConfigT] that the file reads; the other
    fields are carried along as they are. *)
Record SerializerConfigT := {
  customSerializer : option Serializer;
  serializerFields : list (string * string)
}.

Record InputConfigT := {
  serializer : option SerializerConfigT;
  configFields : list (string * string)
}.

(** The two flags of [env] that [withExpoSerializers] reads. *)
Record Env := {
  EXPO_NO_CLIENT_ENV_VARS : bool;
  EXPO_USE_TREE_SHAKING : bool
}.

(** The plugins of [environmentVariableSerializerPlugin.ts], and the code
    generator and line counter of the tree-shaking plugin. *)
Variables serverPreludeSerializerPlugin environmentVariableSerializerPlugin
  : SerializerPlugin.
Variable generate : string -> program -> result (string * option string).
Variable countLines : string -> nat.

Definition withSerializerPlugins (config : InputConfigT)
    (processors : list SerializerPlugin) : InputConfigT :=
  let originalSerializer :=
    match serializer config with
    | Some s => customSerializer s
    | None => None
    end in
  {| serializer :=
       Some {| customSerializer :=
                 Some (createSerializerFromSerialProcessors
                         (List.map Some processors) originalSerializer);
               serializerFields :=
                 match serializer config with
                 | Some s => serializerFields s
                 | None => []
                 end |};
     configFields := configFields config |}.

Definition withExpoSerializers (env : Env) (config : InputConfigT) : InputConfigT :=
  let processors := [serverPreludeSerializerPlugin] in
  let processors :=
    if negb (EXPO_NO_CLIENT_ENV_VARS env)
    then processors ++ [environmentVariableSerializerPlugin]
    else processors in
  let processors :=
    if EXPO_USE_TREE_SHAKING env
    then processors ++ [treeShakeSerializerPlugin generate countLines]
    else processors in
  withSerializerPlugins config processors.
End Emitter.

End Serializer.
Export Serializer.

(** ** The list of component screens *)

(** [ExpoComponentsScreen._getApis]: the entries of the screen that lists
    the components of the Expo SDK. *)
Module Components.

Record api := { name : string; isAvailable : bool }.

(** [Array.prototype.sort] with a comparator: a stable sort, in which an
    element moves behind a later one only when the comparator is positive
    on the pair. *)
Fixpoint insertSorted {A : Type} (compare : A -> A -> Z) (x : A) (l : list A)
    : list A :=
  match l with
  | [] => [x]
  | y :: l' =>
      if (0 <? compare x y)%Z then y :: insertSorted compare x l' else x :: l
  end.

Definition sort {A : Type} (compare : A -> A -> Z) (l : list A) : list A :=
  fold_right (insertSorted compare) [] l.

Definition screens : list string :=
  ["AdMob"; "BarCodeScanner"; "BlurView"; "Camera"; "DateTimePicker";
   "FacebookAds"; "GestureHandlerList"; "GestureHandlerPinch";
   "GestureHandlerSwipeable"; "Gif"; "GL"; "HTML"; "Image"; "LinearGradient";
   "Lottie"; "Maps"; "MaskedView"; "ReanimatedImagePreview";
   "ReanimatedProgress"; "SegmentedControl"; "Screens"; "SharedElement"; "SVG";
   "ViewPager"; "Video"; "WebView"].

Section Apis.
(** The [Screens] object of [navigation/ExpoComponents]: the screen
    registered under a name, if there is one ([!!Screens[name]] is whether
    there is). *)
Variable Screen : Type.
Variable Screens : string -> option Screen.

Definition compareApis (a b : api) : Z :=
  if negb (Bool.eqb (isAvailable a) (isAvailable b)) then
    if isAvailable a then (-1)%Z else 1%Z
  else 0%Z.

Definition _getApis : list api :=
  sort compareApis
    (List.map (fun name => {| name := name;
                              isAvailable := match Screens name with
                                             | Some _ => true
                                             | None => false
                                             end |}) screens).
End Apis.

End Components.

(** ** Predicates on graphs *)

Definition terminated {A : Type} (r : result A) : bool :=
  match r with OutOfFuel => false | _ => true end.

(** *** Views of a graph *)

Definition moduleTrees (m : Module) : list program :=
  List.map (fun o => ast (data o)) (output m).

Definition graphTrees (g : graph) : list (list program) :=
  List.map (fun e => moduleTrees (value e)) g.

Definition graphOutputs (g : graph) : list (list outputItem) :=
  List.map (fun e => output (value e)) g.

Definition sizeOfTrees (tss : list (list program)) : nat :=
  list_sum (List.map (fun ts => list_sum (List.map importSizeOfProgram ts)) tss).

(** The graph without its trees: all that [isExportUsed] looks at. *)
Definition eraseTree (o : outputItem) : outputItem := set_ast [] o.

Definition skeletonSlot (e : slot) : slot :=
  set_value (set_output (List.map eraseTree (output (value e))) (value e)) e.

Definition skeleton (g : graph) : graph := List.map skeletonSlot g.

(** *** Stable graphs *)

(** Neither pass changes anything at the live module of slot [i]. *)
Definition stableAt (g : graph) (i : nat) : Prop :=
  forall e, g !! i = Some e -> present e = true ->
    treeShakeExports i g = Ok g
    /\ forall j, j < length (output (value e)) ->
         removeUnusedImports i j g = Ok (false, g).

Definition stable (g : graph) : Prop := forall i, stableAt g i.

(** *** Exports and their importers *)

(** The names that the export visitors look up for a statement. *)
Definition identifierNames (ds : list declarator) : list string :=
  flat_map (fun d => match id d with
                     | IdentifierPattern x _ => [x]
                     | OtherPattern _ => []
                     end) ds.

Definition declaredNames (s : statement) : list string :=
  match s with
  | ExportDefaultDeclaration _ => ["default"]
  | ExportNamedDeclaration (Some (VariableDeclaration ds)) _ => identifierNames ds
  | ExportNamedDeclaration (Some (NamedDeclaration x _ _)) _ => [x]
  | _ => []
  end.

(** The name of an export declaration that declares one name and nothing
    else: a default export, an exported function or class, an exported
    variable declaration with a single declarator, which is an
    identifier. *)
Definition exportedName (s : statement) : option string :=
  match s with
  | ExportDefaultDeclaration _ => Some "default"
  | ExportNamedDeclaration (Some (VariableDeclaration [d])) _ =>
      match id d with
      | IdentifierPattern x _ => Some x
      | OtherPattern _ => None
      end
  | ExportNamedDeclaration (Some (NamedDeclaration x _ _)) _ => Some x
  | _ => None
  end.

(** Some live module among the inverse dependencies of [e] has, in a
    [js/module] output, a recorded import of the key of [e] that is a
    [require] or that lists [E] as an imported name. *)
Definition importedBy (g : graph) (e : slot) (E : string) : Prop :=
  exists p importer o ms it,
    In p (inverseDependencies (value e))
    /\ graphGet g p = Some importer
    /\ In o (output importer) /\ type o = "js/module"
    /\ modules (data o) = Some ms /\ In it (imports ms)
    /\ key it = depId e
    /\ (cjs it = true
        \/ exists sp, In sp (specifiers it) /\ importedName sp = Some E).

Definition isImport (s : statement) : bool :=
  match s with ImportDeclaration _ _ => true | _ => false end.

(** *** Well-formed graphs *)

(** The keys of a [Map] are distinct, and so are the names under which a
    module records its dependencies. *)
Fixpoint distinct (l : list string) : bool :=
  match l with
  | [] => true
  | x :: l' => negb (includes l' x) && distinct l'
  end.

Definition dependencyNames (m : Module) : list string :=
  List.map (fun kd => data_name (snd kd)) (dependencies m).

Definition wellFormedb (g : graph) : bool :=
  distinct (List.map depId g)
  && forallb (fun e => distinct (dependencyNames (value e))) g.

Definition uniqueNames (m : Module) : Prop := NoDup (dependencyNames m).

Definition wellFormed (g : graph) : Prop :=
  NoDup (List.map depId g) /\ forall e, In e g -> uniqueNames (value e).

(** *** The recorded imports against the trees *)

Definition recordUses (o : outputItem) (d x : string) : bool :=
  match modules (data o) with
  | Some ms => existsb (importItemUses d x) (imports ms)
  | None => false
  end.

Definition statementUses (m : Module) (s : statement) (d x : string) : bool :=
  match collectStatement m s with
  | Ok items => existsb (importItemUses d x) items
  | _ => false
  end.

(** Every import that a tree of a live module holds is among the imports
    recorded for that tree. *)
Definition covered (g : graph) : Prop :=
  forall e o s d x,
    In e g -> present e = true -> In o (output (value e)) -> In s (ast (data o)) ->
    statementUses (value e) s d x = true -> recordUses o d x = true.

(** *** What the pass can only shrink *)

Definition sameGraphShape (e e' : slot) : Prop :=
  depId e' = depId e /\ present e' = present e /\ path (value e') = path (value e)
  /\ dependencies (value e') = dependencies (value e)
  /\ inverseDependencies (value e') = inverseDependencies (value e).

Definition outputShrinks (o o' : outputItem) : Prop :=
  type o' = type o /\ forall d x, recordUses o' d x = true -> recordUses o d x = true.

Definition slotShrinks (e e' : slot) : Prop :=
  depId e' = depId e
  /\ (present e' = true -> present e = true)
  /\ incl (inverseDependencies (value e')) (inverseDependencies (value e))
  /\ Forall2 outputShrinks (output (value e)) (output (value e')).

Definition shrinks (g g' : graph) : Prop := Forall2 slotShrinks g g'.

Definition inverseShrinks (g g' : graph) : Prop :=
  Forall2 (fun e e' => incl (inverseDependencies (value e'))
                            (inverseDependencies (value e))) g g'.

(** The statements of [body'] are statements of [body], up to import
    declarations that lost specifiers. *)
Definition subBody (body' body : program) : Prop :=
  forall s', In s' body' ->
    In s' body
    \/ exists src specs specs',
         s' = ImportDeclaration src specs'
         /\ In (ImportDeclaration src specs) body /\ incl specs' specs.

(** An export declaration of [g] whose name is in use in [g'] is still in
    its tree in [g']. *)
Definition keeps (g g' : graph) : Prop :=
  forall i j body s E e',
    treeOf g i j = Some body -> In s body -> exportedName s = Some E ->
    g' !! i = Some e' -> isExportUsed g' (depId e') (value e') E = true ->
    exists body', treeOf g' i j = Some body' /\ In s body'.

Definition prunes (g g' : graph) : Prop :=
  wellFormed g' /\ covered g' /\ shrinks g g' /\ keeps g g'.

(** *** The edges of the graph *)

(** The part of a slot that carries the edges of the graph. *)
Record edges := {
  e_key : string;
  e_present : bool;
  e_path : string;
  e_dependencies : list (string * Dependency);
  e_inverse : list string
}.

Definition edgesOf (e : slot) : edges :=
  {| e_key := depId e; e_present := present e; e_path := path (value e);
     e_dependencies := dependencies (value e);
     e_inverse := inverseDependencies (value e) |}.

Definition graphEdges (g : graph) : list edges := List.map edgesOf g.

(** Distinct keys, distinct paths, and in every module distinct dependency
    keys resolving to distinct modules. *)
Definition simple (es : list edges) : Prop :=
  NoDup (List.map e_key es)
  /\ NoDup (List.map e_path es)
  /\ forall a, In a es ->
       NoDup (List.map fst (e_dependencies a))
       /\ NoDup (List.map (fun kd => absolutePath (snd kd)) (e_dependencies a)).

(** Every dependency entry of a module has a target slot that lists the
    module among its inverse dependencies, and the target of a live module
    is live. *)
Definition linked (es : list edges) : Prop :=
  forall a kd, In a es -> In kd (e_dependencies a) ->
    exists b, In b es /\ e_key b = absolutePath (snd kd)
              /\ In (e_path a) (e_inverse b)
              /\ (e_present a = true -> e_present b = true).

(** What the [Map]s of the graph give: distinct keys in
    [graph.dependencies], one module per path, and distinct keys in the
    dependencies of every module. *)
Definition keyed (es : list edges) : Prop :=
  NoDup (List.map e_key es)
  /\ NoDup (List.map e_path es)
  /\ forall a, In a es -> NoDup (List.map fst (e_dependencies a)).

(** The number of dependency entries that resolve to the key [k]. *)
Definition entriesTo (k : string) (deps : list (string * Dependency)) : nat :=
  length (List.filter (fun kd => String.eqb (absolutePath (snd kd)) k) deps).

(** The count that Metro keeps: a module is counted among the inverse
    dependencies of a target once for every dependency entry of the
    module that resolves to the target. *)
Definition counted (es : list edges) : Prop :=
  forall a b, In a es -> In b es ->
    count_occ string_dec (e_inverse b) (e_path a)
    = entriesTo (e_key b) (e_dependencies a).

Definition dropInverse (p : string) (b : edges) : edges :=
  let inv := countingDelete p (e_inverse b) in
  {| e_key := e_key b;
     e_present := match inv with [] => false | _ :: _ => e_present b end;
     e_path := e_path b; e_dependencies := e_dependencies b; e_inverse := inv |}.

Definition dropDependency (depKey : string) (a : edges) : edges :=
  {| e_key := e_key a; e_present := e_present a; e_path := e_path a;
     e_dependencies := mapDelete depKey (e_dependencies a); e_inverse := e_inverse a |}.

Definition alterEdges (f : edges -> edges) (i : nat) (es : list edges) : list edges :=
  match es !! i with Some a => <[i := f a]> es | None => es end.

(** One unlinking, on the edges alone. *)
Definition detach (es es' : list edges) : Prop :=
  exists i a depKey dep k b,
    es !! i = Some a /\ mapGet depKey (e_dependencies a) = Some dep
    /\ es !! k = Some b /\ e_key b = absolutePath dep /\ e_present b = true
    /\ es' = alterEdges (dropDependency depKey) i
               (alterEdges (dropInverse (e_path a)) k es).

Definition samePaths (es0 es : list edges) : Prop :=
  Forall2 (fun a0 a => e_path a = e_path a0 /\ e_key a = e_key a0) es0 es.

(** *** What the two steps leave of a tree *)

(** The names among [names] that are not in use. *)
Definition unusedNames (used : string -> bool) (names : list string) : list string :=
  List.filter (fun x => negb (used x)) names.

(** What [removeUnusedImports] leaves of a tree, given the unused names:
    the import specifiers whose imported name is not unused, and the
    import declarations that still have a specifier. *)
Definition keepSpecifier (unused : list string) (sp : specifier) : bool :=
  match sp with
  | ImportSpecifier imported _ => negb (includes unused imported)
  | _ => true
  end.

Definition pruneStatement (unused : list string) (s : statement) : list statement :=
  match s with
  | ImportDeclaration src specs =>
      match List.filter (keepSpecifier unused) specs with
      | [] => []
      | sp :: specs' => [ImportDeclaration src (sp :: specs')]
      end
  | _ => [s]
  end.

Definition prunedBody (unused : list string) (body : program) : program :=
  flat_map (pruneStatement unused) body.

Definition isImportSpecifier (s : specifier) : bool :=
  match s with ImportSpecifier _ _ => true | _ => false end.

(** [body'] is [body] after pruning: statements stay in order; the
    statements that are gone are import declarations and export
    declarations that declare a name; an import declaration that stays may
    have lost specifiers. *)
Inductive prunedTo : program -> program -> Prop :=
| pruned_nil : prunedTo [] []
| pruned_keep s body body' :
    prunedTo body body' -> prunedTo (s :: body) (s :: body')
| pruned_export s body body' :
    declaredNames s <> [] -> prunedTo body body' -> prunedTo (s :: body) body'
| pruned_import src specs body body' :
    prunedTo body body' -> prunedTo (ImportDeclaration src specs :: body) body'
| pruned_specifiers src specs specs' body body' :
    sublist specs' specs -> prunedTo body body' ->
    prunedTo (ImportDeclaration src specs :: body)
             (ImportDeclaration src specs' :: body').

Definition treesPruned (tss tss' : list (list program)) : Prop :=
  Forall2 (Forall2 prunedTo) tss tss'.

(** *** What the pass does to the edges of a slot *)

(** What an unlinking can do to the edges of a slot: the key and the path
    stay; a deleted slot stays deleted; dependency entries and inverse
    dependencies can only go; a slot is deleted exactly when its last
    inverse dependency goes. *)
Definition edgesShrink (a a' : edges) : Prop :=
  e_key a' = e_key a /\ e_path a' = e_path a
  /\ (e_present a' = true -> e_present a = true)
  /\ sublist (e_dependencies a') (e_dependencies a)
  /\ sublist (e_inverse a') (e_inverse a)
  /\ (e_present a = true -> e_present a' = false -> e_inverse a' = [])
  /\ (e_present a' = true -> e_inverse a' = [] -> e_inverse a = []).

(** *** Graphs on which the pass cannot throw *)

(** The module names that a statement makes [collectImportExports] look
    up among the dependencies of the module. *)
Definition requireSource (e : expr) : list string :=
  match e with
  | CallExpression callee (StringLiteral v :: _) =>
      if hasName callee "require" then [v] else []
  | _ => []
  end.

Definition statementSources (s : statement) : list string :=
  match s with
  | ImportDeclaration src _ => [src]
  | _ => flat_map requireSource (statementNodes s)
  end.

Definition treeSources (ts : list program) : list string :=
  flat_map (flat_map statementSources) ts.

(** A statement that no visitor can throw on: every specifier of an
    import declaration is an [ImportSpecifier], an exported variable
    declaration declares at most one identifier, and every call of
    [require] has an argument. *)
Definition requireHasArgument (e : expr) : bool :=
  match e with
  | CallExpression callee [] => negb (hasName callee "require")
  | _ => true
  end.

Definition safeStatement (s : statement) : bool :=
  match s with
  | ImportDeclaration _ specs => forallb isImportSpecifier specs
  | ExportNamedDeclaration (Some (VariableDeclaration ds)) _ =>
      Nat.leb (length (identifierNames ds)) 1
      && forallb requireHasArgument (statementNodes s)
  | _ => forallb requireHasArgument (statementNodes s)
  end.

(** The trees of a module against its dependency entries: every module
    name is asked for by one import declaration or call of [require] at
    most, each one is the name of a dependency entry, and no entry has an
    empty key or an empty path. *)
Definition slotSafe (deps : list (string * Dependency)) (ts : list program) : Prop :=
  NoDup (treeSources ts)
  /\ incl (treeSources ts) (List.map (fun kd => data_name (snd kd)) deps)
  /\ (forall kd, In kd deps -> fst kd <> "" /\ absolutePath (snd kd) <> "")
  /\ forall body s, In body ts -> In s body -> safeStatement s = true.

(** A slot that was deleted has no inverse dependency. *)
Definition absentEmpty (es : list edges) : Prop :=
  forall a, In a es -> e_present a = false -> e_inverse a = [].

(** The conditions on the edges alone. *)
Definition edgesOk (es : list edges) : Prop :=
  simple es /\ linked es /\ absentEmpty es.

Definition safe (g : graph) : Prop :=
  simple (graphEdges g) /\ linked (graphEdges g) /\ absentEmpty (graphEdges g)
  /\ Forall2 (fun a ts => slotSafe (e_dependencies a) ts)
             (graphEdges g) (graphTrees g).

(** *** Graphs on which the pass is idempotent *)

(** No export declaration that declares a name holds a call of [require]
    on a string literal. *)
Definition exportsClean (g : graph) : Prop :=
  forall i j body s,
    treeOf g i j = Some body -> In s body ->
    declaredNames s <> [] -> statementSources s = [].

(** The import records of the graph are up to date. *)
Definition fresh (g : graph) : Prop := collectAll g = Ok g.

(** *** The configuration *)

(** [config.serializer?.customSerializer] *)
Definition originalSerializerOf (config : InputConfigT) : option Serializer :=
  match serializer config with Some s => customSerializer s | None => None end.

(** ** Concrete graphs *)

Module Scenarios.

Definition mkOutput (a : program) : outputItem :=
  {| type := "js/module";
     data := {| ast := a; modules := None; code := ""; lineCount := 0;
                map_segments := []; functionMap := None |} |}.

Definition mkDependency (d : string * string) : string * Dependency :=
  (fst d, {| absolutePath := snd d; data_name := fst d |}).

(** A live slot whose key is the module path, with one output. *)
Definition mkSlot (p : string) (deps : list (string * string)) (inv : list string)
    (a : program) : slot :=
  {| depId := p; present := true;
     value := {| path := p; dependencies := List.map mkDependency deps;
                 inverseDependencies := inv; output := [mkOutput a] |} |}.

Definition exportConst (x : string) (e : expr) : statement :=
ExportNamedDeclaration
  (Some (VariableDeclaration [{| id := IdentifierPattern x true; init := Some e |}])) [].

Definition literal : expr := Node [].

Definition use (x : string) : statement := Statement (Identifier x false).

(** [/a] imports [x] from [/b] and uses it; [/b] assigns [module.exports]
    and exports [x] and [y]. *)
Definition commonJsBody : program :=
  [Statement (Node [MemberExpression (Identifier "module" false)
                                     (Identifier "exports" false); literal]);
   exportConst "x" literal;
   exportConst "y" literal].

Definition commonJsGraph : graph :=
  [mkSlot "/a" [("./b", "/b")] []
     [ImportDeclaration "./b" [ImportSpecifier "x" "x"]; use "x"];
   mkSlot "/b" [] ["/a"] commonJsBody].

(** An entry point with a default export. *)
Definition entryGraph : graph :=
  [mkSlot "/index" [] [] [ExportDefaultDeclaration literal]].

(** [/b] declares [y] and exports it through an export list; [/a] imports
    only [x]. *)
Definition exportList : statement :=
ExportNamedDeclaration None [{| local := "y"; exported := "y" |}].

Definition exportListGraph : graph :=
  [mkSlot "/a" [("./b", "/b")] []
     [ImportDeclaration "./b" [ImportSpecifier "x" "x"]; use "x"];
   mkSlot "/b" [] ["/a"]
     [Statement (Node [Identifier "y" true; literal]);
      exportConst "x" literal;
      exportList]].

(** [import { a as b } from './x'; b;] *)
Definition aliasGraph : graph :=
  [mkSlot "/a" [("./x", "/x")] []
     [ImportDeclaration "./x" [ImportSpecifier "a" "b"]; use "b"];
   mkSlot "/x" [] ["/a"] [exportConst "a" literal]].

(** [import React from 'react'; React;] *)
Definition defaultImportGraph : graph :=
  [mkSlot "/a" [("react", "/react")] []
     [ImportDeclaration "react" [ImportDefaultSpecifier "React"]; use "React"];
   mkSlot "/react" [] ["/a"] [ExportDefaultDeclaration literal]].

(** [/a] reaches [/b] through two specifiers, [./b] and [./b.js], and is
    counted twice among the inverse dependencies of [/b]; the binding
    imported through the first specifier is not referenced. *)
Definition twoSpecifiersGraph : graph :=
  [mkSlot "/a" [("./b", "/b"); ("./b.js", "/b")] []
     [ImportDeclaration "./b" [ImportSpecifier "x" "x"];
      ImportDeclaration "./b.js" [ImportSpecifier "y" "y"];
      use "y"];
   mkSlot "/b" [] ["/a"; "/a"] [exportConst "x" literal; exportConst "y" literal]].

(** [/a] imports [x] from [/b] without a reference to it, and [z] from
    [/d], which it references; [/b] imports [y] from [/c] and exports
    [x]. *)
Definition chainGraph : graph :=
  [mkSlot "/a" [("./b", "/b"); ("./d", "/d")] []
     [ImportDeclaration "./b" [ImportSpecifier "x" "x"];
      ImportDeclaration "./d" [ImportSpecifier "z" "z"];
      use "z"];
   mkSlot "/b" [("./c", "/c")] ["/a"]
     [ImportDeclaration "./c" [ImportSpecifier "y" "y"];
      exportConst "x" (Identifier "y" false)];
   mkSlot "/c" [] ["/b"] [exportConst "y" literal];
   mkSlot "/d" [] ["/a"] [exportConst "z" literal]].

(** [/m] is an entry point whose only export holds a [require] call. *)
Definition requireInExportGraph : graph :=
  [mkSlot "/m" [("./x", "/x")] []
     [exportConst "foo" (CallExpression (Identifier "require" false)
                                        [StringLiteral "./x"])];
   mkSlot "/x" [] ["/m"] [exportConst "bar" literal]].

(** [import { a, b } from './x'; a;] *)
Definition partialImportGraph : graph :=
  [mkSlot "/a" [("./x", "/x")] []
     [ImportDeclaration "./x" [ImportSpecifier "a" "a"; ImportSpecifier "b" "b"];
      use "a"];
   mkSlot "/x" [] ["/a"] [exportConst "a" literal; exportConst "b" literal]].

(** The number of dependency edges of the live modules. *)
Definition edgeCount (g : graph) : nat :=
  list_sum (List.map (fun e => length (dependencies (value e)))
                     (List.filter present g)).

Definition sampleOptions : SerializerOptions :=
  {| sourceUrl := Some "/index.bundle?platform=web&serializer.output=static&serializer.map=true";
     sourceMapUrl := Some "/index.map";
     dev := false;
     serverRoot := Some "/srv/app";
     projectRoot := "/srv/app";
     createModuleId := fun _ => 0 |}.

Definition sampleParsedMap : parsedMap :=
  {| sources := ["__prelude__"; "/srv/app/src/App.js"]; otherFields := "" |}.

(** [/a] calls [require('./b')]; [/b] assigns [module.exports]. *)
Definition requireGraph : graph :=
  [mkSlot "/a" [("./b", "/b")] []
     [Statement (CallExpression (Identifier "require" false) [StringLiteral "./b"])];
   mkSlot "/b" [] ["/a"]
     [Statement (Node [MemberExpression (Identifier "module" false)
                                        (Identifier "exports" false); literal])]].

(** [import { x } from './b';] without a reference to [x]. *)
Definition unusedImportGraph : graph :=
  [mkSlot "/a" [("./b", "/b")] [] [ImportDeclaration "./b" [ImportSpecifier "x" "x"]];
   mkSlot "/b" [] ["/a"] [exportConst "x" literal]].

(** [/a] holds [import { a as b } from './x'; b; var a = 1;
    export var a = 2;] and [/main] imports [a] from [/a].  The scope binds
    [a] to the identifier of the first declaration, so the identifier of
    the exported redeclaration is not the binding identifier. *)
Definition redeclaredGraph : graph :=
  [mkSlot "/main" [("./a", "/a")] []
     [ImportDeclaration "./a" [ImportSpecifier "a" "a"]; use "a"];
   mkSlot "/a" [("./x", "/x")] ["/main"]
     [ImportDeclaration "./x" [ImportSpecifier "a" "b"];
      use "b";
      Statement (Node [Identifier "a" true; literal]);
      ExportNamedDeclaration
        (Some (VariableDeclaration
                 [{| id := IdentifierPattern "a" false; init := Some literal |}])) []];
   mkSlot "/x" [] ["/a"] [exportConst "a" literal]].

(** [/a] imports from [./missing], which is not among its dependencies. *)
Definition unresolvedImportGraph : graph :=
  [mkSlot "/a" [] [] [ImportDeclaration "./missing" [ImportSpecifier "x" "x"]]].

End Scenarios.
Export Scenarios.

(** * Properties *)

(** ** The pass: budget, stability and monotonicity *)

Lemma bind_Ok {A B : Type} (m : result A) (k : A -> result B) (b : B) :
  bind m k = Ok b -> exists a, m = Ok a /\ k a = Ok b.
Proof. destruct m; simpl; try discriminate. eauto. Qed.

Lemma mapM_Ok {A B : Type} (f : A -> result B) (l : list A) (l' : list B) :
  mapM f l = Ok l' -> Forall2 (fun x y => f x = Ok y) l l'.
Proof.
  revert l'. induction l as [|x l IH]; simpl; intros l' H.
  - injection H as <-. constructor.
  - apply bind_Ok in H as (y & Hy & H). apply bind_Ok in H as (ys & Hys & H).
    injection H as <-. constructor; auto.
Qed.

Lemma mapM_terminated {A B : Type} (f : A -> result B) (l : list A) :
  (forall x, In x l -> terminated (f x) = true) -> terminated (mapM f l) = true.
Proof.
  induction l as [|x l IH]; simpl; intros H; [reflexivity|].
  pose proof (H x (or_introl eq_refl)) as Hx.
  destruct (f x); simpl in *; try easy.
  assert (Hl : terminated (mapM f l) = true) by (apply IH; auto).
  destruct (mapM f l); simpl in *; easy.
Qed.

Lemma map_insert {A B : Type} (f : A -> B) (l : list A) (i : nat) (x : A) :
  List.map f (<[i := x]> l) = <[i := f x]> (List.map f l).
Proof.
  revert i. induction l as [|y l IH]; intros [|i]; simpl; try reflexivity.
  f_equal. apply IH.
Qed.

Lemma map_lookup {A B : Type} (f : A -> B) (l : list A) (i : nat) :
  List.map f l !! i = match l !! i with Some x => Some (f x) | None => None end.
Proof.
  revert i. induction l as [|y l IH]; intros [|i]; simpl; try reflexivity. apply IH.
Qed.

Lemma graphTrees_insert (g : graph) (k : nat) (e e' : slot) :
  g !! k = Some e -> moduleTrees (value e') = moduleTrees (value e) ->
  graphTrees (<[k := e']> g) = graphTrees g.
Proof.
  intros Hk He. unfold graphTrees. rewrite map_insert, He.
  apply list_insert_id. rewrite map_lookup, Hk. reflexivity.
Qed.

Lemma importSize_trees (g : graph) :
  importSize g
  = list_sum (List.map (fun ts => list_sum (List.map importSizeOfProgram ts)) (graphTrees g)).
Proof.
  unfold importSize, graphTrees. rewrite List.map_map. f_equal.
  apply List.map_ext. intros e. unfold importSizeOfModule, moduleTrees.
  rewrite List.map_map. reflexivity.
Qed.

(** collect keeps the trees *)
Lemma collectOutput_ast value o o' :
  collectOutput value o = Ok o' -> ast (data o') = ast (data o) /\ type o' = type o.
Proof.
  unfold collectOutput. intros H. apply bind_Ok in H as (imps & _ & H).
  injection H as <-. auto.
Qed.

Lemma Forall2_map_eq {A B C : Type} (f : A -> C) (h : B -> C) (l : list A) (l' : list B) :
  Forall2 (fun x y => h y = f x) l l' -> List.map h l' = List.map f l.
Proof. induction 1; simpl; congruence. Qed.

Lemma collectImportExports_trees value m :
  collectImportExports value = Ok m -> moduleTrees m = moduleTrees value.
Proof.
  unfold collectImportExports. intros H. apply bind_Ok in H as (os & Hos & H).
  injection H as <-. unfold moduleTrees; simpl.
  apply mapM_Ok in Hos. apply Forall2_map_eq.
  eapply Forall2_impl; [exact Hos|]. intros o o' Ho. apply collectOutput_ast in Ho. tauto.
Qed.

Lemma collectSlot_trees e e' :
  collectSlot e = Ok e' -> moduleTrees (value e') = moduleTrees (value e).
Proof.
  unfold collectSlot. destruct (present e).
  - intros H. apply bind_Ok in H as (m & Hm & H). injection H as <-. simpl.
    eapply collectImportExports_trees; eauto.
  - intros [= <-]. reflexivity.
Qed.

Lemma collectAll_trees g g1 : collectAll g = Ok g1 -> graphTrees g1 = graphTrees g.
Proof.
  intros H. apply mapM_Ok in H. unfold graphTrees. apply Forall2_map_eq.
  eapply Forall2_impl; [exact H|]. intros e e'. apply collectSlot_trees.
Qed.

Lemma collectAll_importSize g g1 : collectAll g = Ok g1 -> importSize g1 = importSize g.
Proof. intros H. rewrite !importSize_trees. erewrite collectAll_trees; eauto. Qed.

(** treeShakeExports keeps the imports *)
Lemma shakeDeclarators_terminated used ds r : terminated (shakeDeclarators used ds r) = true.
Proof.
  revert r. induction ds as [|d ds IH]; intros r; simpl; [reflexivity|].
  destruct (id d); [|apply IH]. destruct (used name); [apply IH|].
  destruct r; simpl; [reflexivity|apply IH].
Qed.

Lemma shakeStatement_terminated used s : terminated (shakeStatement used s) = true.
Proof.
  destruct s as [| |[[ds|x b]|]|]; simpl; try reflexivity.
  - destruct (used "default"); reflexivity.
  - apply shakeDeclarators_terminated.
  - destruct (used x); reflexivity.
Qed.

Lemma shakeStatement_removed_size used s :
  shakeStatement used s = Ok true -> importSizeOfStatement s = 0.
Proof. destruct s; simpl; [discriminate|reflexivity..]. Qed.

Lemma shakeProgram_size used body body' :
  shakeProgram used body = Ok body' -> importSizeOfProgram body' = importSizeOfProgram body.
Proof.
  revert body'. induction body as [|s body IH]; simpl; intros body' H.
  - injection H as <-. reflexivity.
  - apply bind_Ok in H as (removed & Hs & H). apply bind_Ok in H as (rest & Hrest & H).
    injection H as <-. specialize (IH _ Hrest). unfold importSizeOfProgram in *.
    destruct removed; simpl.
    + rewrite (shakeStatement_removed_size _ _ Hs). simpl. exact IH.
    + rewrite IH. reflexivity.
Qed.

Lemma shakeProgram_terminated used body : terminated (shakeProgram used body) = true.
Proof.
  induction body as [|s body IH]; simpl; [reflexivity|].
  pose proof (shakeStatement_terminated used s) as Hs.
  destruct (shakeStatement used s); simpl in *; try easy.
  destruct (shakeProgram used body); simpl in *; easy.
Qed.

Lemma importSize_insert g i e e' :
  g !! i = Some e ->
  importSize (<[i := e']> g) + importSizeOfModule (value e)
  = importSize g + importSizeOfModule (value e').
Proof.
  unfold importSize. revert i. induction g as [|x g IH]; intros [|i]; simpl; try discriminate.
  - intros [= ->]. lia.
  - intros H. specialize (IH _ H). lia.
Qed.

Lemma treeShakeExports_importSize i g g' :
  treeShakeExports i g = Ok g' -> importSize g' = importSize g.
Proof.
  unfold treeShakeExports. destruct (g !! i) as [e|] eqn:He; [|discriminate].
  intros H. apply bind_Ok in H as (os & Hos & H). injection H as <-.
  pose proof (importSize_insert g i e (set_value (set_output os (value e)) e) He) as Hsz.
  assert (importSizeOfModule (set_output os (value e)) = importSizeOfModule (value e)).
  { unfold importSizeOfModule; simpl. f_equal. apply mapM_Ok in Hos.
    apply Forall2_map_eq. eapply Forall2_impl; [exact Hos|].
    intros o o' Ho. unfold shakeOutput in Ho. apply bind_Ok in Ho as (a & Ha & Ho).
    injection Ho as <-. simpl. eapply shakeProgram_size; eauto. }
  simpl in Hsz. lia.
Qed.

Lemma treeShakeExports_terminated i g : terminated (treeShakeExports i g) = true.
Proof.
  unfold treeShakeExports. destruct (g !! i) as [e|]; [|reflexivity].
  assert (H : terminated (mapM (shakeOutput (isExportUsed g (depId e) (value e))) (output (value e))) = true).
  { apply mapM_terminated. intros o _. unfold shakeOutput.
    pose proof (shakeProgram_terminated (isExportUsed g (depId e) (value e)) (ast (data o))).
    destruct (shakeProgram _ _); simpl in *; easy. }
  destruct (mapM _ _); simpl in *; easy.
Qed.

(** sets as lists *)
Lemma includes_In l x : includes l x = true <-> In x l.
Proof.
  unfold includes. rewrite existsb_exists. split.
  - intros (y & Hy & Heq). apply String.eqb_eq in Heq. subst. exact Hy.
  - intros H. exists x. split; [exact H|apply String.eqb_refl].
Qed.

Lemma setAdd_In x y s : In y (setAdd x s) <-> y = x \/ In y s.
Proof.
  unfold setAdd. destruct (includes s x) eqn:E.
  - apply includes_In in E. split; [auto|]. intros [->|H]; auto.
  - rewrite in_app_iff. simpl. split; intros H; [destruct H as [H|[H|[]]]|]; auto.
    destruct H as [->|H]; auto.
Qed.

Lemma fold_setAdd_In l s y :
  In y (fold_left (fun s x => setAdd x s) l s) <-> In y l \/ In y s.
Proof.
  revert s. induction l as [|x l IH]; intros s; simpl; [tauto|].
  rewrite IH, setAdd_In. intuition (subst; auto).
Qed.

Lemma mkSet_In l y : In y (mkSet l) <-> In y l.
Proof. unfold mkSet. rewrite fold_setAdd_In. simpl. tauto. Qed.

(** counting sets *)
Lemma countingValues_In s y : In y (countingValues s) <-> In y s.
Proof. apply mkSet_In. Qed.

Lemma existsb_countingValues (f : string -> bool) s :
  existsb f (countingValues s) = existsb f s.
Proof.
  apply eq_true_iff_eq. rewrite !existsb_exists.
  split; intros (y & Hy & H); exists y; (split; [|exact H]); apply countingValues_In; exact Hy.
Qed.

Lemma countingSize_0 s :
  Nat.eqb (countingSize s) 0 = match s with [] => true | _ :: _ => false end.
Proof.
  unfold countingSize. destruct s as [|y s]; [reflexivity|].
  destruct (countingValues (y :: s)) as [|z l] eqn:E; [|reflexivity].
  assert (H : In y (countingValues (y :: s))) by (apply countingValues_In; left; reflexivity).
  rewrite E in H. destruct H.
Qed.

Lemma countingDelete_sublist p s : sublist (countingDelete p s) s.
Proof.
  induction s as [|y s IH]; simpl; [constructor|].
  destruct (String.eqb y p && negb (includes s p)).
  - apply sublist_cons. reflexivity.
  - apply sublist_skip. exact IH.
Qed.

Lemma countingDelete_incl p s : incl (countingDelete p s) s.
Proof.
  induction s as [|y s IH]; simpl; [intros q []|].
  destruct (String.eqb y p && negb (includes s p)); intros q Hq; [right; exact Hq|].
  destruct Hq as [->|Hq]; [left; reflexivity|right; apply IH; exact Hq].
Qed.

Lemma countingDelete_count p s q :
  count_occ string_dec (countingDelete p s) q
  = if string_dec q p then pred (count_occ string_dec s p) else count_occ string_dec s q.
Proof.
  induction s as [|y s IH]; simpl.
  - destruct (string_dec q p); reflexivity.
  - destruct (String.eqb_spec y p) as [->|Hne]; simpl.
    + destruct (includes s p) eqn:Hin; simpl.
      * rewrite IH. destruct (string_dec p p) as [_|]; [|contradiction].
        destruct (string_dec q p) as [->|Hqp].
        -- destruct (string_dec p p) as [_|]; [|contradiction].
           apply includes_In in Hin. apply (count_occ_In string_dec) in Hin. lia.
        -- destruct (string_dec p q) as [<-|_]; [contradiction|]. reflexivity.
      * assert (Hc : count_occ string_dec s p = 0).
        { apply count_occ_not_In. intros H. apply includes_In in H. congruence. }
        destruct (string_dec p p) as [_|]; [|contradiction].
        destruct (string_dec q p) as [->|Hqp]; [rewrite Hc; reflexivity|].
        destruct (string_dec p q) as [<-|_]; [contradiction|]. reflexivity.
    + rewrite IH. destruct (string_dec y p) as [|_]; [contradiction|].
      destruct (string_dec q p) as [->|Hqp].
      * destruct (string_dec y p) as [|_]; [contradiction|]. reflexivity.
      * reflexivity.
Qed.

Lemma countingDelete_In_ne p s q : q <> p -> In q s -> In q (countingDelete p s).
Proof.
  intros Hne H. apply (count_occ_In string_dec). rewrite countingDelete_count.
  destruct (string_dec q p); [contradiction|]. apply (count_occ_In string_dec). exact H.
Qed.

Lemma unusedImports_In body u :
  In u (unusedImports body)
  <-> In u (flat_map importedOfStatement body) /\ ~ In u (usedIdentifiers body).
Proof.
  unfold unusedImports, importedIdentifiers. rewrite filter_In, mkSet_In.
  rewrite negb_true_iff, <- not_true_iff_false, includes_In. tauto.
Qed.

(** the specifier filter *)
Lemma filterSpecifiers_length unused specs specs' :
  filterSpecifiers unused specs = Ok specs' ->
  length specs' <= length specs
  /\ (forall u, In u unused -> In u (List.map importedOfSpecifier specs) ->
                length specs' < length specs).
Proof.
  revert specs'. induction specs as [|[imp loc|loc|loc] specs IH]; simpl; intros specs' H;
    try discriminate.
  - injection H as <-. simpl. split; [lia|]. intros u _ [].
  - apply bind_Ok in H as (rest & Hrest & H). injection H as <-.
    destruct (IH _ Hrest) as [Hle Hlt]. destruct (includes unused imp) eqn:E; simpl.
    + split; [lia|]. intros; lia.
    + split; [lia|]. intros u Hu [<-|Hin].
      * apply includes_In in Hu. congruence.
      * specialize (Hlt _ Hu Hin). lia.
Qed.

Lemma filterSpecifiers_terminated unused specs :
  terminated (filterSpecifiers unused specs) = true.
Proof.
  induction specs as [|[imp loc|loc|loc] specs IH]; simpl; try reflexivity.
  destruct (filterSpecifiers unused specs); simpl in *; easy.
Qed.

(** unlinking keeps the trees *)
Lemma alterSlot_lookup f i g k :
  alterSlot f i g !! k
  = if Nat.eqb k i then match g !! i with Some e => Some (f e) | None => None end
    else g !! k.
Proof.
  unfold alterSlot. destruct (Nat.eqb_spec k i) as [->|Hne].
  - destruct (g !! i) as [e|] eqn:He; [|exact He].
    apply list_lookup_insert_eq. eapply lookup_lt_Some; eauto.
  - destruct (g !! i) as [e|] eqn:He; [|reflexivity].
    apply list_lookup_insert_ne. auto.
Qed.

Lemma alterSlot_length f i g : length (alterSlot f i g) = length g.
Proof. unfold alterSlot. destruct (g !! i); [apply length_insert|reflexivity]. Qed.

Lemma graphTrees_alterSlot f i g :
  (forall e, moduleTrees (value (f e)) = moduleTrees (value e)) ->
  graphTrees (alterSlot f i g) = graphTrees g.
Proof.
  intros Hf. unfold alterSlot. destruct (g !! i) as [e|] eqn:He; [|reflexivity].
  eapply graphTrees_insert; eauto.
Qed.

Lemma unlink_Ok i src g g' :
  unlink i src g = Ok g' ->
  exists e depKey d0 dep k graphDep,
    g !! i = Some e
    /\ List.find (fun kd => String.eqb (data_name (snd kd)) src) (dependencies (value e))
       = Some (depKey, d0)
    /\ mapGet depKey (dependencies (value e)) = Some dep
    /\ indexOf (absolutePath dep) g = Some k
    /\ g !! k = Some graphDep
    /\ g' = alterModule
              (fun m => set_dependencies (mapDelete depKey (dependencies m)) m) i
              (<[k := let inv := countingDelete (path (value e))
                                   (inverseDependencies (value graphDep)) in
                      let graphDep' :=
                        set_value (set_inverseDependencies inv (value graphDep)) graphDep in
                      match inv with [] => set_absent graphDep' | _ :: _ => graphDep' end]> g).
Proof.
  unfold unlink. destruct (g !! i) as [e|] eqn:He; [|discriminate].
  destruct (List.find _ _) as [[depKey d0]|] eqn:Hfind; [|discriminate].
  destruct (String.eqb depKey ""); [discriminate|].
  destruct (mapGet depKey _) as [dep|] eqn:Hdep; [|discriminate].
  destruct (indexOf _ g) as [k|] eqn:Hk; [|discriminate].
  destruct (g !! k) as [graphDep|] eqn:Hgk; [|discriminate].
  intros [= <-]. exists e, depKey, d0, dep, k, graphDep.
  do 5 (split; [first [assumption|reflexivity]|]). rewrite countingSize_0.
  destruct (countingDelete _ _); reflexivity.
Qed.

Lemma unlink_terminated i src g : terminated (unlink i src g) = true.
Proof.
  unfold unlink. destruct (g !! i) as [e|]; [|reflexivity].
  destruct (List.find _ _) as [[depKey d0]|]; [|reflexivity].
  destruct (String.eqb depKey ""); [reflexivity|].
  destruct (mapGet depKey _) as [dep|]; [|reflexivity].
  destruct (indexOf _ g) as [k|]; [|reflexivity].
  destruct (g !! k) as [graphDep|]; reflexivity.
Qed.

Lemma unlink_trees i src g g' : unlink i src g = Ok g' -> graphTrees g' = graphTrees g.
Proof.
  intros H. apply unlink_Ok in H as (e & depKey & d0 & dep & k & graphDep & _ & _ & _ & _ & Hk & ->).
  unfold alterModule. rewrite graphTrees_alterSlot; [|reflexivity].
  eapply graphTrees_insert; eauto.
  destruct (countingDelete _ _); reflexivity.
Qed.

(** the import visitor *)
Lemma pruneImports_size i unused body g r body' g' r' :
  pruneImports i unused body g r = Ok (body', g', r') ->
  graphTrees g' = graphTrees g
  /\ importSizeOfProgram body' <= importSizeOfProgram body
  /\ (r' = true -> r = true \/ importSizeOfProgram body' < importSizeOfProgram body)
  /\ (forall u, In u unused -> In u (flat_map importedOfStatement body) ->
                importSizeOfProgram body' < importSizeOfProgram body).
Proof.
  unfold importSizeOfProgram.
  revert g r body' g' r'. induction body as [|s body IH]; intros g r body' g' r' H.
  - simpl in H. injection H as <- <- <-. simpl.
    split; [reflexivity|]. split; [lia|]. split; [auto|]. intros u _ [].
  - destruct s as [src specs|d|d specs|b].
    2-4: simpl in H; apply bind_Ok in H as ([[rest g1] r1] & Hrest & H);
         injection H as <- <- <-; apply IH in Hrest; simpl; exact Hrest.
    simpl in H. apply bind_Ok in H as (specs' & Hspecs & H).
    destruct (filterSpecifiers_length _ _ _ Hspecs) as [Hle Hlt].
    destruct specs' as [|sp specs'].
    + apply bind_Ok in H as (g1 & Hg1 & H). apply IH in H as (Ht & Hsz & _ & _).
      rewrite Ht. split; [eapply unlink_trees; eauto|]. simpl.
      split; [lia|]. split; intros; [right|]; lia.
    + apply bind_Ok in H as ([[rest g1] r1] & Hrest & H). injection H as <- <- <-.
      apply IH in Hrest as (Ht & Hsz & Hr & Hu). split; [exact Ht|]. simpl in *.
      split; [lia|]. split.
      * intros Hr'. destruct (Hr Hr'); [auto|right; lia].
      * intros u Hu1 Hu2. apply in_app_iff in Hu2 as [Hu2|Hu2].
        -- specialize (Hlt _ Hu1 Hu2). simpl in Hlt. lia.
        -- specialize (Hu _ Hu1 Hu2). lia.
Qed.

Lemma pruneImports_terminated i unused body g r :
  terminated (pruneImports i unused body g r) = true.
Proof.
  revert g r. induction body as [|s body IH]; intros g r; [reflexivity|].
  destruct s as [src specs|d|d specs|b].
  2-4: simpl; specialize (IH g r); destruct (pruneImports i unused body g r) as [[[? ?] ?]| |];
       simpl in *; easy.
  simpl. pose proof (filterSpecifiers_terminated unused specs) as Hf.
  destruct (filterSpecifiers unused specs) as [[|sp specs']| |]; simpl in *; try easy.
  - pose proof (unlink_terminated i src g) as Hu.
    destruct (unlink i src g); simpl in *; [apply IH|easy..].
  - specialize (IH g r). destruct (pruneImports i unused body g r) as [[[? ?] ?]| |];
      simpl in *; easy.
Qed.

(** storing a tree *)
Lemma moduleTrees_set_ast m j o a :
  output m !! j = Some o ->
  moduleTrees (set_output (<[j := set_ast a o]> (output m)) m) = <[j := a]> (moduleTrees m).
Proof. intros _. unfold moduleTrees; simpl. rewrite map_insert. reflexivity. Qed.

Lemma graphTrees_lookup g i :
  graphTrees g !! i
  = match g !! i with Some e => Some (moduleTrees (value e)) | None => None end.
Proof. unfold graphTrees. apply map_lookup. Qed.

Lemma treeOf_trees g i j :
  treeOf g i j
  = match graphTrees g !! i with Some ts => ts !! j | None => None end.
Proof.
  unfold treeOf. rewrite graphTrees_lookup. destruct (g !! i) as [e|]; [|reflexivity].
  unfold moduleTrees. rewrite map_lookup. reflexivity.
Qed.

Lemma graphTrees_setAst g i j a e :
  g !! i = Some e ->
  graphTrees (setAst i j a g) = <[i := <[j := a]> (moduleTrees (value e))]> (graphTrees g).
Proof.
  intros He. unfold setAst, alterModule, alterSlot. rewrite He.
  unfold graphTrees at 1. rewrite map_insert. simpl. f_equal.
  destruct (output (value e) !! j) as [o|] eqn:Ho.
  - apply moduleTrees_set_ast. exact Ho.
  - symmetry. apply list_insert_ge. unfold moduleTrees. rewrite length_map.
    apply lookup_ge_None. exact Ho.
Qed.

Lemma list_sum_insert (l : list nat) i x y :
  l !! i = Some x -> list_sum (<[i := y]> l) + x = list_sum l + y.
Proof.
  revert i. induction l as [|z l IH]; intros [|i]; simpl; try discriminate.
  - intros [= ->]. lia.
  - intros H. specialize (IH _ H). lia.
Qed.

Lemma sizeOfTrees_insert tss i j ts old a :
  tss !! i = Some ts -> ts !! j = Some old ->
  sizeOfTrees (<[i := <[j := a]> ts]> tss) + importSizeOfProgram old
  = sizeOfTrees tss + importSizeOfProgram a.
Proof.
  intros Hi Hj. unfold sizeOfTrees. rewrite map_insert.
  pose proof (list_sum_insert
                (List.map (fun ts => list_sum (List.map importSizeOfProgram ts)) tss) i
                (list_sum (List.map importSizeOfProgram ts))
                (list_sum (List.map importSizeOfProgram (<[j := a]> ts)))) as H1.
  rewrite map_lookup, Hi in H1. specialize (H1 eq_refl).
  rewrite map_insert in *.
  pose proof (list_sum_insert (List.map importSizeOfProgram ts) j
                (importSizeOfProgram old) (importSizeOfProgram a)) as H2.
  rewrite map_lookup, Hj in H2. specialize (H2 eq_refl). lia.
Qed.

Lemma removeUnusedImports_Ok i j g b g' :
  removeUnusedImports i j g = Ok (b, g') ->
  exists e o body' g1,
    g !! i = Some e /\ output (value e) !! j = Some o
    /\ pruneImports i (unusedImports (ast (data o))) (ast (data o)) g
                    (nonEmpty (unusedImports (ast (data o)))) = Ok (body', g1, b)
    /\ g' = setAst i j body' g1.
Proof.
  unfold removeUnusedImports. destruct (g !! i) as [e|] eqn:He; [|discriminate].
  destruct (output (value e) !! j) as [o|] eqn:Ho; [|discriminate].
  intros H. apply bind_Ok in H as ([[body' g1] r] & Hp & H). injection H as <- <-.
  exists e, o, body', g1. auto.
Qed.

Lemma removeUnusedImports_trees i j g b g' :
  removeUnusedImports i j g = Ok (b, g') ->
  exists ts body body',
    graphTrees g !! i = Some ts /\ ts !! j = Some body
    /\ graphTrees g' = <[i := <[j := body']> ts]> (graphTrees g)
    /\ importSizeOfProgram body' <= importSizeOfProgram body
    /\ (b = true -> importSizeOfProgram body' < importSizeOfProgram body).
Proof.
  intros H. apply removeUnusedImports_Ok in H as (e & o & body' & g1 & He & Ho & Hp & ->).
  pose proof (pruneImports_size _ _ _ _ _ _ _ _ Hp) as (Ht & Hle & Hr & Hu).
  exists (moduleTrees (value e)), (ast (data o)), body'.
  split; [rewrite graphTrees_lookup, He; reflexivity|].
  split; [unfold moduleTrees; rewrite map_lookup, Ho; reflexivity|].
  assert (Hi1 : graphTrees g1 !! i = Some (moduleTrees (value e))).
  { rewrite Ht, graphTrees_lookup, He. reflexivity. }
  rewrite graphTrees_lookup in Hi1. destruct (g1 !! i) as [e1|] eqn:He1; [|discriminate].
  injection Hi1 as Hi1. rewrite (graphTrees_setAst _ _ _ _ _ He1), Hi1, Ht.
  split; [reflexivity|]. split; [exact Hle|].
  intros ->. destruct (Hr eq_refl) as [Hne|Hlt]; [|exact Hlt].
  destruct (unusedImports (ast (data o))) as [|u us] eqn:Hun; [discriminate|].
  apply (Hu u); [left; reflexivity|].
  assert (Hin : In u (unusedImports (ast (data o)))) by (rewrite Hun; left; reflexivity).
  apply unusedImports_In in Hin. tauto.
Qed.

Lemma removeUnusedImports_importSize i j g b g' :
  removeUnusedImports i j g = Ok (b, g') ->
  importSize g' <= importSize g /\ (b = true -> importSize g' < importSize g).
Proof.
  intros H. apply removeUnusedImports_trees in H as (ts & body & body' & Hi & Hj & Ht & Hle & Hlt).
  rewrite !importSize_trees, Ht.
  pose proof (sizeOfTrees_insert _ _ _ _ _ body' Hi Hj) as Hs. unfold sizeOfTrees in Hs.
  split; [lia|]. intros Hb. specialize (Hlt Hb). lia.
Qed.

Lemma removeUnusedImports_terminated i j g :
  terminated (removeUnusedImports i j g) = true.
Proof.
  unfold removeUnusedImports. destruct (g !! i) as [e|]; [|reflexivity].
  destruct (output (value e) !! j) as [o|]; [|reflexivity].
  pose proof (pruneImports_terminated i (unusedImports (ast (data o))) (ast (data o)) g
                (nonEmpty (unusedImports (ast (data o))))) as H.
  destruct (pruneImports _ _ _ _ _) as [[[? ?] ?]| |]; simpl in *; easy.
Qed.

(** termination *)
Section Budget.
Variable rerun : graph -> result graph.
Variable budget : nat.
Hypothesis rerun_ok :
  forall g, importSize g < budget ->
    terminated (rerun g) = true
    /\ forall g', rerun g = Ok g' -> importSize g' <= importSize g.

Lemma forOutputs_budget i js g :
  importSize g <= budget ->
  terminated (forOutputs rerun i js g) = true
  /\ forall g', forOutputs rerun i js g = Ok g' -> importSize g' <= importSize g.
Proof.
  revert g. induction js as [|j js IH]; intros g Hg; simpl.
  - split; [reflexivity|]. intros g' [= <-]. lia.
  - pose proof (removeUnusedImports_terminated i j g) as Ht.
    destruct (removeUnusedImports i j g) as [[removed g1]| |] eqn:Hr; simpl in *; try easy.
    apply removeUnusedImports_importSize in Hr as [Hle Hlt].
    destruct removed.
    + specialize (Hlt eq_refl). destruct (rerun_ok g1) as [Ht1 Hsz1]; [lia|].
      destruct (rerun g1) as [g2| |]; simpl in *; try easy.
      specialize (Hsz1 _ eq_refl). destruct (IH g2) as [Ht2 Hsz2]; [lia|].
      split; [exact Ht2|]. intros g' Hg'. specialize (Hsz2 _ Hg'). lia.
    + simpl. destruct (IH g1) as [Ht2 Hsz2]; [lia|].
      split; [exact Ht2|]. intros g' Hg'. specialize (Hsz2 _ Hg'). lia.
Qed.

Lemma forModules_budget idxs g :
  importSize g <= budget ->
  terminated (forModules rerun idxs g) = true
  /\ forall g', forModules rerun idxs g = Ok g' -> importSize g' <= importSize g.
Proof.
  revert g. induction idxs as [|i idxs IH]; intros g Hg; simpl.
  - split; [reflexivity|]. intros g' [= <-]. lia.
  - destruct (g !! i) as [e|]; [|apply IH; exact Hg].
    destruct (present e); [|apply IH; exact Hg].
    pose proof (treeShakeExports_terminated i g) as Ht.
    destruct (treeShakeExports i g) as [g1| |] eqn:Hg1; simpl in *; try easy.
    apply treeShakeExports_importSize in Hg1.
    destruct (forOutputs_budget i (seq 0 (length (output (value e)))) g1) as [Ht2 Hsz2]; [lia|].
    destruct (forOutputs rerun i _ g1) as [g2| |]; simpl in *; try easy.
    specialize (Hsz2 _ eq_refl). destruct (IH g2) as [Ht3 Hsz3]; [lia|].
    split; [exact Ht3|]. intros g' Hg'. specialize (Hsz3 _ Hg'). lia.
Qed.
End Budget.

(** the requests of [collectStatement] always come back *)
Lemma getGraphId_terminated m v : terminated (getGraphId m v) = true.
Proof.
  unfold getGraphId. destruct (List.find _ _); [|reflexivity].
  destruct (String.eqb _ _); reflexivity.
Qed.

Lemma bind_terminated {A B : Type} (m : result A) (k : A -> result B) :
  terminated m = true -> (forall a, terminated (k a) = true) -> terminated (bind m k) = true.
Proof. destruct m; simpl; auto. Qed.

Lemma requireVisitor_terminated m e : terminated (requireVisitor m e) = true.
Proof.
  destruct e as [| | |c [|[] ?]|]; simpl; try reflexivity;
    destruct (hasName c "require"); try reflexivity.
  apply bind_terminated; [apply getGraphId_terminated|reflexivity].
Qed.

Lemma collectStatement_terminated m s : terminated (collectStatement m s) = true.
Proof.
  assert (H : forall l, terminated (do rs <- mapM (requireVisitor m) l; Ok (concat rs)) = true).
  { intros l. apply bind_terminated; [|reflexivity]. apply mapM_terminated.
    intros e _. apply requireVisitor_terminated. }
  destruct s; simpl; try apply H.
  apply bind_terminated; [apply getGraphId_terminated|reflexivity].
Qed.

Lemma collectAll_terminated g : terminated (collectAll g) = true.
Proof.
  apply mapM_terminated. intros e _. unfold collectSlot.
  destruct (present e); [|reflexivity].
  apply bind_terminated; [|reflexivity]. unfold collectImportExports.
  apply bind_terminated; [|reflexivity]. apply mapM_terminated. intros o _.
  unfold collectOutput, collectProgram.
  apply bind_terminated; [|reflexivity]. apply bind_terminated; [|reflexivity].
  apply mapM_terminated. intros s _. apply collectStatement_terminated.
Qed.

Lemma treeShakeAll_budget n g :
  importSize g <= n ->
  terminated (treeShakeAll (S n) g) = true
  /\ forall g', treeShakeAll (S n) g = Ok g' -> importSize g' <= importSize g.
Proof.
  revert g. induction n as [|n IH]; intros g Hg.
  - simpl. pose proof (collectAll_terminated g) as Hc.
    destruct (collectAll g) as [g1| |] eqn:Hg1; simpl in *; try easy.
    apply collectAll_importSize in Hg1.
    destruct (forModules_budget (fun _ => OutOfFuel) 0) with (idxs := seq 0 (length g1)) (g := g1)
      as [Ht Hsz]; [intros; lia|lia|].
    split; [exact Ht|]. intros g' Hg'. specialize (Hsz _ Hg'). lia.
  - change (treeShakeAll (S (S n)) g)
      with (do g1 <- collectAll g; forModules (treeShakeAll (S n)) (seq 0 (length g1)) g1).
    pose proof (collectAll_terminated g) as Hc.
    destruct (collectAll g) as [g1| |] eqn:Hg1; simpl bind; simpl in Hc; try easy.
    apply collectAll_importSize in Hg1.
    destruct (forModules_budget (treeShakeAll (S n)) (S n)) with (idxs := seq 0 (length g1)) (g := g1)
      as [Ht Hsz]; [intros g0 Hg0; apply IH; lia|lia|].
    split; [exact Ht|]. intros g' Hg'. specialize (Hsz _ Hg'). lia.
Qed.

Lemma set_ast_eta o : set_ast (ast (data o)) o = o.
Proof. destruct o as [t [a m c l s f]]. reflexivity. Qed.

Lemma set_output_eta m : set_output (output m) m = m.
Proof. destruct m. reflexivity. Qed.

Lemma set_value_eta e : set_value (value e) e = e.
Proof. destruct e. reflexivity. Qed.

Lemma Forall2_eq_same {A : Type} (f : A -> result A) (l : list A) :
  Forall2 (fun x y => f x = Ok y) l l <-> (forall x, In x l -> f x = Ok x).
Proof.
  induction l as [|x l IH]; simpl.
  - split; [intros _ x []|constructor].
  - split.
    + intros H. inversion H; subst. intros y [<-|Hy]; [assumption|]. apply IH; assumption.
    + intros H. constructor; [apply H; auto|]. apply IH. intros y Hy. apply H; auto.
Qed.

Lemma mapM_Forall2 {A B : Type} (f : A -> result B) (l : list A) (l' : list B) :
  Forall2 (fun x y => f x = Ok y) l l' -> mapM f l = Ok l'.
Proof. induction 1 as [|x y l l' Hxy _ IH]; simpl; [reflexivity|]. rewrite Hxy, IH. reflexivity. Qed.

(** the export visitors are idempotent *)
Lemma shakeProgram_kept used body body' :
  shakeProgram used body = Ok body' ->
  forall s, In s body' <-> In s body /\ shakeStatement used s = Ok false.
Proof.
  revert body'. induction body as [|s0 body IH]; simpl; intros body' H s.
  - injection H as <-. simpl. tauto.
  - apply bind_Ok in H as (removed & Hs & H). apply bind_Ok in H as (rest & Hrest & H).
    injection H as <-. specialize (IH _ Hrest s). destruct removed; simpl; rewrite IH.
    + split; [tauto|]. intros [[<-|Hin] Hk]; [congruence|tauto].
    + split; [intros [<-|[? ?]]; auto|]. intros [[<-|Hin] Hk]; auto.
Qed.

Lemma shakeProgram_fixed used body :
  shakeProgram used body = Ok body <-> (forall s, In s body -> shakeStatement used s = Ok false).
Proof.
  split.
  - intros H s Hs. apply (shakeProgram_kept _ _ _ H). exact Hs.
  - induction body as [|s body IH]; simpl; intros H; [reflexivity|].
    rewrite (H s (or_introl eq_refl)). simpl. rewrite IH; [reflexivity|]. auto.
Qed.

Lemma shakeProgram_idempotent used body body' :
  shakeProgram used body = Ok body' -> shakeProgram used body' = Ok body'.
Proof.
  intros H. apply shakeProgram_fixed. intros s Hs.
  apply (shakeProgram_kept _ _ _ H) in Hs. tauto.
Qed.

Lemma existsb_map_comp {A B : Type} (f : A -> B) (p : B -> bool) (l : list A) :
  existsb p (List.map f l) = existsb (fun x => p (f x)) l.
Proof. induction l as [|x l IH]; simpl; [reflexivity|]. rewrite IH. reflexivity. Qed.

(** [some] over the values of a counting set is [some] over its
    occurrences *)
Lemma isExportUsed_occurrences g d m x :
  isExportUsed g d m x
  = existsb (fun dep => match dep with
                        | Some m' => existsb (outputUses d x) (output m')
                        | None => false
                        end)
            (List.map (graphGet g) (inverseDependencies m)).
Proof.
  unfold isExportUsed. rewrite !existsb_map_comp. apply existsb_countingValues.
Qed.

(** the records of the graph decide [isExportUsed] *)
Lemma indexOf_skeleton id g : indexOf id (skeleton g) = indexOf id g.
Proof.
  induction g as [|e g IH]; simpl; [reflexivity|]. rewrite IH. reflexivity.
Qed.

Lemma graphGet_skeleton g p :
  graphGet (skeleton g) p
  = match graphGet g p with
    | Some m => Some (set_output (List.map eraseTree (output m)) m)
    | None => None
    end.
Proof.
  unfold graphGet. rewrite indexOf_skeleton. destruct (indexOf p g) as [k|]; [|reflexivity].
  unfold skeleton. rewrite map_lookup. destruct (g !! k) as [e|]; reflexivity.
Qed.

Lemma isExportUsed_skeleton g d m x :
  isExportUsed (skeleton g) d m x = isExportUsed g d m x.
Proof.
  rewrite !isExportUsed_occurrences.
  induction (inverseDependencies m) as [|p ps IH]; simpl; [reflexivity|].
  rewrite IH, graphGet_skeleton. destruct (graphGet g p) as [m'|]; [|reflexivity].
  simpl. rewrite existsb_map_comp. reflexivity.
Qed.

Lemma isExportUsed_inverse g d m m' x :
  inverseDependencies m' = inverseDependencies m ->
  isExportUsed g d m' x = isExportUsed g d m x.
Proof. unfold isExportUsed. intros ->. reflexivity. Qed.

Lemma isExportUsed_frame g g' d m m' :
  skeleton g' = skeleton g -> inverseDependencies m' = inverseDependencies m ->
  forall x, isExportUsed g' d m' x = isExportUsed g d m x.
Proof.
  intros Hs Hi x. rewrite <- (isExportUsed_skeleton g'), Hs, isExportUsed_skeleton.
  apply isExportUsed_inverse. exact Hi.
Qed.

Lemma skeleton_insert g i e e' :
  g !! i = Some e -> skeletonSlot e' = skeletonSlot e -> skeleton (<[i := e']> g) = skeleton g.
Proof.
  intros He Hs. unfold skeleton. rewrite map_insert, Hs. apply list_insert_id.
  rewrite map_lookup, He. reflexivity.
Qed.

Lemma shakeOutputs_erase used os os' :
  Forall2 (fun o o' => shakeOutput used o = Ok o') os os' ->
  List.map eraseTree os' = List.map eraseTree os.
Proof.
  intros H. apply Forall2_map_eq. eapply Forall2_impl; [exact H|].
  intros o o' Ho. unfold shakeOutput in Ho. apply bind_Ok in Ho as (a & _ & Ho).
  injection Ho as <-. reflexivity.
Qed.

Lemma treeShakeExports_Ok i g g' :
  treeShakeExports i g = Ok g' ->
  exists e os,
    g !! i = Some e
    /\ Forall2 (fun o o' => shakeOutput (isExportUsed g (depId e) (value e)) o = Ok o')
               (output (value e)) os
    /\ g' = <[i := set_value (set_output os (value e)) e]> g.
Proof.
  unfold treeShakeExports. destruct (g !! i) as [e|] eqn:He; [|discriminate].
  intros H. apply bind_Ok in H as (os & Hos & H). injection H as <-.
  exists e, os. split; [reflexivity|]. split; [apply mapM_Ok; exact Hos|reflexivity].
Qed.

Lemma treeShakeExports_skeleton i g g' :
  treeShakeExports i g = Ok g' -> skeleton g' = skeleton g.
Proof.
  intros H. apply treeShakeExports_Ok in H as (e & os & He & Hos & ->).
  eapply skeleton_insert; [exact He|]. unfold skeletonSlot; simpl.
  erewrite shakeOutputs_erase; eauto.
Qed.

Lemma shakeOutput_idempotent used o o' :
  shakeOutput used o = Ok o' -> shakeOutput used o' = Ok o'.
Proof.
  unfold shakeOutput. intros H. apply bind_Ok in H as (a & Ha & H). injection H as <-.
  simpl. rewrite (shakeProgram_idempotent _ _ _ Ha). reflexivity.
Qed.

(** the visitors only look at the answers of [used] *)
Lemma shakeDeclarators_ext used used' ds r :
  (forall x, used x = used' x) -> shakeDeclarators used ds r = shakeDeclarators used' ds r.
Proof.
  intros H. revert r. induction ds as [|d ds IH]; intros r; simpl; [reflexivity|].
  destruct (id d); [|apply IH]. rewrite H. destruct (used' name); [apply IH|].
  destruct (markUnused r); simpl; auto.
Qed.

Lemma shakeStatement_ext used used' s :
  (forall x, used x = used' x) -> shakeStatement used s = shakeStatement used' s.
Proof.
  intros H. destruct s as [| |[[ds|x b]|]|]; simpl; try reflexivity.
  - rewrite H. reflexivity.
  - apply shakeDeclarators_ext. exact H.
  - rewrite H. reflexivity.
Qed.

Lemma shakeProgram_ext used used' body :
  (forall x, used x = used' x) -> shakeProgram used body = shakeProgram used' body.
Proof.
  intros H. induction body as [|s body IH]; simpl; [reflexivity|].
  rewrite (shakeStatement_ext _ _ _ H), IH. reflexivity.
Qed.

Lemma shakeOutput_ext used used' o :
  (forall x, used x = used' x) -> shakeOutput used o = shakeOutput used' o.
Proof. intros H. unfold shakeOutput. rewrite (shakeProgram_ext _ _ _ H). reflexivity. Qed.

Lemma mapM_ext {A B : Type} (f h : A -> result B) (l : list A) :
  (forall x, f x = h x) -> mapM f l = mapM h l.
Proof. intros H. induction l as [|x l IH]; simpl; [reflexivity|]. rewrite H, IH. reflexivity. Qed.

Lemma Forall2_right_In {A B : Type} (R : A -> B -> Prop) (l : list A) (l' : list B) :
  Forall2 R l l' -> forall y, In y l' -> exists x, In x l /\ R x y.
Proof.
  induction 1 as [|x y l l' Hxy _ IH]; intros z []; subst.
  - exists x. split; [left; reflexivity|assumption].
  - destruct (IH z) as (x' & Hx' & HR); [assumption|]. exists x'. split; [right|]; assumption.
Qed.

Lemma treeShakeExports_idempotent i g g' :
  treeShakeExports i g = Ok g' -> treeShakeExports i g' = Ok g'.
Proof.
  intros H. pose proof (treeShakeExports_skeleton _ _ _ H) as Hsk.
  apply treeShakeExports_Ok in H as (e & os & He & Hos & ->).
  assert (Hlt : i < length g) by (eapply lookup_lt_Some; eauto).
  unfold treeShakeExports. rewrite list_lookup_insert_eq by exact Hlt. simpl.
  rewrite (mapM_Forall2 _ os os).
  - simpl. rewrite list_insert_insert_eq. reflexivity.
  - apply Forall2_eq_same. intros o' Ho'.
    destruct (Forall2_right_In _ _ _ Hos o' Ho') as (o & _ & Ho).
    apply shakeOutput_idempotent in Ho. rewrite <- Ho. apply shakeOutput_ext.
    apply isExportUsed_frame; [exact Hsk|reflexivity].
Qed.

(** an import visitor that reports no removal leaves everything as it is *)
Lemma filterSpecifiers_nil specs specs' :
  filterSpecifiers [] specs = Ok specs' -> specs' = specs.
Proof.
  revert specs'. induction specs as [|[imp loc|loc|loc] specs IH]; simpl; intros specs' H;
    try discriminate.
  - injection H as <-. reflexivity.
  - apply bind_Ok in H as (rest & Hrest & H). injection H as <-. f_equal. auto.
Qed.

Lemma pruneImports_flag i unused body g body' g' r' :
  pruneImports i unused body g true = Ok (body', g', r') -> r' = true.
Proof.
  revert g body' g'. induction body as [|s body IH]; intros g body' g' H.
  - simpl in H. injection H as <- <- <-. reflexivity.
  - destruct s as [src specs|d|d specs|b].
    2-4: simpl in H; apply bind_Ok in H as ([[rest g1] r1] & Hrest & H);
         injection H as <- <- <-; eapply IH; eauto.
    simpl in H. apply bind_Ok in H as (specs' & Hspecs & H). destruct specs'.
    + apply bind_Ok in H as (g1 & Hg1 & H). eapply IH; eauto.
    + apply bind_Ok in H as ([[rest g1] r1] & Hrest & H). injection H as <- <- <-.
      eapply IH; eauto.
Qed.

Lemma pruneImports_unchanged i body g body' g' :
  pruneImports i [] body g false = Ok (body', g', false) ->
  body' = body /\ g' = g
  /\ forall g2, pruneImports i [] body g2 false = Ok (body, g2, false).
Proof.
  revert body'. induction body as [|s body IH]; intros body' H.
  - simpl in H. injection H as <- <-. auto.
  - destruct s as [src specs|d|d specs|b].
    2-4: simpl in H; apply bind_Ok in H as ([[rest g1] r1] & Hrest & H);
         injection H as <- <- ->; apply IH in Hrest as (-> & -> & Hall);
         split; [reflexivity|]; split; [reflexivity|];
         intros g2; simpl; rewrite Hall; reflexivity.
    simpl in H. apply bind_Ok in H as (specs' & Hspecs & H).
    pose proof (filterSpecifiers_nil _ _ Hspecs) as ->.
    destruct specs as [|sp specs].
    + apply bind_Ok in H as (g1 & Hg1 & H). apply pruneImports_flag in H. discriminate.
    + apply bind_Ok in H as ([[rest g1] r1] & Hrest & H). injection H as <- <- ->.
      apply IH in Hrest as (-> & -> & Hall).
      split; [reflexivity|]. split; [reflexivity|].
      intros g2. simpl. simpl in Hspecs. rewrite Hspecs. simpl. rewrite Hall. reflexivity.
Qed.

Lemma setAst_same i j g body :
  treeOf g i j = Some body -> setAst i j body g = g.
Proof.
  unfold treeOf, setAst, alterModule, alterSlot. destruct (g !! i) as [e|] eqn:He; [|reflexivity].
  destruct (output (value e) !! j) as [o|] eqn:Ho; [|discriminate].
  intros [= <-]. rewrite set_ast_eta, (list_insert_id _ _ _ Ho), set_output_eta, set_value_eta.
  apply list_insert_id. exact He.
Qed.

Lemma removeUnusedImports_false i j g g' :
  removeUnusedImports i j g = Ok (false, g') ->
  g' = g
  /\ forall g2, g2 !! i = g !! i -> removeUnusedImports i j g2 = Ok (false, g2).
Proof.
  intros H. apply removeUnusedImports_Ok in H as (e & o & body' & g1 & He & Ho & Hp & ->).
  assert (Hun : unusedImports (ast (data o)) = []).
  { destruct (unusedImports (ast (data o))) eqn:E; [reflexivity|].
    simpl in Hp. apply pruneImports_flag in Hp. discriminate. }
  rewrite Hun in Hp. simpl in Hp. apply pruneImports_unchanged in Hp as (-> & -> & Hall).
  assert (Htree : forall g2, g2 !! i = g !! i -> treeOf g2 i j = Some (ast (data o))).
  { intros g2 Hg2. unfold treeOf. rewrite Hg2, He, Ho. reflexivity. }
  split; [apply setAst_same; auto|].
  intros g2 Hg2. unfold removeUnusedImports. rewrite Hg2, He, Ho, Hun. simpl.
  rewrite Hall. simpl. rewrite setAst_same; auto.
Qed.

Lemma shakeOutput_fixed used o :
  shakeOutput used o = Ok o
  <-> (forall s, In s (ast (data o)) -> shakeStatement used s = Ok false).
Proof.
  rewrite <- shakeProgram_fixed. unfold shakeOutput. split.
  - intros H. apply bind_Ok in H as (a & Ha & H). injection H as H.
    apply (f_equal (fun x => ast (data x))) in H. simpl in H. congruence.
  - intros ->. simpl. rewrite set_ast_eta. reflexivity.
Qed.

Lemma treeShakeExports_fixed i g :
  treeShakeExports i g = Ok g
  <-> exists e, g !! i = Some e
      /\ forall o, In o (output (value e)) ->
           shakeOutput (isExportUsed g (depId e) (value e)) o = Ok o.
Proof.
  split.
  - intros H. apply treeShakeExports_Ok in H as (e & os & He & Hos & Hg).
    exists e. split; [exact He|].
    assert (Hlt : i < length g) by (eapply lookup_lt_Some; eauto).
    assert (Hi : g !! i = Some (set_value (set_output os (value e)) e)).
    { rewrite Hg at 1. apply list_lookup_insert_eq. exact Hlt. }
    rewrite He in Hi. injection Hi as Hi. apply (f_equal (fun x => output (value x))) in Hi.
    simpl in Hi. rewrite <- Hi in Hos. apply Forall2_eq_same. exact Hos.
  - intros (e & He & Hos). unfold treeShakeExports. rewrite He.
    rewrite (mapM_Forall2 _ _ (output (value e))) by (apply Forall2_eq_same; exact Hos).
    simpl. rewrite set_output_eta, set_value_eta, (list_insert_id _ _ _ He). reflexivity.
Qed.

Lemma treeShakeExports_lookup_ne i g g' k :
  treeShakeExports i g = Ok g' -> k <> i -> g' !! k = g !! k.
Proof.
  intros H Hne. apply treeShakeExports_Ok in H as (e & os & He & Hos & ->).
  apply list_lookup_insert_ne. auto.
Qed.

Lemma treeShakeExports_frame i g g1 k :
  treeShakeExports i g = Ok g1 -> k <> i -> stableAt g k -> stableAt g1 k.
Proof.
  intros H Hne Hst e He Hp.
  pose proof (treeShakeExports_lookup_ne _ _ _ _ H Hne) as Hk.
  rewrite Hk in He. destruct (Hst e He Hp) as [Hex Him]. split.
  - apply treeShakeExports_fixed. apply treeShakeExports_fixed in Hex as (e' & He' & Hos).
    exists e'. split; [congruence|]. intros o Ho. rewrite <- (Hos o Ho). apply shakeOutput_ext.
    apply isExportUsed_frame; [|reflexivity]. eapply treeShakeExports_skeleton; eauto.
  - intros j Hj. specialize (Him j Hj). apply removeUnusedImports_false in Him as [_ Hall].
    apply Hall. exact Hk.
Qed.

Lemma treeShakeExports_outputs i g g1 e e1 :
  treeShakeExports i g = Ok g1 -> g !! i = Some e -> g1 !! i = Some e1 ->
  length (output (value e1)) = length (output (value e)) /\ present e1 = present e.
Proof.
  intros H He He1. apply treeShakeExports_Ok in H as (e' & os & He' & Hos & ->).
  rewrite He in He'. injection He' as <-.
  rewrite list_lookup_insert_eq in He1 by (eapply lookup_lt_Some; eauto).
  injection He1 as <-. simpl. split; [|reflexivity].
  symmetry. eapply Forall2_length; eauto.
Qed.

Section StableLoops.
Variable rerun : graph -> result graph.
Hypothesis rerun_stable : forall g g', rerun g = Ok g' -> stable g'.

Lemma forOutputs_stable i g1 js done g g' :
  (stable g \/ (g = g1 /\ forall j, In j done -> removeUnusedImports i j g1 = Ok (false, g1))) ->
  forOutputs rerun i js g = Ok g' ->
  stable g'
  \/ (g' = g1 /\ forall j, In j (done ++ js) -> removeUnusedImports i j g1 = Ok (false, g1)).
Proof.
  revert done g. induction js as [|j js IH]; intros done g HJ H; simpl in H.
  - injection H as <-. rewrite app_nil_r. exact HJ.
  - apply bind_Ok in H as ([removed g2] & Hr & H). apply bind_Ok in H as (g3 & Hg3 & H).
    destruct removed.
    + apply rerun_stable in Hg3.
      destruct (IH (done ++ [j]) g3 (or_introl Hg3) H) as [Hs|[-> Hall]]; [left; exact Hs|].
      right. split; [reflexivity|]. intros j' Hj'. apply Hall. rewrite <- app_assoc. exact Hj'.
    + injection Hg3 as <-. pose proof (removeUnusedImports_false _ _ _ _ Hr) as [-> _].
      assert (HJ' : stable g \/ (g = g1 /\ forall j', In j' (done ++ [j]) ->
                                   removeUnusedImports i j' g1 = Ok (false, g1))).
      { destruct HJ as [Hs|[-> Hall]]; [left; exact Hs|]. right. split; [reflexivity|].
        intros j' Hj'. apply in_app_iff in Hj' as [Hj'|[<-|[]]]; auto. }
      destruct (IH _ _ HJ' H) as [Hs|[-> Hall]]; [left; exact Hs|].
      right. split; [reflexivity|]. intros j' Hj'. apply Hall. rewrite <- app_assoc. exact Hj'.
Qed.

Lemma forModules_stable idxs g g' :
  NoDup idxs ->
  (forall k, ~ In k idxs -> stableAt g k) ->
  forModules rerun idxs g = Ok g' -> stable g'.
Proof.
  revert g. induction idxs as [|i idxs IH]; intros g Hnd Hdone H; simpl in H.
  - injection H as <-. intros k. apply Hdone. auto.
  - inversion Hnd as [|? ? Hni Hnd']; subst.
    assert (Hskip : forall e, g !! i = Some e -> present e = false ->
                    forall k, ~ In k idxs -> stableAt g k).
    { intros e He Hp k Hk. destruct (Nat.eq_dec k i) as [->|Hne].
      - intros e' He' Hp'. congruence.
      - apply Hdone. intros [<-|Hin]; auto. }
    destruct (g !! i) as [e|] eqn:He.
    2:{ apply (IH g Hnd'); [|exact H]. intros k Hk. destruct (Nat.eq_dec k i) as [->|Hne].
        - intros e' He'. congruence.
        - apply Hdone. intros [<-|Hin]; auto. }
    destruct (present e) eqn:Hp; [|apply (IH g Hnd'); eauto].
    apply bind_Ok in H as (g1 & Hg1 & H). apply bind_Ok in H as (g2 & Hg2 & H).
    apply (IH g2 Hnd'); [|exact H].
    destruct (forOutputs_stable i g1 _ [] g1 g2 (or_intror (conj eq_refl (fun j (F : In j []) => match F with end))) Hg2)
      as [Hs|[-> Hall]]; [intros k _; apply Hs|].
    intros k Hk. destruct (Nat.eq_dec k i) as [->|Hne].
    + intros e1 He1 Hp1. split; [eapply treeShakeExports_idempotent; eauto|].
      intros j Hj. apply Hall. simpl. apply in_seq.
      destruct (treeShakeExports_outputs _ _ _ _ _ Hg1 He He1) as [Hlen _]. lia.
    + eapply treeShakeExports_frame; eauto. apply Hdone. intros [<-|Hin]; auto.
Qed.
End StableLoops.

(** When the pass completes, neither pass has anything left to do at any
    live module. *)
Lemma treeShakeAll_stable n g g' : treeShakeAll n g = Ok g' -> stable g'.
Proof.
  revert g g'. induction n as [|n IH]; intros g g' H; [discriminate|].
  simpl in H. apply bind_Ok in H as (g1 & Hg1 & H).
  eapply (forModules_stable (treeShakeAll n) IH); [|
    |exact H].
  - apply NoDup_seq.
  - intros k Hk e He. exfalso. apply Hk. apply in_seq. apply lookup_lt_Some in He. lia.
Qed.

Lemma In_lookup {A : Type} (l : list A) (x : A) : In x l <-> exists i, l !! i = Some x.
Proof. rewrite <- list_elem_of_In. apply list_elem_of_lookup. Qed.

Lemma In_insert {A : Type} (l : list A) (i : nat) (x y : A) :
  In x (<[i := y]> l) -> x = y \/ In x l.
Proof.
  revert i. induction l as [|z l IH]; intros [|i]; simpl; auto.
  - intros [<-|H]; auto.
  - intros [<-|H]; auto. destruct (IH _ H); auto.
Qed.

(** the uses recorded by [outputUses] *)
Lemma outputUses_recordUses d x o :
  outputUses d x o = String.eqb (type o) "js/module" && recordUses o d x.
Proof. unfold outputUses, recordUses. destruct (String.eqb _ _); reflexivity. Qed.

(** shrinking is a preorder *)
Lemma outputShrinks_refl o : outputShrinks o o.
Proof. split; auto. Qed.

Lemma Forall2_refl {A : Type} (R : A -> A -> Prop) (l : list A) :
  (forall x, R x x) -> Forall2 R l l.
Proof. intros H. induction l; constructor; auto. Qed.

Lemma slotShrinks_refl e : slotShrinks e e.
Proof.
  split; [reflexivity|]. split; [auto|]. split; [apply incl_refl|].
  apply Forall2_refl. apply outputShrinks_refl.
Qed.

Lemma shrinks_refl g : shrinks g g.
Proof. apply Forall2_refl. apply slotShrinks_refl. Qed.

Lemma outputShrinks_trans o1 o2 o3 :
  outputShrinks o1 o2 -> outputShrinks o2 o3 -> outputShrinks o1 o3.
Proof. intros [Ht1 Hu1] [Ht2 Hu2]. split; [congruence|auto]. Qed.

Lemma slotShrinks_trans e1 e2 e3 :
  slotShrinks e1 e2 -> slotShrinks e2 e3 -> slotShrinks e1 e3.
Proof.
  intros (Hk1 & Hp1 & Hi1 & Ho1) (Hk2 & Hp2 & Hi2 & Ho2).
  split; [congruence|]. split; [auto|]. split; [eapply incl_tran; eauto|].
  eapply Forall2_trans; [|exact Ho1|exact Ho2]. intros ? ? ?. apply outputShrinks_trans.
Qed.

Lemma shrinks_trans g1 g2 g3 : shrinks g1 g2 -> shrinks g2 g3 -> shrinks g1 g3.
Proof.
  intros H1 H2. eapply Forall2_trans; [|exact H1|exact H2].
  intros ? ? ?. apply slotShrinks_trans.
Qed.

Lemma shrinks_insert g i e e' :
  g !! i = Some e -> slotShrinks e e' -> shrinks g (<[i := e']> g).
Proof.
  intros He Hs. rewrite <- (list_insert_id g i e He) at 1.
  apply Forall2_insert; [apply shrinks_refl|exact Hs].
Qed.

(** [graph.dependencies.get] on a graph with distinct keys *)
Lemma indexOf_Some id g k :
  indexOf id g = Some k ->
  exists e, g !! k = Some e /\ present e = true /\ depId e = id.
Proof.
  revert k. induction g as [|e g IH]; simpl; intros k H; [discriminate|].
  destruct (present e && String.eqb (depId e) id) eqn:E.
  - injection H as <-. apply andb_true_iff in E as [Hp Hk]. apply String.eqb_eq in Hk.
    exists e. auto.
  - destruct (indexOf id g) as [n|]; [|discriminate]. injection H as <-.
    destruct (IH n eq_refl) as (e' & He' & Hp & Hk). exists e'. auto.
Qed.

Lemma indexOf_unique id g k e :
  NoDup (List.map depId g) -> g !! k = Some e -> present e = true -> depId e = id ->
  indexOf id g = Some k.
Proof.
  revert k. induction g as [|e0 g IH]; intros k Hnd Hk Hp Hid; [discriminate|].
  simpl in Hnd. inversion Hnd as [|? ? Hni Hnd']; subst. simpl.
  destruct k as [|k]; simpl in Hk.
  - injection Hk as ->. rewrite Hp, String.eqb_refl. reflexivity.
  - destruct (present e0 && String.eqb (depId e0) (depId e)) eqn:E.
    + exfalso. apply andb_true_iff in E as [_ E]. apply String.eqb_eq in E.
      apply Hni. rewrite E. apply list_elem_of_In, in_map, In_lookup. eauto.
    + rewrite (IH k Hnd' Hk Hp eq_refl). reflexivity.
Qed.

Lemma graphGet_Some g p m :
  graphGet g p = Some m ->
  exists k e, g !! k = Some e /\ present e = true /\ depId e = p /\ value e = m.
Proof.
  unfold graphGet. destruct (indexOf p g) as [k|] eqn:Hk; [|discriminate].
  destruct (indexOf_Some _ _ _ Hk) as (e & He & Hp & Hid). rewrite He. intros [= <-].
  exists k, e. auto.
Qed.

Lemma Forall2_exists_l {A B : Type} (R : A -> B -> Prop) (p : B -> bool) (q : A -> bool)
    (l : list A) (l' : list B) :
  Forall2 R l l' -> (forall x y, R x y -> p y = true -> q x = true) ->
  existsb p l' = true -> existsb q l = true.
Proof.
  intros H Hpq. induction H as [|x y l l' Hxy _ IH]; simpl; [auto|].
  rewrite !orb_true_iff. intros [Hy|Hl]; [left; eauto|right; auto].
Qed.

Lemma isExportUsed_shrinks g g' i e e' x :
  shrinks g g' -> NoDup (List.map depId g) ->
  g !! i = Some e -> g' !! i = Some e' ->
  isExportUsed g' (depId e') (value e') x = true ->
  isExportUsed g (depId e) (value e) x = true.
Proof.
  intros Hs Hnd He He' Hu.
  pose proof (Forall2_lookup_lr _ _ _ _ _ _ Hs He He') as (Hk & _ & Hinv & _).
  rewrite isExportUsed_occurrences in *. rewrite existsb_map_comp in *.
  apply existsb_exists in Hu as (p & Hp & Hu). apply existsb_exists.
  exists p. split; [apply Hinv; exact Hp|].
  destruct (graphGet g' p) as [m'|] eqn:Hm'; [|discriminate].
  apply graphGet_Some in Hm' as (k & ek' & Hek' & Hpk' & Hidk' & <-).
  destruct (Forall2_lookup_r _ _ _ _ _ Hs Hek') as (ek & Hek & Hsk).
  destruct Hsk as (Hidk & Hpk & _ & Hout).
  unfold graphGet. rewrite (indexOf_unique p g k ek Hnd Hek (Hpk Hpk')) by congruence.
  rewrite Hek. revert Hu. apply (Forall2_exists_l _ _ _ _ _ Hout).
  intros o o' [Ht Hrec]. rewrite !outputUses_recordUses, Ht, Hk, !andb_true_iff.
  intros [? ?]. auto.
Qed.

(** the executable check of well-formedness *)
Lemma distinct_NoDup l : distinct l = true -> NoDup l.
Proof.
  induction l as [|x l IH]; simpl; intros H; [constructor|].
  apply andb_true_iff in H as [Hx Hl]. constructor; [|auto].
  intros Hin. apply list_elem_of_In, includes_In in Hin.
  rewrite Hin in Hx. discriminate.
Qed.

Lemma wellFormedb_wellFormed g : wellFormedb g = true -> wellFormed g.
Proof.
  unfold wellFormedb, wellFormed. intros H. apply andb_true_iff in H as [Hk Hn].
  split; [apply distinct_NoDup; exact Hk|].
  intros e He. apply distinct_NoDup. rewrite forallb_forall in Hn. apply Hn. exact He.
Qed.

(** keeping the invariants when one slot is updated *)
Lemma wellFormed_insert g i e e' :
  wellFormed g -> g !! i = Some e -> depId e' = depId e -> uniqueNames (value e') ->
  wellFormed (<[i := e']> g).
Proof.
  intros [Hk Hn] He Hid Hu. split.
  - rewrite map_insert, Hid. rewrite list_insert_id; [exact Hk|].
    rewrite map_lookup, He. reflexivity.
  - intros e0 H0. apply In_insert in H0 as [->|H0]; auto.
Qed.

Lemma covered_insert g i e e' :
  covered g -> g !! i = Some e ->
  (present e' = true ->
   forall o s d x, In o (output (value e')) -> In s (ast (data o)) ->
     statementUses (value e') s d x = true -> recordUses o d x = true) ->
  covered (<[i := e']> g).
Proof.
  intros Hc He Hnew e0 o s d x H0 Hp Ho Hs Hu.
  apply In_insert in H0 as [->|H0]; [eapply Hnew; eauto|eapply Hc; eauto].
Qed.

(** what [collectStatement] reads of the module *)
Lemma getGraphId_module m m' v :
  dependencies m' = dependencies m -> path m' = path m -> getGraphId m' v = getGraphId m v.
Proof. unfold getGraphId. intros -> ->. reflexivity. Qed.

Lemma collectStatement_module m m' s :
  dependencies m' = dependencies m -> path m' = path m ->
  collectStatement m' s = collectStatement m s.
Proof.
  intros Hd Hp.
  assert (Hreq : forall e, requireVisitor m' e = requireVisitor m e).
  { intros e. destruct e as [| | |c [|[] ?]|]; simpl; try reflexivity.
    rewrite (getGraphId_module _ _ _ Hd Hp). reflexivity. }
  destruct s; simpl; try (rewrite (mapM_ext _ _ _ Hreq); reflexivity).
  rewrite (getGraphId_module _ _ _ Hd Hp). reflexivity.
Qed.

Lemma statementUses_module m m' s d x :
  dependencies m' = dependencies m -> path m' = path m ->
  statementUses m' s d x = statementUses m s d x.
Proof. intros Hd Hp. unfold statementUses. rewrite (collectStatement_module _ _ _ Hd Hp). reflexivity. Qed.

Lemma existsb_concat {A : Type} (p : A -> bool) (ls : list (list A)) :
  existsb p (concat ls) = existsb (existsb p) ls.
Proof.
  induction ls as [|l ls IH]; simpl; [reflexivity|]. rewrite existsb_app, IH. reflexivity.
Qed.

Lemma collectProgram_uses m body items d x :
  collectProgram m body = Ok items ->
  existsb (importItemUses d x) items = true
  <-> exists s, In s body /\ statementUses m s d x = true.
Proof.
  unfold collectProgram. intros H. apply bind_Ok in H as (rs & Hrs & H). injection H as <-.
  apply mapM_Ok in Hrs. rewrite existsb_concat.
  induction Hrs as [|s r body rs Hs _ IH]; simpl.
  - split; [discriminate|intros (s & [] & _)].
  - rewrite orb_true_iff, IH. unfold statementUses at 2. split.
    + intros [H|(s' & Hs' & Hu)].
      * exists s. split; [left; reflexivity|]. unfold statementUses. rewrite Hs. exact H.
      * exists s'. split; [right; exact Hs'|exact Hu].
    + intros (s' & [<-|Hs'] & Hu).
      * left. unfold statementUses in Hu. rewrite Hs in Hu. exact Hu.
      * right. exists s'. auto.
Qed.

Lemma collectSlot_Ok e e' :
  collectSlot e = Ok e' ->
  sameGraphShape e e'
  /\ Forall2 (fun o o' =>
                type o' = type o /\ ast (data o') = ast (data o)
                /\ if present e
                   then forall d x, recordUses o' d x = true
                          <-> exists s, In s (ast (data o)) /\ statementUses (value e) s d x = true
                   else o' = o)
             (output (value e)) (output (value e')).
Proof.
  unfold collectSlot. destruct (present e) eqn:Hp.
  - intros H. apply bind_Ok in H as (m & Hm & H). injection H as <-.
    unfold collectImportExports in Hm. apply bind_Ok in Hm as (os & Hos & Hm).
    injection Hm as <-. simpl. split; [repeat split; auto|].
    apply mapM_Ok in Hos. eapply Forall2_impl; [exact Hos|].
    intros o o' Ho. unfold collectOutput in Ho. apply bind_Ok in Ho as (imps & Himps & Ho).
    injection Ho as <-. simpl. split; [reflexivity|]. split; [reflexivity|].
    intros d x. unfold recordUses; simpl. eapply collectProgram_uses; eauto.
  - intros [= <-]. split; [repeat split; auto|]. apply Forall2_refl. auto.
Qed.

Lemma Forall2_with_In_gen {A B : Type} (R : A -> B -> Prop) (l0 l : list A) (l' : list B) :
  (forall x, In x l -> In x l0) ->
  Forall2 R l l' -> Forall2 (fun x y => R x y /\ In x l0) l l'.
Proof.
  intros Hall H. induction H as [|x y l l' Hxy _ IH]; constructor.
  - split; [exact Hxy|]. apply Hall. left. reflexivity.
  - apply IH. intros z Hz. apply Hall. right. exact Hz.
Qed.

Lemma Forall2_with_In {A B : Type} (R : A -> B -> Prop) (l : list A) (l' : list B) :
  Forall2 R l l' -> Forall2 (fun x y => R x y /\ In x l) l l'.
Proof. apply Forall2_with_In_gen. auto. Qed.

Lemma collectAll_invariant g g1 :
  wellFormed g -> collectAll g = Ok g1 ->
  wellFormed g1 /\ covered g1 /\ graphTrees g1 = graphTrees g
  /\ (covered g -> shrinks g g1).
Proof.
  intros [Hk Hn] H. pose proof (collectAll_trees _ _ H) as Ht.
  apply mapM_Ok in H.
  assert (H' : Forall2 (fun e e' => collectSlot e = Ok e' /\ In e g) g g1)
    by (apply Forall2_with_In; exact H).
  clear H. split; [split|split; [|split; [exact Ht|]]].
  - erewrite Forall2_map_eq; [exact Hk|]. eapply Forall2_impl; [exact H'|].
    intros e e' [He _]. apply collectSlot_Ok in He as [(Hid & _) _]. exact Hid.
  - intros e' He'. destruct (Forall2_right_In _ _ _ H' _ He') as (e & He & Hc & _).
    apply collectSlot_Ok in Hc as [(_ & _ & _ & Hd & _) _].
    unfold uniqueNames, dependencyNames. rewrite Hd. apply Hn. exact He.
  - intros e' o' s d x He' Hp Ho' Hs Hu.
    destruct (Forall2_right_In _ _ _ H' _ He') as (e & He & Hc & _).
    apply collectSlot_Ok in Hc as [(_ & Hpe & Hpath & Hd & _) Hos].
    destruct (Forall2_right_In _ _ _ Hos _ Ho') as (o & Ho & _ & Hast & Hrec).
    rewrite <- Hpe, Hp in Hrec. apply Hrec. exists s. rewrite <- Hast. split; [exact Hs|].
    rewrite <- (statementUses_module _ _ _ _ _ Hd Hpath). exact Hu.
  - intros Hcov. eapply Forall2_impl; [exact H'|]. intros e e' [Hc He].
    apply collectSlot_Ok in Hc as [(Hid & Hpe & _ & _ & Hinv) Hos].
    split; [exact Hid|]. split; [congruence|]. split; [rewrite Hinv; apply incl_refl|].
    apply Forall2_with_In in Hos as Hos'.
    eapply Forall2_impl; [exact Hos'|]. intros o o' [(Hty & Hast & Hrec) Ho].
    split; [exact Hty|]. intros d x Hu. destruct (present e) eqn:Hp.
    + apply Hrec in Hu as (s & Hs & Hu). eapply Hcov; eauto.
    + subst o'. exact Hu.
Qed.

(** what the export visitors test *)
Lemma shakeDeclarators_removed used ds r' :
  shakeDeclarators used ds true = Ok r' -> r' = true.
Proof.
  induction ds as [|d ds IH]; simpl; [intros [= <-]; reflexivity|].
  destruct (id d); [|exact IH]. destruct (used name); [exact IH|discriminate].
Qed.

Lemma shakeDeclarators_kept used ds :
  shakeDeclarators used ds false = Ok false
  <-> forall x, In x (identifierNames ds) -> used x = true.
Proof.
  induction ds as [|d ds IH]; simpl.
  - split; [intros _ x []|reflexivity].
  - unfold identifierNames in *. simpl. destruct (id d) as [x0 b0|p]; simpl.
    + destruct (used x0) eqn:Hx0.
      * rewrite IH. split; [intros H x [<-|Hx]; auto|intros H x Hx; auto].
      * split.
        -- intros H. apply shakeDeclarators_removed in H. discriminate.
        -- intros H. specialize (H x0 (or_introl eq_refl)). congruence.
    + exact IH.
Qed.

Lemma shakeStatement_declared used s :
  shakeStatement used s = Ok false
  <-> forall x, In x (declaredNames s) -> used x = true.
Proof.
  destruct s as [| |[[ds|x0 b]|]|]; simpl.
  - split; [intros _ x []|reflexivity].
  - destruct (used "default") eqn:Hd.
    + split; [intros _ x [<-|[]]; exact Hd|reflexivity].
    + split; [discriminate|]. intros H. specialize (H "default" (or_introl eq_refl)). congruence.
  - apply shakeDeclarators_kept.
  - destruct (used x0) eqn:Hd.
    + split; [intros _ x [<-|[]]; exact Hd|reflexivity].
    + split; [discriminate|]. intros H. specialize (H x0 (or_introl eq_refl)). congruence.
  - split; [intros _ x []|reflexivity].
  - split; [intros _ x []|reflexivity].
Qed.

Lemma exportedName_declared s E : exportedName s = Some E -> declaredNames s = [E].
Proof.
  destruct s as [| |[[[|d [|d' ds]]|x b body]|] specs|]; simpl; try discriminate.
  - intros [= <-]. reflexivity.
  - unfold identifierNames. simpl. destruct (id d); [|discriminate].
    intros [= <-]. reflexivity.
  - intros [= <-]. reflexivity.
Qed.

Lemma shakeStatement_exported used s E :
  exportedName s = Some E ->
  shakeStatement used s = Ok false <-> used E = true.
Proof.
  intros HE. apply exportedName_declared in HE. rewrite shakeStatement_declared, HE.
  split; [intros H; apply H; left; reflexivity|intros H x [<-|[]]; exact H].
Qed.

Lemma treeShakeExports_invariant i g g' :
  wellFormed g -> covered g -> treeShakeExports i g = Ok g' ->
  wellFormed g' /\ covered g' /\ shrinks g g' /\ keeps g g'.
Proof.
  intros Hwf Hcov H. pose proof (treeShakeExports_skeleton _ _ _ H) as Hsk.
  apply treeShakeExports_Ok in H as (e & os & He & Hos & ->).
  assert (Hin : In e g) by (apply In_lookup; eauto).
  assert (Hlt : i < length g) by (eapply lookup_lt_Some; eauto).
  split; [|split; [|split]].
  - eapply wellFormed_insert; eauto. exact (proj2 Hwf e Hin).
  - eapply covered_insert; eauto. simpl. intros Hp o' s d x Ho' Hs Hu.
    destruct (Forall2_right_In _ _ _ Hos _ Ho') as (o & Ho & Hshake).
    unfold shakeOutput in Hshake. apply bind_Ok in Hshake as (a & Ha & Hshake).
    injection Hshake as <-. simpl in *.
    apply (shakeProgram_kept _ _ _ Ha) in Hs as [Hs _].
    apply (Hcov e o s d x Hin Hp Ho Hs). exact Hu.
  - eapply shrinks_insert; eauto. split; [reflexivity|]. split; [auto|].
    split; [apply incl_refl|]. simpl. eapply Forall2_impl; [exact Hos|].
    intros o o' Ho. unfold shakeOutput in Ho. apply bind_Ok in Ho as (a & _ & Ho).
    injection Ho as <-. split; auto.
  - intros i0 j body s E e' Htree Hs HE He' Hused.
    destruct (Nat.eq_dec i0 i) as [->|Hne].
    + rewrite list_lookup_insert_eq in He' by exact Hlt. injection He' as <-.
      unfold treeOf in *. rewrite list_lookup_insert_eq by exact Hlt. rewrite He in Htree.
      simpl in *. destruct (output (value e) !! j) as [o|] eqn:Ho; [|discriminate].
      injection Htree as <-.
      destruct (Forall2_lookup_l _ _ _ _ _ Hos Ho) as (o' & Ho' & Hshake).
      rewrite Ho'. unfold shakeOutput in Hshake. apply bind_Ok in Hshake as (a & Ha & Hshake).
      injection Hshake as <-. simpl. exists a. split; [reflexivity|].
      apply (shakeProgram_kept _ _ _ Ha). split; [exact Hs|].
      apply (shakeStatement_exported _ _ _ HE). rewrite <- Hused. symmetry.
      apply isExportUsed_frame; [exact Hsk|reflexivity].
    + exists body. split; [|exact Hs]. unfold treeOf in *.
      rewrite list_lookup_insert_ne by auto. exact Htree.
Qed.

(** dropping a dependency of a module with distinct dependency names *)
Lemma NoDup_map_filter {A B : Type} (f : A -> B) (p : A -> bool) (l : list A) :
  NoDup (List.map f l) -> NoDup (List.map f (List.filter p l)).
Proof.
  induction l as [|a l IH]; simpl; intros H; [exact H|].
  inversion H as [|? ? Hni Hnd]; subst. destruct (p a); simpl; [|auto].
  constructor; [|auto]. intros Hin. apply Hni.
  apply list_elem_of_In in Hin. apply list_elem_of_In.
  apply in_map_iff in Hin as (b & Hb & Hin). apply filter_In in Hin as [Hin _].
  apply in_map_iff. eauto.
Qed.

Lemma find_filter_unique {A : Type} (name : A -> string) (p : A -> bool) (v : string)
    (l : list A) (d : A) :
  NoDup (List.map name l) ->
  List.find (fun a => String.eqb (name a) v) (List.filter p l) = Some d ->
  List.find (fun a => String.eqb (name a) v) l = Some d.
Proof.
  induction l as [|a l IH]; simpl; intros Hnd H; [discriminate|].
  inversion Hnd as [|? ? Hni Hnd']; subst.
  destruct (String.eqb (name a) v) eqn:Ha.
  - destruct (p a); simpl in H.
    + rewrite Ha in H. exact H.
    + exfalso. apply Hni. apply String.eqb_eq in Ha. rewrite Ha.
      apply find_some in H as [Hin Hd]. apply String.eqb_eq in Hd. rewrite <- Hd.
      apply list_elem_of_In, in_map. apply filter_In in Hin. tauto.
  - destruct (p a); simpl in H; [rewrite Ha in H|]; auto.
Qed.

Lemma find_map {A B : Type} (f : A -> B) (p : B -> bool) (l : list A) :
  List.find p (List.map f l)
  = match List.find (fun a => p (f a)) l with Some a => Some (f a) | None => None end.
Proof. induction l as [|a l IH]; simpl; [reflexivity|]. destruct (p (f a)); auto. Qed.

Lemma getGraphId_mapDelete m k v p :
  uniqueNames m ->
  getGraphId (set_dependencies (mapDelete k (dependencies m)) m) v = Ok p ->
  getGraphId m v = Ok p.
Proof.
  unfold uniqueNames, dependencyNames, getGraphId, mapDelete. simpl. intros Hnd.
  rewrite !find_map.
  destruct (List.find _ (List.filter _ _)) as [d|] eqn:Hd; [|discriminate].
  rewrite (find_filter_unique (fun kd => data_name (snd kd)) _ v _ d Hnd Hd). auto.
Qed.

Lemma requireVisitor_mapDelete m k e r :
  uniqueNames m ->
  requireVisitor (set_dependencies (mapDelete k (dependencies m)) m) e = Ok r ->
  requireVisitor m e = Ok r.
Proof.
  intros Hnd. destruct e as [| | |c [|[] ?]|]; simpl; auto.
  destruct (hasName c "require"); [|auto].
  intros H. apply bind_Ok in H as (p & Hp & H). rewrite (getGraphId_mapDelete _ _ _ _ Hnd Hp).
  exact H.
Qed.

Lemma mapM_mono {A B : Type} (f h : A -> result B) (l : list A) (l' : list B) :
  (forall x y, f x = Ok y -> h x = Ok y) -> mapM f l = Ok l' -> mapM h l = Ok l'.
Proof.
  intros Hfh H. apply mapM_Forall2. apply mapM_Ok in H.
  eapply Forall2_impl; [exact H|]. auto.
Qed.

Lemma collectStatement_mapDelete m k s items :
  uniqueNames m ->
  collectStatement (set_dependencies (mapDelete k (dependencies m)) m) s = Ok items ->
  collectStatement m s = Ok items.
Proof.
  intros Hnd. destruct s as [src specs|d|d specs|b]; simpl; intros H.
  - apply bind_Ok in H as (p & Hp & H). rewrite (getGraphId_mapDelete _ _ _ _ Hnd Hp). exact H.
  - apply bind_Ok in H as (rs & Hrs & H).
    rewrite (mapM_mono _ _ _ _ (fun e r => requireVisitor_mapDelete m k e r Hnd) Hrs). exact H.
  - apply bind_Ok in H as (rs & Hrs & H).
    rewrite (mapM_mono _ _ _ _ (fun e r => requireVisitor_mapDelete m k e r Hnd) Hrs). exact H.
  - apply bind_Ok in H as (rs & Hrs & H).
    rewrite (mapM_mono _ _ _ _ (fun e r => requireVisitor_mapDelete m k e r Hnd) Hrs). exact H.
Qed.

Lemma statementUses_mapDelete m k s d x :
  uniqueNames m ->
  statementUses (set_dependencies (mapDelete k (dependencies m)) m) s d x = true ->
  statementUses m s d x = true.
Proof.
  intros Hnd. unfold statementUses.
  destruct (collectStatement (set_dependencies _ m) s) as [items| |] eqn:H; try discriminate.
  rewrite (collectStatement_mapDelete _ _ _ _ Hnd H). auto.
Qed.

Lemma graphOutputs_insert g k e e' :
  g !! k = Some e -> output (value e') = output (value e) ->
  graphOutputs (<[k := e']> g) = graphOutputs g.
Proof.
  intros Hk He. unfold graphOutputs. rewrite map_insert, He.
  apply list_insert_id. rewrite map_lookup, Hk. reflexivity.
Qed.

Lemma graphOutputs_lookup g i :
  graphOutputs g !! i = match g !! i with Some e => Some (output (value e)) | None => None end.
Proof. unfold graphOutputs. apply map_lookup. Qed.

Lemma graphOutputs_trees g g' : graphOutputs g' = graphOutputs g -> graphTrees g' = graphTrees g.
Proof.
  intros H. unfold graphTrees, moduleTrees.
  rewrite <- !(List.map_map (fun e => output (value e)) (List.map (fun o => ast (data o)))).
  unfold graphOutputs in H. rewrite H. reflexivity.
Qed.

Lemma unlink_invariant i src g g' :
  wellFormed g -> covered g -> unlink i src g = Ok g' ->
  wellFormed g' /\ covered g' /\ shrinks g g' /\ graphOutputs g' = graphOutputs g.
Proof.
  intros Hwf Hcov H.
  apply unlink_Ok in H as (e & depKey & d0 & dep & k & graphDep & He & _ & _ & _ & Hk & ->).
  set (inv := countingDelete (path (value e)) (inverseDependencies (value graphDep))).
  set (graphDep' := match inv with
                    | [] => set_absent (set_value (set_inverseDependencies inv (value graphDep)) graphDep)
                    | _ :: _ => set_value (set_inverseDependencies inv (value graphDep)) graphDep
                    end).
  assert (Hshape : depId graphDep' = depId graphDep
                   /\ (present graphDep' = true -> present graphDep = true)
                   /\ dependencies (value graphDep') = dependencies (value graphDep)
                   /\ path (value graphDep') = path (value graphDep)
                   /\ output (value graphDep') = output (value graphDep)
                   /\ inverseDependencies (value graphDep') = inv).
  { unfold graphDep'. destruct inv; simpl; repeat split; auto; discriminate. }
  destruct Hshape as (Hid & Hpres & Hdeps & Hpath & Hout & Hinv).
  assert (Hink : In graphDep g) by (apply In_lookup; eauto).
  set (g1 := <[k := graphDep']> g).
  assert (Hwf1 : wellFormed g1).
  { eapply wellFormed_insert; eauto. unfold uniqueNames, dependencyNames.
    rewrite Hdeps. apply (proj2 Hwf). exact Hink. }
  assert (Hcov1 : covered g1).
  { eapply covered_insert; eauto. intros Hp o s d x Ho Hs Hu. rewrite Hout in Ho.
    rewrite (statementUses_module _ _ _ _ _ Hdeps Hpath) in Hu.
    eapply Hcov; eauto. }
  assert (Hshr1 : shrinks g g1).
  { eapply shrinks_insert; eauto. split; [exact Hid|]. split; [exact Hpres|]. split.
    - rewrite Hinv. unfold inv. apply countingDelete_incl.
    - rewrite Hout. apply Forall2_refl. apply outputShrinks_refl. }
  assert (Hout1 : graphOutputs g1 = graphOutputs g) by (eapply graphOutputs_insert; eauto).
  assert (Hlt : i < length g1).
  { unfold g1. rewrite length_insert. eapply lookup_lt_Some; eauto. }
  destruct (lookup_lt_is_Some_2 g1 i Hlt) as [e1 He1].
  unfold alterModule, alterSlot. fold graphDep'. fold g1. rewrite He1.
  assert (Hin1 : In e1 g1) by (apply In_lookup; eauto).
  split; [|split; [|split]].
  - eapply wellFormed_insert; eauto. unfold uniqueNames, dependencyNames, mapDelete. simpl.
    apply NoDup_map_filter. apply (proj2 Hwf1). exact Hin1.
  - eapply covered_insert; eauto. simpl. intros Hp o s d x Ho Hs Hu.
    apply statementUses_mapDelete in Hu; [|apply (proj2 Hwf1); exact Hin1].
    eapply Hcov1; eauto.
  - eapply shrinks_trans; [exact Hshr1|]. eapply shrinks_insert; eauto.
    split; [reflexivity|]. split; [auto|]. split; [apply incl_refl|].
    apply Forall2_refl. apply outputShrinks_refl.
  - rewrite <- Hout1. eapply graphOutputs_insert; eauto.
Qed.

Lemma filterSpecifiers_incl unused specs specs' :
  filterSpecifiers unused specs = Ok specs' -> incl specs' specs.
Proof.
  revert specs'. induction specs as [|[imp loc|loc|loc] specs IH]; simpl; intros specs' H;
    try discriminate.
  - injection H as <-. apply incl_refl.
  - apply bind_Ok in H as (rest & Hrest & H). injection H as <-. specialize (IH _ Hrest).
    destruct (includes unused imp).
    + apply incl_tl. exact IH.
    + apply incl_cons; [left; reflexivity|]. apply incl_tl. exact IH.
Qed.

Lemma subBody_cons_same s body' body : subBody body' body -> subBody (s :: body') (s :: body).
Proof.
  intros H s' [<-|Hs']; [left; left; reflexivity|].
  destruct (H s' Hs') as [Hin|(src & specs & specs' & -> & Hin & Hincl)].
  - left. right. exact Hin.
  - right. exists src, specs, specs'. split; [reflexivity|]. split; [right; exact Hin|exact Hincl].
Qed.

Lemma subBody_cons_drop s body' body : subBody body' body -> subBody body' (s :: body).
Proof.
  intros H s' Hs'.
  destruct (H s' Hs') as [Hin|(src & specs & specs' & -> & Hin & Hincl)].
  - left. right. exact Hin.
  - right. exists src, specs, specs'. split; [reflexivity|]. split; [right; exact Hin|exact Hincl].
Qed.

Lemma pruneImports_invariant i unused body g r body' g' r' :
  wellFormed g -> covered g ->
  pruneImports i unused body g r = Ok (body', g', r') ->
  wellFormed g' /\ covered g' /\ shrinks g g' /\ graphOutputs g' = graphOutputs g
  /\ subBody body' body
  /\ (forall s, In s body -> isImport s = false -> In s body').
Proof.
  revert g r body' g' r'. induction body as [|s body IH]; intros g r body' g' r' Hwf Hcov H.
  - simpl in H. injection H as <- <- <-.
    split; [exact Hwf|]. split; [exact Hcov|]. split; [apply shrinks_refl|].
    split; [reflexivity|]. split; [intros s []|intros s []].
  - destruct s as [src specs|d|d specs|b].
    2-4: simpl in H; apply bind_Ok in H as ([[rest g1] r1] & Hrest & H);
         injection H as <- <- <-;
         destruct (IH _ _ _ _ _ Hwf Hcov Hrest) as (Hwf' & Hcov' & Hshr & Hout & Hsub & Hkept);
         split; [exact Hwf'|]; split; [exact Hcov'|]; split; [exact Hshr|];
         split; [exact Hout|]; split; [apply subBody_cons_same; exact Hsub|];
         intros s [<-|Hs] Him; [left; reflexivity|right; auto].
    simpl in H. apply bind_Ok in H as (specs' & Hspecs & H).
    pose proof (filterSpecifiers_incl _ _ _ Hspecs) as Hincl.
    destruct specs' as [|sp specs'].
    + apply bind_Ok in H as (g1 & Hg1 & H).
      destruct (unlink_invariant _ _ _ _ Hwf Hcov Hg1) as (Hwf1 & Hcov1 & Hshr1 & Hout1).
      destruct (IH _ _ _ _ _ Hwf1 Hcov1 H) as (Hwf' & Hcov' & Hshr & Hout & Hsub & Hkept).
      split; [exact Hwf'|]. split; [exact Hcov'|].
      split; [eapply shrinks_trans; eauto|]. split; [congruence|].
      split; [apply subBody_cons_drop; exact Hsub|].
      intros s [<-|Hs] Him; [discriminate|auto].
    + apply bind_Ok in H as ([[rest g1] r1] & Hrest & H). injection H as <- <- <-.
      destruct (IH _ _ _ _ _ Hwf Hcov Hrest) as (Hwf' & Hcov' & Hshr & Hout & Hsub & Hkept).
      split; [exact Hwf'|]. split; [exact Hcov'|]. split; [exact Hshr|].
      split; [exact Hout|]. split.
      * intros s' [<-|Hs'].
        -- right. exists src, specs, (sp :: specs'). split; [reflexivity|].
           split; [left; reflexivity|exact Hincl].
        -- destruct (Hsub s' Hs') as [Hin|(src0 & specs0 & specs0' & -> & Hin & Hincl0)].
           ++ left. right. exact Hin.
           ++ right. exists src0, specs0, specs0'. split; [reflexivity|].
              split; [right; exact Hin|exact Hincl0].
      * intros s [<-|Hs] Him; [discriminate|right; auto].
Qed.

Lemma statementUses_incl m src specs specs' d x :
  incl specs' specs ->
  statementUses m (ImportDeclaration src specs') d x = true ->
  statementUses m (ImportDeclaration src specs) d x = true.
Proof.
  intros Hincl. unfold statementUses. simpl. destruct (getGraphId m src); simpl; auto.
  unfold importItemUses; simpl. rewrite !orb_false_r, !andb_true_iff.
  intros [Hk Hex]. split; [exact Hk|]. rewrite existsb_map_comp in *.
  apply existsb_exists in Hex as (sp & Hsp & Hex). apply existsb_exists. exists sp. auto.
Qed.

Lemma subBody_uses m body' body s' d x :
  subBody body' body -> In s' body' -> statementUses m s' d x = true ->
  exists s, In s body /\ statementUses m s d x = true.
Proof.
  intros Hsub Hs' Hu. destruct (Hsub s' Hs') as [Hin|(src & specs & specs' & -> & Hin & Hincl)].
  - exists s'. auto.
  - exists (ImportDeclaration src specs). split; [exact Hin|].
    eapply statementUses_incl; eauto.
Qed.

Lemma exportedName_not_import s E : exportedName s = Some E -> isImport s = false.
Proof. destruct s; [discriminate|reflexivity..]. Qed.

Lemma removeUnusedImports_invariant i j g b g' :
  wellFormed g -> covered g -> removeUnusedImports i j g = Ok (b, g') ->
  wellFormed g' /\ covered g' /\ shrinks g g' /\ keeps g g'.
Proof.
  intros Hwf Hcov H.
  apply removeUnusedImports_Ok in H as (e & o & body' & g1 & He & Ho & Hp & ->).
  destruct (pruneImports_invariant _ _ _ _ _ _ _ _ Hwf Hcov Hp)
    as (Hwf1 & Hcov1 & Hshr1 & Hout1 & Hsub & Hkept).
  assert (Hi1 : graphOutputs g1 !! i = Some (output (value e))).
  { rewrite Hout1, graphOutputs_lookup, He. reflexivity. }
  rewrite graphOutputs_lookup in Hi1. destruct (g1 !! i) as [e1|] eqn:He1; [|discriminate].
  injection Hi1 as Hout. assert (Hin1 : In e1 g1) by (apply In_lookup; eauto).
  assert (Ho1 : output (value e1) !! j = Some o) by (rewrite Hout; exact Ho).
  assert (Hino : In o (output (value e1))) by (apply In_lookup; eauto).
  unfold setAst, alterModule, alterSlot. rewrite He1, Ho1.
  split; [|split; [|split]].
  - eapply wellFormed_insert; eauto. exact (proj2 Hwf1 e1 Hin1).
  - eapply covered_insert; eauto. simpl. intros Hpres o' s d x Ho' Hs Hu.
    apply In_insert in Ho' as [->|Ho'].
    + simpl in Hs. destruct (subBody_uses _ _ _ _ _ _ Hsub Hs Hu) as (s0 & Hs0 & Hu0).
      change (recordUses o d x = true). eapply Hcov1; eauto.
    + eapply Hcov1; eauto.
  - eapply shrinks_trans; [exact Hshr1|]. eapply shrinks_insert; eauto.
    split; [reflexivity|]. split; [auto|]. split; [apply incl_refl|]. simpl.
    rewrite <- (list_insert_id _ _ _ Ho1) at 1.
    apply Forall2_insert; [apply Forall2_refl; apply outputShrinks_refl|]. split; auto.
  - intros i0 j0 body s E e' Htree Hs HE He' _.
    assert (Htree1 : treeOf g1 i0 j0 = Some body).
    { rewrite treeOf_trees in *. rewrite (graphOutputs_trees _ _ Hout1). exact Htree. }
    unfold treeOf in *. destruct (Nat.eq_dec i0 i) as [->|Hne].
    + rewrite list_lookup_insert_eq in * by (eapply lookup_lt_Some; eauto).
      rewrite He1 in Htree1. simpl. destruct (Nat.eq_dec j0 j) as [->|Hnej].
      * rewrite list_lookup_insert_eq by (eapply lookup_lt_Some; eauto). simpl.
        rewrite Ho1 in Htree1. injection Htree1 as <-.
        exists body'. split; [reflexivity|]. apply Hkept; [exact Hs|].
        eapply exportedName_not_import; eauto.
      * rewrite list_lookup_insert_ne by auto. exists body. auto.
    + rewrite list_lookup_insert_ne by auto. exists body. auto.
Qed.

Lemma keeps_refl g : keeps g g.
Proof. intros i j body s E e' Htree Hs _ _ _. exists body. auto. Qed.

Lemma prunes_refl g : wellFormed g -> covered g -> prunes g g.
Proof.
  intros Hwf Hcov. split; [exact Hwf|]. split; [exact Hcov|].
  split; [apply shrinks_refl|apply keeps_refl].
Qed.

Lemma prunes_trans g1 g2 g3 : prunes g1 g2 -> prunes g2 g3 -> prunes g1 g3.
Proof.
  intros (Hwf2 & Hcov2 & Hshr12 & Hk12) (Hwf3 & Hcov3 & Hshr23 & Hk23).
  split; [exact Hwf3|]. split; [exact Hcov3|]. split; [eapply shrinks_trans; eauto|].
  intros i j body s E e3 Htree Hs HE He3 Hused.
  destruct (Forall2_lookup_r _ _ _ _ _ Hshr23 He3) as (e2 & He2 & _).
  pose proof (isExportUsed_shrinks _ _ _ _ _ _ Hshr23 (proj1 Hwf2) He2 He3 Hused) as Hused2.
  destruct (Hk12 _ _ _ _ _ _ Htree Hs HE He2 Hused2) as (body2 & Htree2 & Hs2).
  eapply Hk23; eauto.
Qed.

Section PruneLoops.
Variable rerun : graph -> result graph.
Hypothesis rerun_prunes :
  forall g g', wellFormed g -> covered g -> rerun g = Ok g' -> prunes g g'.

Lemma forOutputs_prunes i js g g' :
  wellFormed g -> covered g -> forOutputs rerun i js g = Ok g' -> prunes g g'.
Proof.
  revert g. induction js as [|j js IH]; intros g Hwf Hcov H; simpl in H.
  - injection H as <-. apply prunes_refl; assumption.
  - apply bind_Ok in H as ([removed g1] & Hr & H). apply bind_Ok in H as (g2 & Hg2 & H).
    pose proof (removeUnusedImports_invariant _ _ _ _ _ Hwf Hcov Hr) as H1.
    assert (H2 : prunes g1 g2).
    { destruct H1 as (Hwf1 & Hcov1 & _). destruct removed.
      - apply rerun_prunes; assumption.
      - injection Hg2 as <-. apply prunes_refl; assumption. }
    eapply prunes_trans; [exact H1|]. eapply prunes_trans; [exact H2|].
    destruct H2 as (Hwf2 & Hcov2 & _). apply IH; assumption.
Qed.

Lemma forModules_prunes idxs g g' :
  wellFormed g -> covered g -> forModules rerun idxs g = Ok g' -> prunes g g'.
Proof.
  revert g. induction idxs as [|i idxs IH]; intros g Hwf Hcov H; simpl in H.
  - injection H as <-. apply prunes_refl; assumption.
  - destruct (g !! i) as [e|]; [|apply IH; assumption].
    destruct (present e); [|apply IH; assumption].
    apply bind_Ok in H as (g1 & Hg1 & H). apply bind_Ok in H as (g2 & Hg2 & H).
    pose proof (treeShakeExports_invariant _ _ _ Hwf Hcov Hg1) as H1.
    assert (H2 : prunes g1 g2).
    { destruct H1 as (Hwf1 & Hcov1 & _). eapply forOutputs_prunes; eauto. }
    eapply prunes_trans; [exact H1|]. eapply prunes_trans; [exact H2|].
    destruct H2 as (Hwf2 & Hcov2 & _). apply IH; assumption.
Qed.
End PruneLoops.

Lemma keeps_trees g0 g g' : graphTrees g = graphTrees g0 -> keeps g g' -> keeps g0 g'.
Proof.
  intros Ht Hk i j body s E e' Htree. apply Hk. rewrite treeOf_trees in *.
  rewrite Ht. exact Htree.
Qed.

Lemma treeShakeAll_prunes n g g' :
  wellFormed g -> covered g -> treeShakeAll n g = Ok g' -> prunes g g'.
Proof.
  revert g g'. induction n as [|n IH]; intros g g' Hwf Hcov H; [discriminate|].
  simpl in H. apply bind_Ok in H as (g1 & Hg1 & H).
  destruct (collectAll_invariant _ _ Hwf Hg1) as (Hwf1 & Hcov1 & Ht & Hshr).
  pose proof (forModules_prunes _ IH _ _ _ Hwf1 Hcov1 H) as (Hwf' & Hcov' & Hshr' & Hk').
  split; [exact Hwf'|]. split; [exact Hcov'|].
  split; [eapply shrinks_trans; eauto|]. eapply keeps_trees; eauto.
Qed.

Lemma treeShakeAll_keeps n g g' :
  wellFormed g -> treeShakeAll n g = Ok g' -> keeps g g'.
Proof.
  intros Hwf H. destruct n as [|n]; [discriminate|].
  simpl in H. apply bind_Ok in H as (g1 & Hg1 & H).
  destruct (collectAll_invariant _ _ Hwf Hg1) as (Hwf1 & Hcov1 & Ht & _).
  pose proof (forModules_prunes _ (treeShakeAll_prunes n) _ _ _ Hwf1 Hcov1 H)
    as (_ & _ & _ & Hk').
  eapply keeps_trees; eauto.
Qed.

Lemma stable_exports g i e o s :
  stable g -> g !! i = Some e -> present e = true ->
  In o (output (value e)) -> In s (ast (data o)) ->
  forall x, In x (declaredNames s) -> isExportUsed g (depId e) (value e) x = true.
Proof.
  intros Hst He Hp Ho Hs. destruct (Hst i e He Hp) as [Hex _].
  apply treeShakeExports_fixed in Hex as (e0 & He0 & Hos).
  rewrite He in He0. injection He0 as <-.
  apply shakeStatement_declared. eapply shakeOutput_fixed; eauto.
Qed.

(** [isExportUsed] in words *)
Lemma importItemUses_spec d x it :
  importItemUses d x it = true
  <-> key it = d
      /\ (cjs it = true \/ exists sp, In sp (specifiers it) /\ importedName sp = Some x).
Proof.
  unfold importItemUses. rewrite andb_true_iff, orb_true_iff, String.eqb_eq, existsb_exists.
  split; intros [Hk H]; (split; [exact Hk|]); destruct H as [H|(sp & Hsp & H)]; auto; right;
    exists sp; (split; [exact Hsp|]).
  - destruct (importedName sp) as [y|]; [|discriminate]. apply String.eqb_eq in H. congruence.
  - rewrite H. apply String.eqb_refl.
Qed.

Lemma outputUses_spec d x o :
  outputUses d x o = true
  <-> type o = "js/module"
      /\ exists ms it, modules (data o) = Some ms /\ In it (imports ms)
                       /\ importItemUses d x it = true.
Proof.
  unfold outputUses. destruct (String.eqb_spec (type o) "js/module") as [Ht|Ht].
  - destruct (modules (data o)) as [ms|].
    + rewrite existsb_exists. split.
      * intros (it & Hit & Hu). split; [exact Ht|]. exists ms, it. auto.
      * intros (_ & ms' & it & [= <-] & Hit & Hu). exists it. auto.
    + split; [discriminate|]. intros (_ & ms & it & Hms & _). discriminate.
  - split; [discriminate|]. intros [Ht' _]. contradiction.
Qed.

Lemma isExportUsed_importedBy g e E :
  isExportUsed g (depId e) (value e) E = true <-> importedBy g e E.
Proof.
  rewrite isExportUsed_occurrences. unfold importedBy.
  rewrite existsb_map_comp, existsb_exists. split.
  - intros (p & Hp & H). destruct (graphGet g p) as [importer|] eqn:Hg; [|discriminate].
    apply existsb_exists in H as (o & Ho & H).
    apply outputUses_spec in H as (Ht & ms & it & Hms & Hit & Hu).
    apply importItemUses_spec in Hu as [Hk Hu].
    exists p, importer, o, ms, it. auto 10.
  - intros (p & importer & o & ms & it & Hp & Hg & Ho & Ht & Hms & Hit & Hk & Hu).
    exists p. split; [exact Hp|]. rewrite Hg. apply existsb_exists. exists o.
    split; [exact Ho|]. apply outputUses_spec. split; [exact Ht|]. exists ms, it.
    split; [exact Hms|]. split; [exact Hit|]. apply importItemUses_spec. auto.
Qed.

(** what the pass leaves of a tree *)
Lemma prunedTo_refl body : prunedTo body body.
Proof. induction body; constructor; auto. Qed.

Lemma prunedTo_trans b1 b2 b3 : prunedTo b1 b2 -> prunedTo b2 b3 -> prunedTo b1 b3.
Proof.
  intros H. revert b3.
  induction H as [|s body body' H IH|s body body' Hs H IH|src specs body body' H IH
                  |src specs specs' body body' Hsub H IH]; intros b3 H3.
  - exact H3.
  - inversion H3; subst.
    + apply pruned_keep; auto.
    + apply pruned_export; auto.
    + apply pruned_import; auto.
    + apply pruned_specifiers; auto.
  - apply pruned_export; auto.
  - apply pruned_import; auto.
  - inversion H3; subst.
    + apply pruned_specifiers; auto.
    + simpl in *. congruence.
    + apply pruned_import; auto.
    + apply pruned_specifiers; auto. etrans; eauto.
Qed.

Lemma treesPruned_refl tss : treesPruned tss tss.
Proof. apply Forall2_refl. intros ts. apply Forall2_refl. apply prunedTo_refl. Qed.

Lemma treesPruned_trans t1 t2 t3 : treesPruned t1 t2 -> treesPruned t2 t3 -> treesPruned t1 t3.
Proof.
  apply Forall2_trans. intros a b c. apply Forall2_trans. exact prunedTo_trans.
Qed.

Lemma filterSpecifiers_sublist unused specs specs' :
  filterSpecifiers unused specs = Ok specs' -> sublist specs' specs.
Proof.
  revert specs'. induction specs as [|[imported local| |] specs IH]; intros specs'; simpl.
  - intros [= <-]. constructor.
  - destruct (filterSpecifiers unused specs) as [rest| |]; simpl; [|discriminate..].
    intros [= <-]. destruct (includes unused imported).
    + apply sublist_cons. auto.
    + apply sublist_skip. auto.
  - discriminate.
  - discriminate.
Qed.

Lemma shakeProgram_pruned used body body' :
  shakeProgram used body = Ok body' -> prunedTo body body'.
Proof.
  revert body'. induction body as [|s body IH]; intros body'; simpl.
  - intros [= <-]. constructor.
  - destruct (shakeStatement used s) as [removed| |] eqn:Hs; simpl; [|discriminate..].
    destruct (shakeProgram used body) as [rest| |]; simpl; [|discriminate..].
    intros [= <-]. destruct removed.
    + apply pruned_export; auto. intros Hd.
      assert (shakeStatement used s = Ok false) as Hf.
      { apply shakeStatement_declared. rewrite Hd. intros x []. }
      congruence.
    + apply pruned_keep; auto.
Qed.

Lemma pruneImports_pruned i unused body g r body' g' r' :
  pruneImports i unused body g r = Ok (body', g', r') -> prunedTo body body'.
Proof.
  revert g r body' g' r'. induction body as [|s body IH]; intros g r body' g' r'; simpl.
  - intros [= <- _ _]. constructor.
  - destruct s as [src specs| | |].
    + destruct (filterSpecifiers unused specs) as [specs'| |] eqn:Hf; simpl; [|discriminate..].
      destruct specs' as [|sp specs'].
      * destruct (unlink i src g) as [g1| |]; simpl; [|discriminate..].
        intros H. apply pruned_import. eauto.
      * destruct (pruneImports i unused body g r) as [[[rest g1] r1]| |] eqn:Hp;
          simpl; [|discriminate..].
        intros [= <- _ _]. apply pruned_specifiers; eauto.
        eapply filterSpecifiers_sublist; eauto.
    + destruct (pruneImports i unused body g r) as [[[rest g1] r1]| |] eqn:Hp;
        simpl; [|discriminate..].
      intros [= <- _ _]. apply pruned_keep; eauto.
    + destruct (pruneImports i unused body g r) as [[[rest g1] r1]| |] eqn:Hp;
        simpl; [|discriminate..].
      intros [= <- _ _]. apply pruned_keep; eauto.
    + destruct (pruneImports i unused body g r) as [[[rest g1] r1]| |] eqn:Hp;
        simpl; [|discriminate..].
      intros [= <- _ _]. apply pruned_keep; eauto.
Qed.

Lemma treesPruned_insert tss i ts ts' :
  tss !! i = Some ts -> Forall2 prunedTo ts ts' -> treesPruned tss (<[i := ts']> tss).
Proof.
  intros Hi H. rewrite <- (list_insert_id tss i ts Hi) at 1.
  apply Forall2_insert; [apply treesPruned_refl|exact H].
Qed.

Lemma treeShakeExports_pruned i g g' :
  treeShakeExports i g = Ok g' -> treesPruned (graphTrees g) (graphTrees g').
Proof.
  intros H. apply treeShakeExports_Ok in H as (e & os & Hi & Hos & ->).
  unfold graphTrees at 2. rewrite map_insert. fold (graphTrees g).
  apply treesPruned_insert with (ts := moduleTrees (value e)).
  - rewrite graphTrees_lookup, Hi. reflexivity.
  - simpl. unfold moduleTrees.
    induction Hos as [|o o' os0 os' Ho Hos IH]; simpl; constructor; [|exact IH].
    unfold shakeOutput in Ho.
    destruct (shakeProgram _ (ast (data o))) as [a| |] eqn:Ha; simpl in Ho; [|discriminate..].
    injection Ho as <-. simpl. eapply shakeProgram_pruned; eauto.
Qed.

Lemma removeUnusedImports_pruned i j g b g' :
  removeUnusedImports i j g = Ok (b, g') -> treesPruned (graphTrees g) (graphTrees g').
Proof.
  intros H. apply removeUnusedImports_Ok in H as (e & o & body' & g1 & Hi & Hj & Hp & ->).
  pose proof (pruneImports_size _ _ _ _ _ _ _ _ Hp) as (Ht & _).
  pose proof (pruneImports_pruned _ _ _ _ _ _ _ _ Hp) as Hpr.
  assert (exists e1, g1 !! i = Some e1 /\ moduleTrees (value e1) = moduleTrees (value e))
    as (e1 & Hi1 & He1).
  { assert (graphTrees g1 !! i = Some (moduleTrees (value e))) as Hl.
    { rewrite Ht, graphTrees_lookup, Hi. reflexivity. }
    rewrite graphTrees_lookup in Hl. destruct (g1 !! i) as [e1|]; [|discriminate].
    exists e1. split; [reflexivity|]. congruence. }
  rewrite (graphTrees_setAst _ _ _ _ _ Hi1), He1, Ht.
  apply treesPruned_insert with (ts := moduleTrees (value e)).
  - rewrite graphTrees_lookup, Hi. reflexivity.
  - assert (moduleTrees (value e) !! j = Some (ast (data o))) as Hl.
    { unfold moduleTrees. rewrite list_lookup_fmap || rewrite map_lookup. rewrite Hj. reflexivity. }
    rewrite <- (list_insert_id _ _ _ Hl) at 1.
    apply Forall2_insert; [apply Forall2_refl; apply prunedTo_refl|exact Hpr].
Qed.

Section PrunedLoops.
Variable rerun : graph -> result graph.
Hypothesis rerun_pruned :
  forall g g', rerun g = Ok g' -> treesPruned (graphTrees g) (graphTrees g').

Lemma forOutputs_pruned i js g g' :
  forOutputs rerun i js g = Ok g' -> treesPruned (graphTrees g) (graphTrees g').
Proof.
  revert g. induction js as [|j js IH]; intros g; simpl.
  - intros [= <-]. apply treesPruned_refl.
  - destruct (removeUnusedImports i j g) as [[removed g1]| |] eqn:H1; simpl; [|discriminate..].
    apply removeUnusedImports_pruned in H1.
    destruct removed.
    + destruct (rerun g1) as [g2| |] eqn:H2; simpl; [|discriminate..].
      intros H. eapply treesPruned_trans; [exact H1|].
      eapply treesPruned_trans; [apply rerun_pruned; exact H2|]. auto.
    + simpl. intros H. eapply treesPruned_trans; [exact H1|]. auto.
Qed.

Lemma forModules_pruned idxs g g' :
  forModules rerun idxs g = Ok g' -> treesPruned (graphTrees g) (graphTrees g').
Proof.
  revert g. induction idxs as [|i idxs IH]; intros g; simpl.
  - intros [= <-]. apply treesPruned_refl.
  - destruct (g !! i) as [e|]; [|apply IH].
    destruct (present e); [|apply IH].
    destruct (treeShakeExports i g) as [g1| |] eqn:H1; simpl; [|discriminate..].
    destruct (forOutputs rerun i _ g1) as [g2| |] eqn:H2; simpl; [|discriminate..].
    intros H. apply treeShakeExports_pruned in H1. apply forOutputs_pruned in H2.
    eapply treesPruned_trans; [exact H1|].
    eapply treesPruned_trans; [exact H2|]. auto.
Qed.
End PrunedLoops.

Lemma treeShakeAll_pruned n g g' :
  treeShakeAll n g = Ok g' -> treesPruned (graphTrees g) (graphTrees g').
Proof.
  revert g g'. induction n as [|n IH]; intros g g'; simpl; [discriminate|].
  destruct (collectAll g) as [g1| |] eqn:H1; simpl; [|discriminate..].
  intros H. rewrite <- (collectAll_trees _ _ H1).
  eapply forModules_pruned; [|exact H]. exact IH.
Qed.

Lemma prunedTo_keeps body body' s :
  prunedTo body body' -> In s body -> isImport s = false -> declaredNames s = [] ->
  In s body'.
Proof.
  induction 1 as [|s0 body body' H IH|s0 body body' Hs H IH|src specs body body' H IH
                  |src specs specs' body body' Hsub H IH]; intros Hin Hi Hd.
  - destruct Hin.
  - destruct Hin as [->|Hin]; [left; reflexivity|right; auto].
  - destruct Hin as [->|Hin]; [contradiction|auto].
  - destruct Hin as [<-|Hin]; [discriminate|auto].
  - destruct Hin as [<-|Hin]; [discriminate|right; auto].
Qed.

(** C3 (amended).  On a graph whose keys are distinct and whose modules
    record their dependencies under distinct names, take a statement of a
    tree of a module that is still in the graph when the pass completes.
    If it is an export declaration that declares one name [E] and nothing
    else (a default export, an exported function or class, an exported
    variable declaration with a single declarator, which is an
    identifier), it is in the final tree if and only if a module of the
    final graph, listed among the inverse dependencies of that module, has
    a recorded import of it that is a [require] or lists [E] as an imported
    name.  If it declares no name that the export visitors look up (an
    export list, a variable declaration with destructuring declarators
    only), it is in the final tree. *)
Theorem export_survives_iff_imported n g g' i j body s e' :
  wellFormed g ->
  treeShakeAll n g = Ok g' ->
  treeOf g i j = Some body -> In s body -> isImport s = false ->
  g' !! i = Some e' -> present e' = true ->
  (forall E, exportedName s = Some E ->
     ((exists body', treeOf g' i j = Some body' /\ In s body')
      <-> importedBy g' e' E))
  /\ (declaredNames s = [] ->
      exists body', treeOf g' i j = Some body' /\ In s body').
Proof.
  intros Hwf H Htree Hs Himp He' Hp. split.
  - intros E HE. rewrite <- isExportUsed_importedBy. split.
    + intros (body' & Htree' & Hs'). unfold treeOf in Htree'. rewrite He' in Htree'.
      destruct (output (value e') !! j) as [o'|] eqn:Ho'; [|discriminate].
      injection Htree' as <-.
      apply (stable_exports g' i e' o' s (treeShakeAll_stable _ _ _ H) He' Hp).
      * apply In_lookup. eauto.
      * exact Hs'.
      * rewrite (exportedName_declared _ _ HE). left. reflexivity.
    + intros Hused. eapply treeShakeAll_keeps; eauto.
  - intros Hd. apply treeShakeAll_pruned in H.
    rewrite treeOf_trees in Htree. rewrite treeOf_trees.
    destruct (graphTrees g !! i) as [ts|] eqn:Hi; [|discriminate].
    destruct (Forall2_lookup_l _ _ _ _ _ H Hi) as (ts' & Hi' & Hts).
    rewrite Hi'.
    destruct (Forall2_lookup_l _ _ _ _ _ Hts Htree) as (body' & Hj' & Hb).
    exists body'. split; [exact Hj'|]. eapply prunedTo_keeps; eauto.
Qed.

Lemma isExportUsed_no_importer g d m x :
  inverseDependencies m = [] -> isExportUsed g d m x = false.
Proof. unfold isExportUsed. intros ->. reflexivity. Qed.


(** inverse dependencies are only ever removed *)
Lemma inverseShrinks_refl g : inverseShrinks g g.
Proof. apply Forall2_refl. intros e. apply incl_refl. Qed.

Lemma inverseShrinks_trans g1 g2 g3 :
  inverseShrinks g1 g2 -> inverseShrinks g2 g3 -> inverseShrinks g1 g3.
Proof.
  intros H1 H2. eapply Forall2_trans; [|exact H1|exact H2].
  intros e1 e2 e3 H12 H23. exact (incl_tran H23 H12).
Qed.

Lemma inverseShrinks_insert g i e e' :
  g !! i = Some e ->
  incl (inverseDependencies (value e')) (inverseDependencies (value e)) ->
  inverseShrinks g (<[i := e']> g).
Proof.
  intros He Hs. rewrite <- (list_insert_id g i e He) at 1.
  apply Forall2_insert; [apply inverseShrinks_refl|exact Hs].
Qed.

Lemma collectAll_inverse g g1 : collectAll g = Ok g1 -> inverseShrinks g g1.
Proof.
  intros H. apply mapM_Ok in H. eapply Forall2_impl; [exact H|].
  intros e e' He. apply collectSlot_Ok in He as [(_ & _ & _ & _ & ->) _]. apply incl_refl.
Qed.

Lemma treeShakeExports_inverse i g g' : treeShakeExports i g = Ok g' -> inverseShrinks g g'.
Proof.
  intros H. apply treeShakeExports_Ok in H as (e & os & He & _ & ->).
  eapply inverseShrinks_insert; eauto. apply incl_refl.
Qed.

Lemma alterSlot_inverse f i g :
  (forall e, incl (inverseDependencies (value (f e))) (inverseDependencies (value e))) ->
  inverseShrinks g (alterSlot f i g).
Proof.
  intros Hf. unfold alterSlot. destruct (g !! i) as [e|] eqn:He; [|apply inverseShrinks_refl].
  eapply inverseShrinks_insert; eauto.
Qed.

Lemma unlink_inverse i src g g' : unlink i src g = Ok g' -> inverseShrinks g g'.
Proof.
  intros H.
  apply unlink_Ok in H as (e & depKey & d0 & dep & k & graphDep & _ & _ & _ & _ & Hk & ->).
  match goal with
  | |- inverseShrinks _ (alterModule _ _ ?g1) => apply (inverseShrinks_trans _ g1)
  end.
  - apply (inverseShrinks_insert g k graphDep); [exact Hk|].
    assert (Hincl : incl (countingDelete (path (value e)) (inverseDependencies (value graphDep)))
                         (inverseDependencies (value graphDep))).
    { apply countingDelete_incl. }
    destruct (countingDelete _ _); simpl; exact Hincl.
  - apply alterSlot_inverse. intros e0. apply incl_refl.
Qed.

Lemma pruneImports_inverse i unused body g r body' g' r' :
  pruneImports i unused body g r = Ok (body', g', r') -> inverseShrinks g g'.
Proof.
  revert g r body' g' r'. induction body as [|s body IH]; intros g r body' g' r' H.
  - simpl in H. injection H as <- <- <-. apply inverseShrinks_refl.
  - destruct s as [src specs|d|d specs|b].
    2-4: simpl in H; apply bind_Ok in H as ([[rest g1] r1] & Hrest & H);
         injection H as <- <- <-; eapply IH; eauto.
    simpl in H. apply bind_Ok in H as (specs' & _ & H). destruct specs'.
    + apply bind_Ok in H as (g1 & Hg1 & H).
      eapply inverseShrinks_trans; [eapply unlink_inverse; eauto|eapply IH; eauto].
    + apply bind_Ok in H as ([[rest g1] r1] & Hrest & H). injection H as <- <- <-.
      eapply IH; eauto.
Qed.

Lemma removeUnusedImports_inverse i j g b g' :
  removeUnusedImports i j g = Ok (b, g') -> inverseShrinks g g'.
Proof.
  intros H. apply removeUnusedImports_Ok in H as (e & o & body' & g1 & _ & _ & Hp & ->).
  eapply inverseShrinks_trans; [eapply pruneImports_inverse; eauto|].
  apply alterSlot_inverse. intros e0. simpl. destruct (output (value e0) !! j); apply incl_refl.
Qed.

Section InverseLoops.
Variable rerun : graph -> result graph.
Hypothesis rerun_inverse : forall g g', rerun g = Ok g' -> inverseShrinks g g'.

Lemma forOutputs_inverse i js g g' :
  forOutputs rerun i js g = Ok g' -> inverseShrinks g g'.
Proof.
  revert g. induction js as [|j js IH]; intros g H; simpl in H.
  - injection H as <-. apply inverseShrinks_refl.
  - apply bind_Ok in H as ([removed g1] & Hr & H). apply bind_Ok in H as (g2 & Hg2 & H).
    eapply inverseShrinks_trans; [eapply removeUnusedImports_inverse; eauto|].
    eapply inverseShrinks_trans; [|eapply IH; eauto].
    destruct removed; [auto|]. injection Hg2 as <-. apply inverseShrinks_refl.
Qed.

Lemma forModules_inverse idxs g g' :
  forModules rerun idxs g = Ok g' -> inverseShrinks g g'.
Proof.
  revert g. induction idxs as [|i idxs IH]; intros g H; simpl in H.
  - injection H as <-. apply inverseShrinks_refl.
  - destruct (g !! i) as [e|]; [|auto]. destruct (present e); [|auto].
    apply bind_Ok in H as (g1 & Hg1 & H). apply bind_Ok in H as (g2 & Hg2 & H).
    eapply inverseShrinks_trans; [eapply treeShakeExports_inverse; eauto|].
    eapply inverseShrinks_trans; [eapply forOutputs_inverse; eauto|auto].
Qed.
End InverseLoops.

Lemma treeShakeAll_inverse n g g' : treeShakeAll n g = Ok g' -> inverseShrinks g g'.
Proof.
  revert g g'. induction n as [|n IH]; intros g g' H; [discriminate|].
  simpl in H. apply bind_Ok in H as (g1 & Hg1 & H).
  eapply inverseShrinks_trans; [eapply collectAll_inverse; eauto|].
  eapply forModules_inverse; eauto.
Qed.

(** C2 (amended).  A module without inverse dependencies is not set
    apart: [isExportUsed] answers [false] for each of its names, and when
    the pass completes, the trees of a module that entered the pass with an
    empty inverse-dependency set and is still in the graph hold no default
    export declaration, no exported function or class declaration and no
    exported variable declaration with an identifier declarator. *)
Theorem entry_module_exports_are_removed n g g' i e e' o s :
  treeShakeAll n g = Ok g' ->
  g !! i = Some e -> inverseDependencies (value e) = [] ->
  g' !! i = Some e' -> present e' = true ->
  In o (output (value e')) -> In s (ast (data o)) ->
  (forall x, isExportUsed g' (depId e') (value e') x = false)
  /\ declaredNames s = [].
Proof.
  intros H He Hinv He' Hp Ho Hs.
  assert (Hinv' : inverseDependencies (value e') = []).
  { pose proof (Forall2_lookup_lr _ _ _ _ _ _ (treeShakeAll_inverse _ _ _ H) He He') as Hincl.
    simpl in Hincl. rewrite Hinv in Hincl.
    destruct (inverseDependencies (value e')) as [|p ps]; [reflexivity|].
    destruct (Hincl p (or_introl eq_refl)). }
  split; [intros x; apply isExportUsed_no_importer; exact Hinv'|].
  pose proof (stable_exports g' i e' o s (treeShakeAll_stable _ _ _ H) He' Hp Ho Hs) as Hused.
  destruct (declaredNames s) as [|x l]; [reflexivity|].
  specialize (Hused x (or_introl eq_refl)).
  rewrite (isExportUsed_no_importer _ _ _ _ Hinv') in Hused. discriminate.
Qed.

(** a larger budget gives the same result *)
Section FuelLoops.
Variables rerun1 rerun2 : graph -> result graph.
Hypothesis rerun_same :
  forall g, terminated (rerun1 g) = true -> rerun2 g = rerun1 g.

Lemma forOutputs_fuel i js g :
  terminated (forOutputs rerun1 i js g) = true ->
  forOutputs rerun2 i js g = forOutputs rerun1 i js g.
Proof.
  revert g. induction js as [|j js IH]; intros g H; simpl in *; [reflexivity|].
  destruct (removeUnusedImports i j g) as [[removed g1]| |]; simpl in *; try reflexivity.
  destruct removed; simpl in *; [|apply IH; exact H].
  destruct (rerun1 g1) as [g2| |] eqn:Hg2; simpl in *.
  - rewrite rerun_same by (rewrite Hg2; reflexivity). rewrite Hg2. simpl. apply IH. exact H.
  - rewrite rerun_same by (rewrite Hg2; reflexivity). rewrite Hg2. reflexivity.
  - discriminate.
Qed.

Lemma forModules_fuel idxs g :
  terminated (forModules rerun1 idxs g) = true ->
  forModules rerun2 idxs g = forModules rerun1 idxs g.
Proof.
  revert g. induction idxs as [|i idxs IH]; intros g H; simpl in *; [reflexivity|].
  destruct (g !! i) as [e|]; [|apply IH; exact H].
  destruct (present e); [|apply IH; exact H].
  destruct (treeShakeExports i g) as [g1| |]; simpl in *; try reflexivity.
  destruct (forOutputs rerun1 i _ g1) as [g2| |] eqn:Hg2; simpl in *.
  - rewrite forOutputs_fuel by (rewrite Hg2; reflexivity). rewrite Hg2. simpl. apply IH. exact H.
  - rewrite forOutputs_fuel by (rewrite Hg2; reflexivity). rewrite Hg2. reflexivity.
  - discriminate.
Qed.
End FuelLoops.

Lemma treeShakeAll_fuel_S n g :
  terminated (treeShakeAll n g) = true -> treeShakeAll (S n) g = treeShakeAll n g.
Proof.
  revert g. induction n as [|n IH]; intros g H; [discriminate|].
  change (treeShakeAll (S (S n)) g)
    with (do g1 <- collectAll g; forModules (treeShakeAll (S n)) (seq 0 (length g1)) g1).
  change (treeShakeAll (S n) g)
    with (do g1 <- collectAll g; forModules (treeShakeAll n) (seq 0 (length g1)) g1) in *.
  destruct (collectAll g) as [g1| |]; simpl in *; try reflexivity.
  apply forModules_fuel; [|exact H]. intros g0 H0. apply IH. exact H0.
Qed.

Lemma treeShakeAll_fuel n m g :
  terminated (treeShakeAll n g) = true -> n <= m -> treeShakeAll m g = treeShakeAll n g.
Proof.
  intros H Hle. induction Hle as [|m Hle IH]; [reflexivity|].
  rewrite treeShakeAll_fuel_S; [exact IH|]. rewrite IH. exact H.
Qed.

(** C7 (amended).  The fixpoint loop terminates on every graph.
    [treeShakeAll] re-invokes itself only when [removeUnusedImports]
    reports a removal, and then an import specifier or an import
    declaration has left a tree: the number of import declarations and
    specifiers in the trees of the graph strictly shrinks before every
    re-run, so a recursion depth above that number is never exhausted, and
    every such depth gives the same result. *)
Theorem treeShakeAll_terminates g fuel :
  importSize g < fuel ->
  terminated (treeShakeAll fuel g) = true
  /\ treeShakeAll fuel g = treeShake g
  /\ (forall i j g', removeUnusedImports i j g = Ok (true, g') ->
                     importSize g' < importSize g).
Proof.
  intros Hf. destruct (treeShakeAll_budget (importSize g) g (le_n _)) as [Ht _].
  assert (He : treeShakeAll fuel g = treeShake g)
    by (apply treeShakeAll_fuel; [exact Ht|lia]).
  split; [rewrite He; exact Ht|]. split; [exact He|].
  intros i j g' H. apply removeUnusedImports_importSize in H as [_ H]. auto.
Qed.

(** a stable graph whose records are up to date is a fixed point *)
Lemma forOutputs_fixed rerun i js g :
  (forall j, In j js -> removeUnusedImports i j g = Ok (false, g)) ->
  forOutputs rerun i js g = Ok g.
Proof.
  induction js as [|j js IH]; intros H; simpl; [reflexivity|].
  rewrite (H j (or_introl eq_refl)). simpl. apply IH. intros j' Hj'. apply H. right. exact Hj'.
Qed.

Lemma forModules_fixed rerun idxs g :
  stable g -> forModules rerun idxs g = Ok g.
Proof.
  intros Hst. induction idxs as [|i idxs IH]; simpl; [reflexivity|].
  destruct (g !! i) as [e|] eqn:He; [|exact IH].
  destruct (present e) eqn:Hp; [|exact IH].
  destruct (Hst i e He Hp) as [Hex Him]. rewrite Hex. simpl.
  rewrite forOutputs_fixed; [exact IH|]. intros j Hj. apply Him. apply in_seq in Hj. lia.
Qed.

Lemma second_run_fixed_when_records_fresh n m g g' :
  treeShakeAll n g = Ok g' -> collectAll g' = Ok g' -> treeShakeAll (S m) g' = Ok g'.
Proof.
  intros H Hc. simpl. rewrite Hc. simpl. apply forModules_fixed.
  eapply treeShakeAll_stable; eauto.
Qed.

(** ** The edges of the graph along the pass *)

Lemma graphEdges_insert g i e e' :
  g !! i = Some e -> edgesOf e' = edgesOf e -> graphEdges (<[i := e']> g) = graphEdges g.
Proof.
  intros He Heq. unfold graphEdges. rewrite map_insert, Heq.
  apply list_insert_id. rewrite map_lookup, He. reflexivity.
Qed.

Lemma collectAll_edges g g1 : collectAll g = Ok g1 -> graphEdges g1 = graphEdges g.
Proof.
  intros H. apply mapM_Ok in H. unfold graphEdges. apply Forall2_map_eq.
  eapply Forall2_impl; [exact H|]. intros e e' He.
  apply collectSlot_Ok in He as [(Hk & Hp & Hpath & Hd & Hi) _].
  unfold edgesOf. congruence.
Qed.

Lemma treeShakeExports_edges i g g' : treeShakeExports i g = Ok g' -> graphEdges g' = graphEdges g.
Proof.
  intros H. apply treeShakeExports_Ok in H as (e & os & He & _ & ->).
  eapply graphEdges_insert; eauto.
Qed.

Lemma setAst_edges i j a g : graphEdges (setAst i j a g) = graphEdges g.
Proof.
  unfold setAst, alterModule, alterSlot. destruct (g !! i) as [e|] eqn:He; [|reflexivity].
  eapply graphEdges_insert; eauto. unfold edgesOf; simpl.
  destruct (output (value e) !! j); reflexivity.
Qed.

Lemma unlink_detach i src g g' :
  unlink i src g = Ok g' -> detach (graphEdges g) (graphEdges g').
Proof.
  intros H.
  apply unlink_Ok in H as (e & depKey & d0 & dep & k & graphDep & He & _ & Hdep & Hk & Hgk & ->).
  destruct (indexOf_Some _ _ _ Hk) as (b & Hb & Hpres & Hkey). rewrite Hgk in Hb.
  injection Hb as <-.
  exists i, (edgesOf e), depKey, dep, k, (edgesOf graphDep).
  unfold graphEdges. rewrite !map_lookup, He, Hgk.
  split; [reflexivity|]. split; [exact Hdep|]. split; [reflexivity|].
  split; [exact Hkey|]. split; [exact Hpres|].
  unfold alterModule, alterSlot, alterEdges. rewrite map_lookup, Hgk.
  set (g1 := <[k := _]> g).
  assert (Hg1 : List.map edgesOf g1
                = <[k := dropInverse (e_path (edgesOf e)) (edgesOf graphDep)]> (List.map edgesOf g)).
  { unfold g1. rewrite map_insert. f_equal. unfold dropInverse, edgesOf; simpl.
    destruct (countingDelete _ _); reflexivity. }
  rewrite <- Hg1, map_lookup. destruct (g1 !! i) as [e1|]; [|reflexivity].
  rewrite map_insert. reflexivity.
Qed.

Lemma pruneImports_detach i unused body g r body' g' r' :
  pruneImports i unused body g r = Ok (body', g', r') ->
  rtc detach (graphEdges g) (graphEdges g').
Proof.
  revert g r body' g' r'. induction body as [|s body IH]; intros g r body' g' r' H.
  - simpl in H. injection H as <- <- <-. apply rtc_refl.
  - destruct s as [src specs|d|d specs|b].
    2-4: simpl in H; apply bind_Ok in H as ([[rest g1] r1] & Hrest & H);
         injection H as <- <- <-; eapply IH; eauto.
    simpl in H. apply bind_Ok in H as (specs' & _ & H). destruct specs'.
    + apply bind_Ok in H as (g1 & Hg1 & H).
      eapply rtc_l; [eapply unlink_detach; eauto|eapply IH; eauto].
    + apply bind_Ok in H as ([[rest g1] r1] & Hrest & H). injection H as <- <- <-.
      eapply IH; eauto.
Qed.

Lemma removeUnusedImports_detach i j g b g' :
  removeUnusedImports i j g = Ok (b, g') -> rtc detach (graphEdges g) (graphEdges g').
Proof.
  intros H. apply removeUnusedImports_Ok in H as (e & o & body' & g1 & _ & _ & Hp & ->).
  rewrite setAst_edges. eapply pruneImports_detach; eauto.
Qed.

Section DetachLoops.
Variable rerun : graph -> result graph.
Hypothesis rerun_detach :
  forall g g', rerun g = Ok g' -> rtc detach (graphEdges g) (graphEdges g').

Lemma forOutputs_detach i js g g' :
  forOutputs rerun i js g = Ok g' -> rtc detach (graphEdges g) (graphEdges g').
Proof.
  revert g. induction js as [|j js IH]; intros g H; simpl in H.
  - injection H as <-. apply rtc_refl.
  - apply bind_Ok in H as ([removed g1] & Hr & H). apply bind_Ok in H as (g2 & Hg2 & H).
    eapply rtc_trans; [eapply removeUnusedImports_detach; eauto|].
    eapply rtc_trans; [|eapply IH; eauto].
    destruct removed; [auto|]. injection Hg2 as <-. apply rtc_refl.
Qed.

Lemma forModules_detach idxs g g' :
  forModules rerun idxs g = Ok g' -> rtc detach (graphEdges g) (graphEdges g').
Proof.
  revert g. induction idxs as [|i idxs IH]; intros g H; simpl in H.
  - injection H as <-. apply rtc_refl.
  - destruct (g !! i) as [e|]; [|auto]. destruct (present e); [|auto].
    apply bind_Ok in H as (g1 & Hg1 & H). apply bind_Ok in H as (g2 & Hg2 & H).
    rewrite <- (treeShakeExports_edges _ _ _ Hg1).
    eapply rtc_trans; [eapply forOutputs_detach; eauto|auto].
Qed.
End DetachLoops.

Lemma treeShakeAll_detach n g g' :
  treeShakeAll n g = Ok g' -> rtc detach (graphEdges g) (graphEdges g').
Proof.
  revert g g'. induction n as [|n IH]; intros g g' H; [discriminate|].
  simpl in H. apply bind_Ok in H as (g1 & Hg1 & H).
  rewrite <- (collectAll_edges _ _ Hg1). eapply forModules_detach; eauto.
Qed.

(** the edges after one unlinking *)
Lemma alterEdges_lookup f i es j :
  alterEdges f i es !! j
  = if Nat.eqb j i then option_map f (es !! j) else es !! j.
Proof.
  unfold alterEdges. destruct (Nat.eqb_spec j i) as [->|Hne].
  - destruct (es !! i) as [a|] eqn:Ha; [|rewrite Ha; reflexivity].
    rewrite list_lookup_insert_eq by (eapply lookup_lt_Some; eauto). reflexivity.
  - destruct (es !! i) as [a|]; [|reflexivity]. apply list_lookup_insert_ne. auto.
Qed.

Lemma detached_lookup depKey p i k es j x' :
  alterEdges (dropDependency depKey) i (alterEdges (dropInverse p) k es) !! j = Some x' ->
  exists x,
    es !! j = Some x
    /\ e_key x' = e_key x /\ e_path x' = e_path x
    /\ e_dependencies x'
       = (if Nat.eqb j i then mapDelete depKey (e_dependencies x) else e_dependencies x)
    /\ e_inverse x'
       = (if Nat.eqb j k then countingDelete p (e_inverse x) else e_inverse x)
    /\ (e_present x' = e_present x \/ (j = k /\ e_inverse x' = [] /\ e_present x' = false)).
Proof.
  rewrite !alterEdges_lookup. destruct (es !! j) as [x|]; [|destruct (Nat.eqb j i), (Nat.eqb j k); discriminate].
  intros H. exists x. split; [reflexivity|].
  assert (Hk : forall y, (if Nat.eqb j k then option_map (dropInverse p) (Some x) else Some x) = Some y ->
                e_key y = e_key x /\ e_path y = e_path x /\ e_dependencies y = e_dependencies x
                /\ e_inverse y = (if Nat.eqb j k then countingDelete p (e_inverse x) else e_inverse x)
                /\ (e_present y = e_present x \/ (j = k /\ e_inverse y = [] /\ e_present y = false))).
  { intros y. destruct (Nat.eqb_spec j k) as [->|Hne]; simpl; intros [= <-]; simpl; auto 10.
    unfold dropInverse. simpl. repeat (split; [reflexivity|]).
    destruct (countingDelete p (e_inverse x)); auto. }
  destruct (if Nat.eqb j k then option_map (dropInverse p) (Some x) else Some x) as [y|] eqn:Hy;
    [|destruct (Nat.eqb j i); discriminate].
  destruct (Hk y eq_refl) as (Hkey & Hpath & Hdeps & Hinv & Hpres).
  destruct (Nat.eqb j i); simpl in H; injection H as <-; simpl; rewrite ?Hdeps; auto 10.
Qed.

Lemma detached_length depKey p i k es :
  length (alterEdges (dropDependency depKey) i (alterEdges (dropInverse p) k es)) = length es.
Proof.
  assert (H : forall f i (l : list edges), length (alterEdges f i l) = length l).
  { intros f j l. unfold alterEdges. destruct (l !! j); [apply length_insert|reflexivity]. }
  rewrite !H. reflexivity.
Qed.

Lemma detached_lookup_Some depKey p i k es j x :
  es !! j = Some x ->
  exists x', alterEdges (dropDependency depKey) i (alterEdges (dropInverse p) k es) !! j = Some x'.
Proof.
  intros H. apply lookup_lt_is_Some_2. rewrite detached_length. eapply lookup_lt_Some; eauto.
Qed.

Lemma mapGet_In {V : Type} k (m : list (string * V)) v : mapGet k m = Some v -> In (k, v) m.
Proof.
  induction m as [|[k' v'] m IH]; simpl; [discriminate|].
  destruct (String.eqb_spec k' k) as [->|Hne]; [intros [= ->]; left; reflexivity|].
  intros H. right. auto.
Qed.

Lemma mapDelete_In {V : Type} k (m : list (string * V)) kv :
  In kv (mapDelete k m) <-> In kv m /\ fst kv <> k.
Proof.
  unfold mapDelete. rewrite filter_In, negb_true_iff. split; intros [H1 H2]; split; auto.
  - intros Heq. rewrite Heq, String.eqb_refl in H2. discriminate.
  - apply String.eqb_neq. exact H2.
Qed.

Lemma NoDup_map_lookup {A : Type} (f : A -> string) (l : list A) i j x y :
  NoDup (List.map f l) -> l !! i = Some x -> l !! j = Some y -> f x = f y -> i = j.
Proof.
  intros Hnd Hx Hy Heq. eapply NoDup_lookup; [exact Hnd| |].
  - rewrite map_lookup, Hx. reflexivity.
  - rewrite map_lookup, Hy, Heq. reflexivity.
Qed.

Lemma NoDup_map_In {A : Type} (f : A -> string) (l : list A) x y :
  NoDup (List.map f l) -> In x l -> In y l -> f x = f y -> x = y.
Proof.
  intros Hnd Hx Hy Heq. apply In_lookup in Hx as [i Hi]. apply In_lookup in Hy as [j Hj].
  assert (i = j) by (eapply NoDup_map_lookup; eauto). subst. congruence.
Qed.

Lemma detach_simple es es' : detach es es' -> simple es -> simple es'.
Proof.
  intros (i & a & depKey & dep & k & b & Ha & Hdep & Hb & Hkey & Hpres & ->) (Hk & Hp & Hd).
  assert (Hmap : forall f : edges -> string,
             (forall x, f (dropInverse (e_path a) x) = f x) ->
             (forall x, f (dropDependency depKey x) = f x) ->
             List.map f (alterEdges (dropDependency depKey) i
                           (alterEdges (dropInverse (e_path a)) k es)) = List.map f es).
  { intros f H1 H2.
    assert (H : forall h j (l : list edges), (forall x, f (h x) = f x) ->
                  List.map f (alterEdges h j l) = List.map f l).
    { intros h j l Hh. unfold alterEdges. destruct (l !! j) as [x|] eqn:Hx; [|reflexivity].
      rewrite map_insert, Hh. apply list_insert_id. rewrite map_lookup, Hx. reflexivity. }
    rewrite !H; auto. }
  split; [rewrite Hmap; auto|]. split; [rewrite Hmap; auto|].
  intros x' Hx'. apply In_lookup in Hx' as [j Hj].
  apply detached_lookup in Hj as (x & Hx & _ & _ & Hdeps & _).
  destruct (Hd x) as [Hd1 Hd2]; [apply In_lookup; eauto|]. rewrite Hdeps.
  destruct (Nat.eqb j i); [|auto]. unfold mapDelete. split; apply NoDup_map_filter; assumption.
Qed.

Lemma detach_samePaths es0 es es' : samePaths es0 es -> detach es es' -> samePaths es0 es'.
Proof.
  intros Hs (i & a & depKey & dep & k & b & Ha & Hdep & Hb & Hkey & Hpres & ->).
  apply Forall2_same_length_lookup. split.
  - rewrite detached_length. eapply Forall2_length; eauto.
  - intros j a0 x' Ha0 Hx'. apply detached_lookup in Hx' as (x & Hx & Hk & Hp & _).
    destruct (Forall2_lookup_lr _ _ _ _ _ _ Hs Ha0 Hx) as [Hp0 Hk0]. split; congruence.
Qed.

Lemma samePaths_refl es : samePaths es es.
Proof. apply Forall2_refl. auto. Qed.

Lemma detach_linked es es' : detach es es' -> simple es -> linked es -> linked es'.
Proof.
  intros (i & a & depKey & dep & k & b & Ha & Hdep & Hb & Hkey & Hpres & ->) (Hk & Hp & Hd) Hl.
  intros x' kd Hx' Hkd. apply In_lookup in Hx' as [j Hj].
  apply detached_lookup in Hj as (x & Hx & Hxk & Hxp & Hxd & Hxi & Hxpres).
  assert (Hkdx : In kd (e_dependencies x)).
  { rewrite Hxd in Hkd. destruct (Nat.eqb j i); [apply mapDelete_In in Hkd; tauto|exact Hkd]. }
  destruct (Hl x kd) as (t & Ht & Htk & Htinv & Htpres); [apply In_lookup; eauto|exact Hkdx|].
  apply In_lookup in Ht as [jt Hjt].
  destruct (detached_lookup_Some depKey (e_path a) i k es jt t Hjt) as (t' & Hjt').
  pose proof Hjt' as Hjt''.
  apply detached_lookup in Hjt'' as (t0 & Ht0 & Htk' & _ & _ & Hti' & Htp').
  rewrite Hjt in Ht0. injection Ht0 as <-.
  assert (Hin : In (e_path x') (e_inverse t')).
  { rewrite Hti', Hxp. destruct (Nat.eqb_spec jt k) as [->|Hne]; [|exact Htinv].
    apply countingDelete_In_ne; [|exact Htinv]. intros Hpath.
    assert (j = i) by (eapply (NoDup_map_lookup e_path); eauto). subst j.
    rewrite Ha in Hx. injection Hx as <-. rewrite Hb in Hjt. injection Hjt as <-.
    rewrite Nat.eqb_refl in Hxd. rewrite Hxd in Hkd. apply mapDelete_In in Hkd as [_ Hne].
    destruct (Hd a) as [_ Hd2]; [apply In_lookup; eauto|].
    assert (Heq : kd = (depKey, dep)).
    { apply (NoDup_map_In (fun kd => absolutePath (snd kd)) _ _ _ Hd2 Hkdx (mapGet_In _ _ _ Hdep)).
      simpl. congruence. }
    apply Hne. rewrite Heq. reflexivity. }
  exists t'. split; [apply In_lookup; eauto|]. split; [congruence|]. split; [exact Hin|].
  intros Hp'. destruct Htp' as [Heq|(_ & Hnil & _)].
  - rewrite Heq. apply Htpres. destruct Hxpres as [Heq'|(_ & _ & Hf)]; congruence.
  - rewrite Hnil in Hin. destruct Hin.
Qed.

(** the counts along an unlinking *)
Lemma detach_keyed es es' : detach es es' -> keyed es -> keyed es'.
Proof.
  intros (i & a & depKey & dep & k & b & Ha & Hdep & Hb & Hkey & Hpres & ->) (Hk & Hp & Hd).
  assert (Hmap : forall f : edges -> string,
             (forall x, f (dropInverse (e_path a) x) = f x) ->
             (forall x, f (dropDependency depKey x) = f x) ->
             List.map f (alterEdges (dropDependency depKey) i
                           (alterEdges (dropInverse (e_path a)) k es)) = List.map f es).
  { intros f H1 H2.
    assert (H : forall h j (l : list edges), (forall x, f (h x) = f x) ->
                  List.map f (alterEdges h j l) = List.map f l).
    { intros h j l Hh. unfold alterEdges. destruct (l !! j) as [x|] eqn:Hx; [|reflexivity].
      rewrite map_insert, Hh. apply list_insert_id. rewrite map_lookup, Hx. reflexivity. }
    rewrite !H; auto. }
  split; [rewrite Hmap; auto|]. split; [rewrite Hmap; auto|].
  intros x' Hx'. apply In_lookup in Hx' as [j Hj].
  apply detached_lookup in Hj as (x & Hx & _ & _ & Hdeps & _).
  pose proof (Hd x (proj2 (In_lookup _ _) (ex_intro _ j Hx))) as Hd1. rewrite Hdeps.
  destruct (Nat.eqb j i); [|auto]. unfold mapDelete. apply NoDup_map_filter. assumption.
Qed.

Lemma mapDelete_absent {V : Type} k (m : list (string * V)) :
  ~ In k (List.map fst m) -> mapDelete k m = m.
Proof.
  induction m as [|[k' v] m IH]; simpl; intros H; [reflexivity|].
  destruct (String.eqb_spec k' k) as [->|Hne]; simpl; [exfalso; auto|].
  f_equal. apply IH. auto.
Qed.

Lemma entriesTo_mapDelete K depKey dep deps :
  NoDup (List.map fst deps) -> mapGet depKey deps = Some dep ->
  entriesTo K deps
  = entriesTo K (mapDelete depKey deps)
    + (if String.eqb (absolutePath dep) K then 1 else 0).
Proof.
  unfold entriesTo. induction deps as [|[k' v] deps IH]; simpl; intros Hnd Hget; [discriminate|].
  apply NoDup_cons in Hnd as [Hk' Hnd].
  destruct (String.eqb_spec k' depKey) as [->|Hne]; simpl.
  - injection Hget as ->.
    fold (mapDelete depKey deps). rewrite mapDelete_absent.
    + destruct (String.eqb (absolutePath dep) K); simpl; lia.
    + intros Hin. apply Hk'. apply list_elem_of_In. exact Hin.
  - fold (mapDelete depKey deps). specialize (IH Hnd Hget).
    destruct (String.eqb (absolutePath v) K); simpl; lia.
Qed.

Lemma entriesTo_In K deps :
  0 < entriesTo K deps <-> exists kd, In kd deps /\ absolutePath (snd kd) = K.
Proof.
  unfold entriesTo. split.
  - intros H. destruct (List.filter _ deps) as [|kd l] eqn:E; [simpl in H; lia|].
    assert (Hin : In kd (List.filter (fun kd => String.eqb (absolutePath (snd kd)) K) deps))
      by (rewrite E; left; reflexivity).
    apply filter_In in Hin as [Hin Heq]. apply String.eqb_eq in Heq. eauto.
  - intros (kd & Hin & Heq).
    assert (Hf : In kd (List.filter (fun kd => String.eqb (absolutePath (snd kd)) K) deps)).
    { apply filter_In. split; [exact Hin|]. apply String.eqb_eq. exact Heq. }
    destruct (List.filter _ deps); [destruct Hf|simpl; lia].
Qed.

Lemma detach_counted es es' : detach es es' -> keyed es -> counted es -> counted es'.
Proof.
  intros (i & a & depKey & dep & k & b & Ha & Hdep & Hb & Hkey & Hpres & ->) (Hk & Hp & Hd) Hc.
  intros x' y' Hx' Hy'. apply In_lookup in Hx' as [j Hj]. apply In_lookup in Hy' as [l Hl].
  apply detached_lookup in Hj as (x & Hx & _ & Hxp & Hxd & _).
  apply detached_lookup in Hl as (y & Hy & Hyk & _ & _ & Hyi & _).
  rewrite Hyi, Hxp, Hyk, Hxd.
  pose proof (Hc x y (proj2 (In_lookup _ _) (ex_intro _ j Hx))
                     (proj2 (In_lookup _ _) (ex_intro _ l Hy))) as Hxy.
  pose proof (entriesTo_mapDelete (e_key y) depKey dep (e_dependencies a)
                (Hd a (proj2 (In_lookup _ _) (ex_intro _ i Ha))) Hdep) as Hent.
  destruct (Nat.eqb_spec l k) as [->|Hlk].
  - rewrite Hb in Hy. injection Hy as <-. rewrite countingDelete_count.
    rewrite <- Hkey, String.eqb_refl in Hent.
    destruct (string_dec (e_path x) (e_path a)) as [Hpath|Hpath].
    + assert (j = i) by (eapply (NoDup_map_lookup e_path); eauto). subst j.
      rewrite Ha in Hx. injection Hx as <-. rewrite Nat.eqb_refl. lia.
    + destruct (Nat.eqb_spec j i) as [->|Hji]; [|exact Hxy].
      rewrite Ha in Hx. injection Hx as <-. contradiction.
  - destruct (Nat.eqb_spec j i) as [->|Hji]; [|exact Hxy].
    rewrite Ha in Hx. injection Hx as <-.
    destruct (String.eqb_spec (absolutePath dep) (e_key y)) as [Heq|Hne]; [|lia].
    exfalso. apply Hlk. eapply (NoDup_map_lookup e_key); eauto. congruence.
Qed.

(** with the counts, every dependency entry keeps a live target *)
Lemma detach_linked_counted es es' :
  detach es es' -> linked es -> counted es' -> linked es'.
Proof.
  intros (i & a & depKey & dep & k & b & Ha & Hdep & Hb & Hkey & Hpres & ->) Hl Hc.
  intros x' kd Hx' Hkd. pose proof Hx' as Hx''. apply In_lookup in Hx' as [j Hj].
  apply detached_lookup in Hj as (x & Hx & Hxk & Hxp & Hxd & Hxi & Hxpres).
  assert (Hkdx : In kd (e_dependencies x)).
  { rewrite Hxd in Hkd. destruct (Nat.eqb j i); [apply mapDelete_In in Hkd; tauto|exact Hkd]. }
  destruct (Hl x kd) as (t & Ht & Htk & _ & Htpres); [apply In_lookup; eauto|exact Hkdx|].
  apply In_lookup in Ht as [jt Hjt].
  destruct (detached_lookup_Some depKey (e_path a) i k es jt t Hjt) as (t' & Hjt').
  pose proof Hjt' as Hjt''.
  apply detached_lookup in Hjt'' as (t0 & Ht0 & Htk' & _ & _ & _ & Htp').
  rewrite Hjt in Ht0. injection Ht0 as <-.
  assert (Hin : In (e_path x') (e_inverse t')).
  { apply (count_occ_In string_dec).
    rewrite (Hc x' t' Hx'' (proj2 (In_lookup _ _) (ex_intro _ jt Hjt'))).
    apply entriesTo_In. exists kd. split; [exact Hkd|congruence]. }
  exists t'. split; [apply In_lookup; eauto|]. split; [congruence|]. split; [exact Hin|].
  intros Hp'. destruct Htp' as [Heq|(_ & Hnil & _)].
  - rewrite Heq. apply Htpres. destruct Hxpres as [Heq'|(_ & _ & Hf)]; congruence.
  - rewrite Hnil in Hin. destruct Hin.
Qed.

Lemma detaches_consistent_from es0 es es' :
  rtc detach es es' ->
  keyed es /\ linked es /\ counted es /\ samePaths es0 es ->
  keyed es' /\ linked es' /\ counted es' /\ samePaths es0 es'.
Proof.
  induction 1 as [es|es es1 es' Hd _ IH]; [auto|].
  intros (Hk & Hl & Hc & Hp). apply IH.
  pose proof (detach_counted _ _ Hd Hk Hc) as Hc1.
  split; [eapply detach_keyed; eauto|]. split; [eapply detach_linked_counted; eauto|].
  split; [exact Hc1|eapply detach_samePaths; eauto].
Qed.

Lemma detaches_consistent es es' :
  rtc detach es es' -> keyed es -> linked es -> counted es ->
  keyed es' /\ linked es' /\ counted es' /\ samePaths es es'.
Proof.
  intros H Hk Hl Hc. apply (detaches_consistent_from es es es' H).
  split; [exact Hk|]. split; [exact Hl|]. split; [exact Hc|apply samePaths_refl].
Qed.

Lemma In_graphEdges g a : In a (graphEdges g) <-> exists e, In e g /\ edgesOf e = a.
Proof. unfold graphEdges. rewrite in_map_iff. split; intros (e & H1 & H2); eauto. Qed.

(** C5 (amended).  Take a graph as Metro builds it: the keys of
    [graph.dependencies], the paths of the modules and the dependency keys
    of every module are distinct, every dependency entry resolves to a
    module of the graph that lists the importer among its inverse
    dependencies, and every module is counted among the inverse
    dependencies of a target once per dependency entry that resolves to
    the target.  When the pass completes, every dependency entry of a
    module that is still in the graph has its target in
    [graph.dependencies], with the path of the module among the inverse
    dependencies of the target; and a module of which no dependency entry
    resolves to a target any more is no longer among the inverse
    dependencies of that target.  A module that the pass deleted from
    [graph.dependencies] is not unlinked: it stays among the inverse
    dependencies of the targets of the dependency entries it has. *)
Theorem edges_consistent_after_pruning n g g' :
  keyed (graphEdges g) -> linked (graphEdges g) -> counted (graphEdges g) ->
  treeShakeAll n g = Ok g' ->
  (forall A kd,
      In A g' -> present A = true -> In kd (dependencies (value A)) ->
      exists B, graphGet g' (absolutePath (snd kd)) = Some B
                /\ In (path (value A)) (inverseDependencies B))
  /\ (forall i A0 A B,
         g !! i = Some A0 -> g' !! i = Some A -> In B g' ->
         (forall kd, In kd (dependencies (value A)) ->
                     absolutePath (snd kd) <> depId B) ->
         ~ In (path (value A0)) (inverseDependencies (value B)))
  /\ (forall A kd B,
         In A g' -> present A = false -> In kd (dependencies (value A)) ->
         In B g' -> depId B = absolutePath (snd kd) ->
         In (path (value A)) (inverseDependencies (value B))).
Proof.
  intros Hk Hl Hc H.
  destruct (detaches_consistent _ _ (treeShakeAll_detach _ _ _ H) Hk Hl Hc)
    as ((Hk' & _) & Hl' & Hc' & Hp').
  split; [|split].
  - intros A kd HA Hp Hkd.
    destruct (Hl' (edgesOf A) kd) as (b & Hb & Hbk & Hbi & Hbp);
      [apply In_graphEdges; eauto|exact Hkd|].
    apply In_graphEdges in Hb as (B & HB & <-). simpl in *.
    exists (value B). split; [|exact Hbi].
    apply In_lookup in HB as [k HkB]. unfold graphGet.
    assert (Hkeys : NoDup (List.map depId g')).
    { unfold graphEdges in Hk'. rewrite List.map_map in Hk'. exact Hk'. }
    rewrite (indexOf_unique _ g' k B Hkeys HkB (Hbp Hp) Hbk), HkB. reflexivity.
  - intros i A0 A B HA0 HA HB Hnone Hin.
    assert (Hpath : path (value A) = path (value A0)).
    { assert (H0 : graphEdges g !! i = Some (edgesOf A0))
        by (unfold graphEdges; rewrite map_lookup, HA0; reflexivity).
      assert (H1 : graphEdges g' !! i = Some (edgesOf A))
        by (unfold graphEdges; rewrite map_lookup, HA; reflexivity).
      destruct (Forall2_lookup_lr _ _ _ _ _ _ Hp' H0 H1) as [Hpath _]. exact Hpath. }
    assert (HA' : In (edgesOf A) (graphEdges g'))
      by (apply In_graphEdges; exists A; split; [apply In_lookup; eauto|reflexivity]).
    assert (HB' : In (edgesOf B) (graphEdges g'))
      by (apply In_graphEdges; eauto).
    pose proof (Hc' _ _ HA' HB') as Hcount. simpl in Hcount.
    rewrite <- Hpath in Hin. apply (count_occ_In string_dec) in Hin.
    rewrite Hcount in Hin. apply entriesTo_In in Hin as (kd & Hkd & Heq).
    exact (Hnone kd Hkd Heq).
  - intros A kd B HA _ Hkd HB HBk.
    assert (HA' : In (edgesOf A) (graphEdges g')) by (apply In_graphEdges; eauto).
    assert (HB' : In (edgesOf B) (graphEdges g')) by (apply In_graphEdges; eauto).
    pose proof (Hc' _ _ HA' HB') as Hcount. simpl in Hcount.
    apply (count_occ_In string_dec). rewrite Hcount.
    apply entriesTo_In. exists kd. split; [exact Hkd|congruence].
Qed.

(** ** The serializer chain *)

Section ChainProperties.
Variable baseJSBundleCode : SerializerParameters -> result string.
Variable sourceMapString : list Module -> SerializerOptions -> string.
Variable isJscSafeUrl : string -> bool.
Variable toNormalUrl : string -> string.
Variable searchParamsGet : string -> string -> option string.
Variable pathname : string -> string.
Variable getCssSerialAssets : graph -> SerializerOptions -> list SerialAsset.
Variable fileNameFromContents : string -> string -> string.
Variable JSON_parse : string -> result parsedMap.
Variable JSON_stringify_map : parsedMap -> string.
Variable JSON_stringify_assets : list SerialAsset -> string.
Variable relative : string -> string -> string.

Let finalSerializer :=
  getDefaultSerializer baseJSBundleCode sourceMapString isJscSafeUrl toNormalUrl
    searchParamsGet pathname getCssSerialAssets fileNameFromContents JSON_parse
    JSON_stringify_map JSON_stringify_assets relative.

Let createSerializer :=
  createSerializerFromSerialProcessors baseJSBundleCode sourceMapString
    isJscSafeUrl toNormalUrl searchParamsGet pathname getCssSerialAssets
    fileNameFromContents JSON_parse JSON_stringify_map JSON_stringify_assets
    relative.

Lemma fold_plugins_bind (plugins : list SerializerPlugin)
    (acc : result SerializerParameters) :
  fold_left (fun acc f => do p <- acc; f p) plugins acc
  = do p <- acc; fold_left (fun acc f => do p <- acc; f p) plugins (Ok p).
Proof.
  revert acc. induction plugins as [|f plugins IH]; intros acc; simpl.
  - destruct acc; reflexivity.
  - rewrite IH. destruct acc as [p| |]; simpl; [|reflexivity..].
    symmetry. apply IH.
Qed.

Lemma runProcessors_defined processors props :
  runProcessors processors props
  = fold_left (fun acc f => do p <- acc; f p) (definedPlugins processors) (Ok props).
Proof.
  revert props. induction processors as [|[f|] rest IH]; intros props; simpl.
  - reflexivity.
  - rewrite fold_plugins_bind. simpl.
    destruct (f props) as [p'| |]; simpl; [apply IH|reflexivity..].
  - apply IH.
Qed.

(** C8.  The serializer built by [createSerializerFromSerialProcessors]
    runs the plugins of the list in order, each one on the tuple returned
    by the one before it, skips the undefined entries, and applies the
    final serializer to the tuple left by the last plugin. *)
Theorem createSerializer_runs_plugins_in_order
    (processors : list (option SerializerPlugin))
    (originalSerializer : option Serializer) (props : SerializerParameters) :
  createSerializer processors originalSerializer props
  = chainSpec (definedPlugins processors) (finalSerializer originalSerializer) props.
Proof.
  unfold createSerializer, createSerializerFromSerialProcessors, chainSpec.
  rewrite runProcessors_defined. reflexivity.
Qed.

Lemma startsWith_slash (r : string) : startsWith "/" (String.append "/" r) = true.
Proof.
  unfold startsWith. simpl. destruct r; reflexivity.
Qed.

(** C9 (amended).  When the static-export branch emits a source-map
    asset, the asset is made from the source map of the bundle: the map
    that the serializer returned with the code or, when it returned a
    string, the map of [serializeToSourceMap].  The source of the asset is
    that map, parsed and serialized again with its other fields as they
    were and with every entry of [sources] that starts with a slash
    replaced by a slash followed by the path of the entry relative to the
    server root (the project root when no server root is given), which
    starts with a slash again; every other entry is unchanged. *)
Theorem emitted_map_sources_rewritten
    (props : SerializerParameters) (url : string) (includeSourceMaps : bool)
    (jsCode : serialized) (assets : list SerialAsset) (a : SerialAsset) :
  jsAssets sourceMapString pathname fileNameFromContents JSON_parse
           JSON_stringify_map relative props url includeSourceMaps jsCode
    = Ok assets ->
  In a assets ->
  asset_type a = "map" ->
  exists parsed rewritten : parsedMap,
    JSON_parse (match jsCode with
                | BundleString _ => serializeToSourceMap sourceMapString props
                | BundleWithMap _ m => m
                end) = Ok parsed
    /\ asset_source a = JSON_stringify_map rewritten
    /\ otherFields rewritten = otherFields parsed
    /\ Forall2
         (fun v w =>
            (startsWith "/" v = true
             /\ w = String.append "/"
                      (relative (nullish (serverRoot (snd props))
                                         (projectRoot (snd props))) v)
             /\ startsWith "/" w = true)
            \/ (startsWith "/" v = false /\ w = v))
         (sources parsed) (sources rewritten).
Proof.
  destruct props as [[[entryPoint preModules] g] options]. simpl.
  unfold jsAssets.
  set (nonEmptyCode := match jsCode with BundleString "" => false | _ => true end).
  destruct nonEmptyCode; [|intros [= <-] []].
  destruct (includeSourceMaps && truthy (sourceMapUrl options)).
  - destruct (JSON_parse _) as [parsed| |]; simpl; [|discriminate..].
    intros [= <-] [<-|[<-|[]]] Htype; simpl in *; [discriminate|].
    exists parsed, (rewriteSources relative options parsed).
    split; [reflexivity|]. split; [reflexivity|]. split; [reflexivity|].
    unfold rewriteSources; simpl.
    induction (sources parsed) as [|v vs IH]; simpl; constructor; [|exact IH].
    unfold rewriteSource. destruct (startsWith "/" v); [left|right; auto].
    split; [reflexivity|]. split; [reflexivity|apply startsWith_slash].
  - intros [= <-] [<-|[]] Htype; simpl in Htype. discriminate.
Qed.
End ChainProperties.

Lemma emitted_map_sources_rewritten_witness :
  let jsCode := BundleWithMap "console.log(1)" "{sources}" in
  let props : SerializerParameters := ("/srv/app/index.js", [], [], sampleOptions) in
  let mapAsset :=
    {| filename := "_expo/static/js/web/h.js.map"; originFilename := "index.map";
       asset_type := "map"; asset_source := "__prelude__,/src/App.js" |} in
  let assets :=
    [{| filename := "_expo/static/js/web/h.js"; originFilename := "index.js";
        asset_type := "js"; asset_source := "console.log(1)" |}; mapAsset] in
  let sourceMapString := fun (_ : list Module) (_ : SerializerOptions) => "{}" in
  let JSON_parse := fun m : string =>
    if String.eqb m "{sources}" then Ok sampleParsedMap
    else Ok {| sources := []; otherFields := "" |} in
  let JSON_stringify_map := fun m : parsedMap => String.concat "," (sources m) in
  let relative := fun root v : string =>
    substring (S (String.length root)) (String.length v) v in
  jsAssets sourceMapString (fun u => u) (fun _ _ => "h")
           JSON_parse JSON_stringify_map relative
           props "/index.bundle" true jsCode = Ok assets
  /\ In mapAsset assets
  /\ asset_type mapAsset = "map"
  /\ exists parsed rewritten : parsedMap,
       JSON_parse (match jsCode with
                   | BundleString _ => serializeToSourceMap sourceMapString props
                   | BundleWithMap _ m => m
                   end) = Ok parsed
       /\ asset_source mapAsset = JSON_stringify_map rewritten
       /\ otherFields rewritten = otherFields parsed
       /\ Forall2
            (fun v w =>
               (startsWith "/" v = true
                /\ w = String.append "/"
                         (relative (nullish (serverRoot (snd props))
                                            (projectRoot (snd props))) v)
                /\ startsWith "/" w = true)
               \/ (startsWith "/" v = false /\ w = v))
            (sources parsed) (sources rewritten).
Proof.
  intros jsCode props mapAsset assets sourceMapString JSON_parse JSON_stringify_map relative.
  assert (H1 : jsAssets sourceMapString (fun u => u) (fun _ _ => "h")
                 JSON_parse JSON_stringify_map relative
                 props "/index.bundle" true jsCode = Ok assets) by reflexivity.
  assert (H2 : In mapAsset assets) by (simpl; auto).
  assert (H3 : asset_type mapAsset = "map") by reflexivity.
  split; [exact H1|]. split; [exact H2|]. split; [exact H3|].
  exact (emitted_map_sources_rewritten _ _ _ _ _ _ _ _ _ _ _ _ H1 H2 H3).
Defined.

(** C9 (as stated) fails: whatever [path.relative] returns, a source that
    starts with a slash is emitted with a leading slash again. *)
Lemma rewritten_sources_keep_leading_slash :
  ~ (forall (relative : string -> string -> string) (options : SerializerOptions)
            (parsed : parsedMap),
        Forall (fun v => startsWith "/" v = false)
               (sources (rewriteSources relative options parsed))).
Proof.
  intros H.
  specialize (H (fun root v => substring (S (String.length root)) (String.length v) v)
                sampleOptions sampleParsedMap).
  vm_compute in H.
  inversion H as [|? ? _ H']; subst. inversion H' as [|? ? Hv _]; subst.
  discriminate Hv.
Qed.

(** ** The plugin as a stage of the chain *)

(** C10.  The tuple returned by [treeShakeSerializerPlugin] carries the
    entry point, the prepended modules and the options it was given. *)
Theorem treeShakeSerializerPlugin_passes_through
    (generate : string -> program -> result (string * option string))
    (countLines : string -> nat)
    (entryPoint entryPoint' : string) (preModules preModules' : list Module)
    (g g' : graph) (options options' : SerializerOptions) :
  treeShakeSerializerPlugin generate countLines (entryPoint, preModules, g, options)
    = Ok (entryPoint', preModules', g', options') ->
  entryPoint' = entryPoint /\ preModules' = preModules /\ options' = options.
Proof.
  unfold treeShakeSerializerPlugin.
  destruct (treeShake g) as [g1| |]; simpl; [|discriminate..].
  destruct (mapM _ g1) as [g2| |]; simpl; [|discriminate..].
  intros [= -> -> _ ->]. auto.
Qed.

Lemma treeShakeSerializerPlugin_passes_through_witness :
  let generate := fun (_ : string) (_ : program) => Ok ("code", @None string) in
  let countLines := fun _ : string => 1 in
  let regenerated :=
    [{| depId := "/index"; present := true;
        value := {| path := "/index"; dependencies := []; inverseDependencies := [];
                    output := [{| type := "js/module";
                                  data := {| ast := [];
                                             modules := Some {| imports := []; exports := [] |};
                                             code := "code"; lineCount := 1;
                                             map_segments := []; functionMap := None |} |}] |} |}] in
  treeShakeSerializerPlugin generate countLines ("/index", [], entryGraph, sampleOptions)
    = Ok ("/index", [], regenerated, sampleOptions)
  /\ ("/index" = "/index" /\ @nil Module = [] /\ sampleOptions = sampleOptions).
Proof.
  intros generate countLines regenerated.
  assert (H : treeShakeSerializerPlugin generate countLines
                ("/index", [], entryGraph, sampleOptions)
              = Ok ("/index", [], regenerated, sampleOptions)) by reflexivity.
  split; [exact H|].
  exact (treeShakeSerializerPlugin_passes_through _ _ _ _ _ _ _ _ _ _ H).
Defined.

(** ** The pass on concrete graphs *)

(** C1.  [detectCommonJsExportsUsage] answers [true] on the tree of [/b],
    which assigns [module.exports]; the pass nevertheless removes the
    export of [y], which no module imports: the detector is never
    consulted. *)
Theorem commonjs_module_is_pruned :
  detectCommonJsExportsUsage commonJsBody = Ok true
  /\ In (exportConst "y" literal) commonJsBody
  /\ exists g', treeShake commonJsGraph = Ok g'
       /\ treeOf g' 1 0
          = Some [Statement (Node [MemberExpression (Identifier "module" false)
                                                    (Identifier "exports" false);
                                   literal]);
                  exportConst "x" literal].
Proof.
  split; [reflexivity|]. split; [simpl; auto|].
  eexists. split; [vm_compute; reflexivity|reflexivity].
Qed.

(** C2 (as stated) fails: the entry point [/index] has no inverse
    dependency and loses its default export. *)
Lemma entry_point_is_pruned :
  treeOf entryGraph 0 0 = Some [ExportDefaultDeclaration literal]
  /\ (exists e, entryGraph !! 0 = Some e /\ inverseDependencies (value e) = [])
  /\ exists g', treeShake entryGraph = Ok g' /\ treeOf g' 0 0 = Some [].
Proof.
  split; [reflexivity|]. split; [eexists; split; reflexivity|].
  eexists. split; [vm_compute; reflexivity|reflexivity].
Qed.

(** C3 (as stated) fails: [/b] exports [y] through an export list; the
    export survives the pass although no module of the final graph imports
    [y] from [/b]. *)
Lemma export_list_survives_unimported :
  exists g' e,
    treeShake exportListGraph = Ok g'
    /\ g' !! 1 = Some e /\ present e = true
    /\ (exists body, treeOf g' 1 0 = Some body /\ In exportList body)
    /\ isExportUsed g' (depId e) (value e) "y" = false.
Proof.
  eexists. eexists. split; [vm_compute; reflexivity|].
  split; [reflexivity|]. split; [reflexivity|].
  split; [eexists; split; [reflexivity|simpl; auto]|reflexivity].
Qed.

(** C4.  In [import { a as b } from './x'; b;] the binding [b] is
    referenced, yet its specifier is removed, because the test is made on
    the imported name [a]; and a default import makes the specifier filter
    throw. *)
Theorem aliased_import_is_removed :
  (exists g1 g',
      collectAll aliasGraph = Ok g1
      /\ treeOf g1 0 0
         = Some [ImportDeclaration "./x" [ImportSpecifier "a" "b"]; use "b"]
      /\ includes (usedIdentifiers [ImportDeclaration "./x" [ImportSpecifier "a" "b"];
                                    use "b"]) "b" = true
      /\ removeUnusedImports 0 0 g1 = Ok (true, g')
      /\ treeOf g' 0 0 = Some [use "b"])
  /\ (exists g1,
        collectAll defaultImportGraph = Ok g1
        /\ removeUnusedImports 0 0 g1 = Throw TypeError)
  /\ treeShake defaultImportGraph = Throw TypeError.
Proof.
  split; [|split].
  - eexists. eexists. split; [vm_compute; reflexivity|].
    split; [reflexivity|]. split; [reflexivity|].
    split; [vm_compute; reflexivity|reflexivity].
  - eexists. split; [vm_compute; reflexivity|reflexivity].
  - reflexivity.
Qed.

(** C5 (as stated) fails.  In [chainGraph], [/a] imports from [/b] a
    binding that it does not reference, and [/b] imports from [/c].  The pass removes the import
    of [/a] and, [/a] being the last importer of [/b], deletes [/b] from
    [graph.dependencies].  The edge from [/b] to [/c] is gone from the
    graph with [/b], yet it is not unlinked: [/b] keeps its dependency
    entry and stays among the inverse dependencies of [/c]. *)
Lemma deleted_module_stays_listed :
  keyed (graphEdges chainGraph)
  /\ linked (graphEdges chainGraph)
  /\ counted (graphEdges chainGraph)
  /\ exists g' b c,
       treeShake chainGraph = Ok g'
       /\ graphGet g' "/b" = None
       /\ g' !! 1 = Some b /\ present b = false /\ path (value b) = "/b"
       /\ mapGet "./c" (dependencies (value b))
          = Some {| absolutePath := "/c"; data_name := "./c" |}
       /\ graphGet g' "/c" = Some c
       /\ In "/b" (inverseDependencies c).
Proof.
  split; [|split; [|split]].
  - split; [apply distinct_NoDup; reflexivity|].
    split; [apply distinct_NoDup; reflexivity|].
    intros a [<-|[<-|[<-|[<-|[]]]]]; apply distinct_NoDup; reflexivity.
  - intros a kd [<-|[<-|[<-|[<-|[]]]]]; simpl.
    + intros [<-|[<-|[]]].
      * eexists. split; [right; left; reflexivity|]. simpl. repeat split; auto.
      * eexists. split; [right; right; right; left; reflexivity|].
        simpl. repeat split; auto.
    + intros [<-|[]].
      eexists. split; [right; right; left; reflexivity|]. simpl. repeat split; auto.
    + intros [].
    + intros [].
  - intros a b [<-|[<-|[<-|[<-|[]]]]] [<-|[<-|[<-|[<-|[]]]]]; reflexivity.
  - do 3 eexists. split; [vm_compute; reflexivity|].
    split; [reflexivity|]. split; [reflexivity|]. split; [reflexivity|].
    split; [reflexivity|]. split; [reflexivity|]. split; [reflexivity|].
    left. reflexivity.
Qed.

(** The count at work: [/a] is counted twice among the inverse
    dependencies of [/b]; removing the unused import of [./b] takes one
    count away, and [/b] stays in the graph for the import of [./b.js]. *)
Lemma one_count_per_dependency_entry :
  exists g' a b,
    treeShake twoSpecifiersGraph = Ok g'
    /\ graphGet g' "/a" = Some a
    /\ dependencies a = [mkDependency ("./b.js", "/b")]
    /\ graphGet g' "/b" = Some b
    /\ inverseDependencies b = ["/a"].
Proof.
  do 3 eexists. split; [vm_compute; reflexivity|]. repeat split; reflexivity.
Qed.

(** C6.  The pass completes on a graph whose entry point holds a [require]
    call inside an unused export; a second run removes the export [bar] of
    [/x], which the first run kept. *)
Theorem second_run_removes_an_export :
  exists g1 g2,
    treeShake requireInExportGraph = Ok g1
    /\ treeOf g1 1 0 = Some [exportConst "bar" literal]
    /\ treeShake g1 = Ok g2
    /\ treeOf g2 1 0 = Some [].
Proof.
  eexists. eexists. split; [vm_compute; reflexivity|].
  split; [reflexivity|]. split; [vm_compute; reflexivity|reflexivity].
Qed.

(** C7 (as stated) fails: on [import { a, b } from './x'; a;] the first
    iteration removes the specifier [b] and asks for a second iteration,
    yet no edge of the graph is removed. *)
Lemma rerun_without_edge_removal :
  exists g1 g2 g',
    collectAll partialImportGraph = Ok g1
    /\ removeUnusedImports 0 0 g1 = Ok (true, g2)
    /\ edgeCount g2 = edgeCount partialImportGraph
    /\ treeOf g2 0 0 <> treeOf partialImportGraph 0 0
    /\ treeShakeAll 1 partialImportGraph = OutOfFuel
    /\ treeShake partialImportGraph = Ok g'
    /\ edgeCount g' = edgeCount partialImportGraph.
Proof.
  eexists. eexists. eexists. split; [vm_compute; reflexivity|].
  split; [vm_compute; reflexivity|]. split; [reflexivity|].
  split; [discriminate|]. split; [reflexivity|].
  split; [vm_compute; reflexivity|reflexivity].
Qed.

(** ** The general statements on the concrete graphs *)

Lemma entry_module_exports_are_removed_witness :
  exists g' e e' o,
    treeShake exportListGraph = Ok g'
    /\ exportListGraph !! 0 = Some e
    /\ inverseDependencies (value e) = []
    /\ g' !! 0 = Some e'
    /\ present e' = true
    /\ In o (output (value e'))
    /\ In (use "x") (ast (data o))
    /\ ((forall x, isExportUsed g' (depId e') (value e') x = false)
        /\ declaredNames (use "x") = []).
Proof.
  assert (H : exists g' e e' o,
             treeShake exportListGraph = Ok g'
             /\ exportListGraph !! 0 = Some e
             /\ inverseDependencies (value e) = []
             /\ g' !! 0 = Some e'
             /\ present e' = true
             /\ In o (output (value e'))
             /\ In (use "x") (ast (data o))).
  { do 4 eexists. split; [vm_compute; reflexivity|].
    split; [reflexivity|]. split; [reflexivity|]. split; [reflexivity|].
    split; [reflexivity|]. split; [left; reflexivity|]. right. left. reflexivity. }
  destruct H as (g' & e & e' & o & H1 & H2 & H3 & H4 & H5 & H6 & H7).
  exists g', e, e', o. repeat (split; [assumption|]).
  exact (entry_module_exports_are_removed _ _ _ _ _ _ _ _ H1 H2 H3 H4 H5 H6 H7).
Defined.

Lemma export_survives_iff_imported_witness :
  exists g' body e',
    wellFormed exportListGraph
    /\ treeShake exportListGraph = Ok g'
    /\ treeOf exportListGraph 1 0 = Some body
    /\ In (exportConst "x" literal) body
    /\ isImport (exportConst "x" literal) = false
    /\ g' !! 1 = Some e'
    /\ present e' = true
    /\ ((forall E, exportedName (exportConst "x" literal) = Some E ->
           ((exists body', treeOf g' 1 0 = Some body'
                           /\ In (exportConst "x" literal) body')
            <-> importedBy g' e' E))
        /\ (declaredNames (exportConst "x" literal) = [] ->
            exists body', treeOf g' 1 0 = Some body'
                          /\ In (exportConst "x" literal) body')).
Proof.
  assert (H : exists g' body e',
             wellFormed exportListGraph
             /\ treeShake exportListGraph = Ok g'
             /\ treeOf exportListGraph 1 0 = Some body
             /\ In (exportConst "x" literal) body
             /\ isImport (exportConst "x" literal) = false
             /\ g' !! 1 = Some e'
             /\ present e' = true).
  { do 3 eexists. split; [apply wellFormedb_wellFormed; reflexivity|].
    split; [vm_compute; reflexivity|]. split; [reflexivity|].
    split; [right; left; reflexivity|]. split; [reflexivity|]. split; reflexivity. }
  destruct H as (g' & body & e' & H1 & H2 & H3 & H4 & H5 & H6 & H7).
  exists g', body, e'. repeat (split; [assumption|]).
  exact (export_survives_iff_imported _ _ _ _ _ _ _ _ H1 H2 H3 H4 H5 H6 H7).
Defined.

Lemma treeShakeAll_terminates_witness :
  importSize partialImportGraph < 5
  /\ (terminated (treeShakeAll 5 partialImportGraph) = true
      /\ treeShakeAll 5 partialImportGraph = treeShake partialImportGraph
      /\ (forall i j g',
             removeUnusedImports i j partialImportGraph = Ok (true, g') ->
             importSize g' < importSize partialImportGraph)).
Proof.
  assert (H : importSize partialImportGraph < 5) by (vm_compute; lia).
  split; [exact H|]. exact (treeShakeAll_terminates partialImportGraph 5 H).
Defined.

Lemma edges_consistent_after_pruning_witness :
  exists g',
    keyed (graphEdges chainGraph)
    /\ linked (graphEdges chainGraph)
    /\ counted (graphEdges chainGraph)
    /\ treeShake chainGraph = Ok g'
    /\ ((forall A kd,
            In A g' -> present A = true -> In kd (dependencies (value A)) ->
            exists B, graphGet g' (absolutePath (snd kd)) = Some B
                      /\ In (path (value A)) (inverseDependencies B))
        /\ (forall i A0 A B,
               chainGraph !! i = Some A0 -> g' !! i = Some A -> In B g' ->
               (forall kd, In kd (dependencies (value A)) ->
                           absolutePath (snd kd) <> depId B) ->
               ~ In (path (value A0)) (inverseDependencies (value B)))
        /\ (forall A kd B,
               In A g' -> present A = false -> In kd (dependencies (value A)) ->
               In B g' -> depId B = absolutePath (snd kd) ->
               In (path (value A)) (inverseDependencies (value B)))).
Proof.
  assert (H : exists g',
             keyed (graphEdges chainGraph)
             /\ linked (graphEdges chainGraph)
             /\ counted (graphEdges chainGraph)
             /\ treeShake chainGraph = Ok g').
  { eexists. split; [|split; [|split; [|vm_compute; reflexivity]]].
    - split; [apply distinct_NoDup; reflexivity|].
      split; [apply distinct_NoDup; reflexivity|].
      intros a [<-|[<-|[<-|[<-|[]]]]]; apply distinct_NoDup; reflexivity.
    - intros a kd [<-|[<-|[<-|[<-|[]]]]]; simpl.
      + intros [<-|[<-|[]]].
        * eexists. split; [right; left; reflexivity|]. simpl. repeat split; auto.
        * eexists. split; [right; right; right; left; reflexivity|].
          simpl. repeat split; auto.
      + intros [<-|[]].
        eexists. split; [right; right; left; reflexivity|]. simpl. repeat split; auto.
      + intros [].
      + intros [].
    - intros a b [<-|[<-|[<-|[<-|[]]]]] [<-|[<-|[<-|[<-|[]]]]]; reflexivity. }
  destruct H as (g' & H1 & H2 & H3 & H4).
  exists g'. repeat (split; [assumption|]).
  exact (edges_consistent_after_pruning _ _ _ H1 H2 H3 H4).
Defined.

(** * Further properties of the code *)

(** ** [collectImportExports] *)

Lemma getGraphId_Ok m v k :
  getGraphId m v = Ok k ->
  k <> ""
  /\ exists depKey dep, In (depKey, dep) (dependencies m)
       /\ data_name dep = v /\ absolutePath dep = k.
Proof.
  unfold getGraphId.
  destruct (List.find _ _) as [dep|] eqn:Hf; [|discriminate].
  destruct (String.eqb_spec (absolutePath dep) "") as [He|Hne]; [discriminate|].
  intros [= <-]. split; [exact Hne|].
  apply find_some in Hf as [Hin Hname]. apply in_map_iff in Hin as ([depKey d] & <- & Hin).
  exists depKey, d. simpl in *. apply String.eqb_eq in Hname. auto.
Qed.

Lemma requireVisitor_Ok m e items it :
  requireVisitor m e = Ok items -> In it items ->
  cjs it = true /\ specifiers it = [] /\ getGraphId m (source it) = Ok (key it)
  /\ exists callee rest,
       e = CallExpression callee (StringLiteral (source it) :: rest)
       /\ hasName callee "require" = true.
Proof.
  destruct e as [x b|v|o p|callee args|cs]; simpl; try (intros [= <-] []).
  destruct (hasName callee "require") eqn:Hn; [|intros [= <-] []].
  destruct args as [|[x b|v|o p|c a|cs] rest]; try discriminate; try (intros [= <-] []).
  destruct (getGraphId m v) as [k| |] eqn:Hk; simpl; [|discriminate..].
  intros [= <-] [<-|[]]. simpl. repeat split; auto. eauto.
Qed.

Lemma collectStatement_Ok m s items it :
  collectStatement m s = Ok items -> In it items ->
  getGraphId m (source it) = Ok (key it)
  /\ (if cjs it
      then specifiers it = []
           /\ exists callee rest,
                hasName callee "require" = true
                /\ In (CallExpression callee (StringLiteral (source it) :: rest))
                      (statementNodes s)
      else exists specs,
             s = ImportDeclaration (source it) specs
             /\ specifiers it = List.map specifierRecordOf specs).
Proof.
  assert (Hother : forall rs, mapM (requireVisitor m) (statementNodes s) = Ok rs ->
             In it (concat rs) ->
             getGraphId m (source it) = Ok (key it)
             /\ (if cjs it
                 then specifiers it = []
                      /\ exists callee rest,
                           hasName callee "require" = true
                           /\ In (CallExpression callee (StringLiteral (source it) :: rest))
                                 (statementNodes s)
                 else exists specs,
                        s = ImportDeclaration (source it) specs
                        /\ specifiers it = List.map specifierRecordOf specs)).
  { intros rs Hrs Hin. apply in_concat in Hin as (r & Hr & Hit).
    apply mapM_Ok in Hrs.
    destruct (Forall2_right_In _ _ _ Hrs r Hr) as (node & Hnode & Hv).
    destruct (requireVisitor_Ok _ _ _ _ Hv Hit) as (Hc & Hs & Hk & callee & rest & -> & Hn).
    split; [exact Hk|]. rewrite Hc. split; [exact Hs|]. eauto. }
  destruct s as [src specs|d|d sp|b]; simpl.
  - destruct (getGraphId m src) as [k| |] eqn:Hk; simpl; [|discriminate..].
    intros [= <-] [<-|[]]. simpl. split; [exact Hk|eauto].
  - intros H. apply bind_Ok in H as (rs & Hrs & [= <-]). apply Hother. exact Hrs.
  - intros H. apply bind_Ok in H as (rs & Hrs & [= <-]). apply Hother. exact Hrs.
  - intros H. apply bind_Ok in H as (rs & Hrs & [= <-]). apply Hother. exact Hrs.
Qed.

Lemma collectProgram_Ok m body imps :
  collectProgram m body = Ok imps ->
  (forall src specs, In (ImportDeclaration src specs) body ->
     exists k, getGraphId m src = Ok k
       /\ In {| source := src; key := k;
                specifiers := List.map specifierRecordOf specs; cjs := false |} imps)
  /\ (forall it, In it imps ->
        getGraphId m (source it) = Ok (key it)
        /\ (if cjs it
            then specifiers it = []
                 /\ exists callee rest,
                      hasName callee "require" = true
                      /\ In (CallExpression callee (StringLiteral (source it) :: rest))
                            (flat_map statementNodes body)
            else exists specs,
                   In (ImportDeclaration (source it) specs) body
                   /\ specifiers it = List.map specifierRecordOf specs)).
Proof.
  unfold collectProgram. intros H. apply bind_Ok in H as (rs & Hrs & [= <-]).
  apply mapM_Ok in Hrs. split.
  - intros src specs Hin.
    apply In_lookup in Hin as [n Hn].
    destruct (Forall2_lookup_l _ _ _ _ _ Hrs Hn) as (r & Hr & Hs).
    simpl in Hs. destruct (getGraphId m src) as [k| |] eqn:Hk; simpl in Hs; [|discriminate..].
    injection Hs as <-. exists k. split; [reflexivity|].
    apply in_concat. eexists. split; [apply In_lookup; eauto|]. left. reflexivity.
  - intros it Hin. apply in_concat in Hin as (r & Hr & Hit).
    destruct (Forall2_right_In _ _ _ Hrs r Hr) as (s & Hs & Hc).
    destruct (collectStatement_Ok _ _ _ _ Hc Hit) as [Hk Hkind]. split; [exact Hk|].
    destruct (cjs it).
    + destruct Hkind as (Hsp & callee & rest & Hn & Hnode). split; [exact Hsp|].
      exists callee, rest. split; [exact Hn|]. apply in_flat_map. eauto.
    + destruct Hkind as (specs & -> & Hsp). eauto.
Qed.

(** X1.  When [collectImportExports] succeeds on a module it leaves the
    trees as they are and stores, for each output, records that match the
    tree: one record for every import declaration, with the specifiers of
    the declaration; every record without the [cjs] mark comes from an
    import declaration, every record with it from a call of [require] on
    a string literal; the key of a record is the absolute path of a
    dependency that the module lists under the name of the source; and
    the list of recorded exports is empty. *)
Theorem collected_records_match_the_tree m m' j o' :
  collectImportExports m = Ok m' -> output m' !! j = Some o' ->
  exists o imps,
    output m !! j = Some o
    /\ ast (data o') = ast (data o)
    /\ modules (data o') = Some {| imports := imps; exports := [] |}
    /\ (forall src specs, In (ImportDeclaration src specs) (ast (data o)) ->
          exists k, getGraphId m src = Ok k
            /\ In {| source := src; key := k;
                     specifiers := List.map specifierRecordOf specs;
                     cjs := false |} imps)
    /\ (forall it, In it imps ->
          getGraphId m (source it) = Ok (key it)
          /\ (if cjs it
              then specifiers it = []
                   /\ exists callee rest,
                        hasName callee "require" = true
                        /\ In (CallExpression callee (StringLiteral (source it) :: rest))
                              (flat_map statementNodes (ast (data o)))
              else exists specs,
                     In (ImportDeclaration (source it) specs) (ast (data o))
                     /\ specifiers it = List.map specifierRecordOf specs)).
Proof.
  unfold collectImportExports. intros H Hj.
  apply bind_Ok in H as (os & Hos & [= <-]). simpl in Hj.
  apply mapM_Ok in Hos.
  destruct (Forall2_lookup_r _ _ _ _ _ Hos Hj) as (o & Ho & Hc).
  unfold collectOutput in Hc. apply bind_Ok in Hc as (imps & Himps & [= <-]).
  exists o, imps. split; [exact Ho|]. split; [reflexivity|]. split; [reflexivity|].
  apply collectProgram_Ok. exact Himps.
Qed.

Lemma collectProgram_module m m' body :
  dependencies m' = dependencies m -> path m' = path m ->
  collectProgram m' body = collectProgram m body.
Proof.
  intros Hd Hp. unfold collectProgram. f_equal. apply mapM_ext.
  intros s. apply collectStatement_module; assumption.
Qed.

Lemma collectImportExports_fixed m m' :
  collectImportExports m = Ok m' -> collectImportExports m' = Ok m'.
Proof.
  unfold collectImportExports. intros H.
  apply bind_Ok in H as (os & Hos & [= <-]). simpl.
  assert (mapM (collectOutput (set_output os m)) os = Ok os) as ->; [|reflexivity].
  apply mapM_Forall2. apply Forall2_eq_same. intros o' Ho'.
  apply mapM_Ok in Hos.
  destruct (Forall2_right_In _ _ _ Hos o' Ho') as (o & _ & Hc).
  unfold collectOutput in *. apply bind_Ok in Hc as (imps & Himps & [= <-]). simpl.
  rewrite (collectProgram_module m (set_output os m)) by reflexivity.
  rewrite Himps. reflexivity.
Qed.

(** X2.  Collecting twice is collecting once: on the module that
    [collectImportExports] returns, [collectImportExports] succeeds and
    returns the same module. *)
Theorem collectImportExports_idempotent m m' :
  collectImportExports m = Ok m' -> collectImportExports m' = Ok m'.
Proof. apply collectImportExports_fixed. Qed.

(** ** [detectCommonJsExportsUsage] *)

Lemma callVisitor_Throw e err :
  callVisitor e = Throw err ->
  err = TypeError
  /\ exists o p, e = CallExpression (MemberExpression o p) []
       /\ hasName o "Object" = true
       /\ (hasName p "assign" = true \/ hasName p "defineProperties" = true).
Proof.
  destruct e as [x b|v|o p|callee args|cs]; simpl; try discriminate.
  destruct callee as [x b|v|o p|c a|cs]; try discriminate.
  destruct (hasName o "Object") eqn:Ho; simpl; [|discriminate].
  destruct (hasName p "assign") eqn:Ha; simpl.
  - destruct args as [|[x b|v|o' p'|c a|cs] rest]; try discriminate.
    intros [= <-]. split; [reflexivity|]. eauto 10.
  - destruct (hasName p "defineProperties") eqn:Hd; [|discriminate].
    destruct args as [|[x b|v|o' p'|c a|cs] rest]; try discriminate.
    intros [= <-]. split; [reflexivity|]. eauto 10.
Qed.

Lemma callVisitor_terminated e : callVisitor e <> OutOfFuel.
Proof.
  destruct e as [x b|v|o p|callee args|cs]; simpl; try discriminate.
  destruct callee as [x b|v|o p|c a|cs]; try discriminate.
  destruct (hasName o "Object" && _); [|discriminate].
  destruct args as [|[x b|v|o' p'|c a|cs] rest]; discriminate.
Qed.

Lemma mapM_Throw {A B : Type} (f : A -> result B) (l : list A) (err : error) :
  mapM f l = Throw err -> exists x, In x l /\ f x = Throw err.
Proof.
  induction l as [|x l IH]; simpl; [discriminate|].
  destruct (f x) as [y|e|] eqn:Hx; simpl; [|intros [= <-]; eauto|discriminate].
  destruct (mapM f l) as [ys|e|]; simpl; [discriminate| |discriminate].
  intros [= <-]. destruct (IH eq_refl) as (x' & Hin & Hx'). eauto.
Qed.

Lemma mapM_not_Ok {A B : Type} (f : A -> result B) (l : list A) (x : A) (l' : list B) :
  In x l -> mapM f l = Ok l' -> exists y, f x = Ok y.
Proof.
  intros Hin H. apply mapM_Ok in H. apply In_lookup in Hin as [n Hn].
  destruct (Forall2_lookup_l _ _ _ _ _ H Hn) as (y & _ & Hy). eauto.
Qed.

Lemma detector_throws_iff body :
  (exists err, detectCommonJsExportsUsage body = Throw err)
  <-> exists o p,
        In (CallExpression (MemberExpression o p) []) (flat_map statementNodes body)
        /\ hasName o "Object" = true
        /\ (hasName p "assign" = true \/ hasName p "defineProperties" = true).
Proof.
  unfold detectCommonJsExportsUsage. split.
  - intros [err H].
    destruct (mapM detectNode _) as [bs|e|] eqn:Hm; simpl in H; [discriminate| |discriminate].
    apply mapM_Throw in Hm as (node & Hin & Hnode).
    unfold detectNode in Hnode.
    destruct (callVisitor node) as [c|e'|] eqn:Hc; simpl in Hnode; [discriminate| |discriminate].
    apply callVisitor_Throw in Hc as (_ & o & p & -> & Ho & Hp). eauto.
  - intros (o & p & Hin & Ho & Hp).
    destruct (mapM detectNode _) as [bs|e|] eqn:Hm; simpl.
    + destruct (mapM_not_Ok _ _ _ _ Hin Hm) as [y Hy].
      unfold detectNode in Hy. simpl in Hy. rewrite Ho in Hy.
      destruct Hp as [Hp|Hp]; rewrite Hp in Hy; simpl in Hy;
        rewrite ?orb_true_r in Hy; discriminate.
    + eauto.
    + exfalso. revert Hm. clear.
      induction (flat_map statementNodes body) as [|x l IH]; simpl; [discriminate|].
      unfold detectNode at 1. destruct (callVisitor x) as [c|e|] eqn:Hc; simpl.
      * destruct (mapM detectNode l); simpl; [discriminate|discriminate|auto].
      * discriminate.
      * destruct (callVisitor_terminated _ Hc).
Qed.

(** X3.  A tree that holds a member expression on [module.exports], or
    any member expression on [exports], is never passed as free of
    CommonJS exports: [detectCommonJsExportsUsage] answers [true] on it,
    unless it throws. *)
Theorem detector_reports_exports_members body o p :
  In (MemberExpression o p) (flat_map statementNodes body) ->
  (hasName o "module" = true /\ hasName p "exports" = true)
  \/ hasName o "exports" = true ->
  detectCommonJsExportsUsage body = Ok true
  \/ detectCommonJsExportsUsage body = Throw TypeError.
Proof.
  intros Hin Hname. unfold detectCommonJsExportsUsage.
  destruct (mapM detectNode _) as [bs|e|] eqn:Hm; simpl.
  - left. f_equal. apply existsb_exists. exists true. split; [|reflexivity].
    apply mapM_Ok in Hm. apply In_lookup in Hin as [n Hn].
    destruct (Forall2_lookup_l _ _ _ _ _ Hm Hn) as (b & Hb & Hd).
    apply In_lookup. exists n. rewrite Hb. f_equal.
    unfold detectNode in Hd. simpl in Hd. injection Hd as <-.
    destruct Hname as [[-> ->]| ->]; simpl; rewrite ?orb_true_r; reflexivity.
  - right. f_equal. apply mapM_Throw in Hm as (node & _ & Hnode).
    unfold detectNode in Hnode.
    destruct (callVisitor node) as [c|e'|] eqn:Hc; simpl in Hnode; [discriminate| |discriminate].
    injection Hnode as <-. apply callVisitor_Throw in Hc as [-> _]. reflexivity.
  - exfalso. revert Hm. clear.
    induction (flat_map statementNodes body) as [|x l IH]; simpl; [discriminate|].
    unfold detectNode at 1. destruct (callVisitor x) as [c|e|] eqn:Hc; simpl.
    + destruct (mapM detectNode l); simpl; [discriminate|discriminate|auto].
    + discriminate.
    + destruct (callVisitor_terminated _ Hc).
Qed.

Lemma detectCommonJsExportsUsage_Throw body err :
  detectCommonJsExportsUsage body = Throw err -> err = TypeError.
Proof.
  unfold detectCommonJsExportsUsage.
  destruct (mapM detectNode _) as [bs|e|] eqn:Hm; simpl; [discriminate| |discriminate].
  intros [= <-]. apply mapM_Throw in Hm as (node & Hin & Hnode).
  unfold detectNode in Hnode.
  destruct (callVisitor node) as [c|e'|] eqn:Hc; simpl in Hnode; [discriminate| |discriminate].
  injection Hnode as <-. apply callVisitor_Throw in Hc as [-> _]. reflexivity.
Qed.

(** X4.  [detectCommonJsExportsUsage] throws exactly on the trees that hold
    a call of [Object.assign] or [Object.defineProperties] without
    arguments, where it reads the type of a first argument that is not
    there; what it throws is a [TypeError]. *)
Theorem detector_throws_on_call_without_arguments body :
  detectCommonJsExportsUsage body = Throw TypeError
  <-> exists o p,
        In (CallExpression (MemberExpression o p) []) (flat_map statementNodes body)
        /\ hasName o "Object" = true
        /\ (hasName p "assign" = true \/ hasName p "defineProperties" = true).
Proof.
  rewrite <- detector_throws_iff. split; [eauto|].
  intros [err H]. rewrite H. f_equal. eapply detectCommonJsExportsUsage_Throw; eauto.
Qed.

(** ** [treeShakeExports] *)

Lemma shakeDeclarators_count used ds r :
  shakeDeclarators used ds r
  = match unusedNames used (identifierNames ds), r with
    | [], _ => Ok r
    | [_], false => Ok true
    | _, _ => Throw RemovedPathError
    end.
Proof.
  revert r. induction ds as [|d ds IH]; intros r; simpl; [reflexivity|].
  unfold identifierNames in *. simpl. destruct (id d) as [x b|p]; simpl.
  - unfold unusedNames in *. simpl. destruct (used x); simpl; [apply IH|].
    destruct r; simpl.
    + destruct (List.filter _ _); reflexivity.
    + rewrite IH. destruct (List.filter _ _) as [|y [|z l]]; reflexivity.
  - apply IH.
Qed.

(** X5.  On [export const a = ..., b = ...] the export visitor removes the
    statement once for every declared identifier that is not in use: the
    statement stays when all of them are in use, goes (with the
    declarators that are in use) when one is not, and the second removal
    of the same path throws when two or more are not. *)
Theorem exported_declarators_removed_once used ds specs :
  shakeStatement used (ExportNamedDeclaration (Some (VariableDeclaration ds)) specs)
  = match unusedNames used (identifierNames ds) with
    | [] => Ok false
    | [_] => Ok true
    | _ :: _ :: _ => Throw RemovedPathError
    end.
Proof.
  simpl. rewrite shakeDeclarators_count.
  destruct (unusedNames used (identifierNames ds)) as [|x [|y l]]; reflexivity.
Qed.

Lemma shakeProgram_filter used body body' :
  shakeProgram used body = Ok body' ->
  body' = List.filter (fun s => forallb used (declaredNames s)) body.
Proof.
  revert body'. induction body as [|s body IH]; intros body'; simpl; [intros [= <-]; reflexivity|].
  intros H. apply bind_Ok in H as (removed & Hs & H). apply bind_Ok in H as (rest & Hrest & [= <-]).
  rewrite <- (IH rest Hrest).
  destruct (forallb used (declaredNames s)) eqn:Hall.
  - assert (shakeStatement used s = Ok false) as Hf.
    { apply shakeStatement_declared. apply forallb_forall. exact Hall. }
    rewrite Hf in Hs. injection Hs as <-. reflexivity.
  - destruct removed; [reflexivity|].
    pose proof (proj1 (shakeStatement_declared _ _) Hs) as Hd.
    apply (proj2 (forallb_forall _ _)) in Hd. congruence.
Qed.

(** X6.  When [treeShakeExports] succeeds on the module of a slot, the
    graph changes at that slot only, and there only in the trees: every
    tree of the module keeps, in order, the statements all of whose
    declared export names are in use, and loses the others. *)
Theorem export_step_filters_unused_exports i g g' e :
  treeShakeExports i g = Ok g' -> g !! i = Some e ->
  g' = <[i := set_value
              (set_output
                 (List.map
                    (fun o => set_ast
                                (List.filter
                                   (fun s => forallb (isExportUsed g (depId e) (value e))
                                                     (declaredNames s))
                                   (ast (data o))) o)
                    (output (value e)))
                 (value e)) e]> g.
Proof.
  intros H He. apply treeShakeExports_Ok in H as (e0 & os & He0 & Hos & ->).
  rewrite He in He0. injection He0 as <-. do 3 f_equal.
  symmetry.
  induction Hos as [|o o' l l' Ho _ IH]; simpl; [reflexivity|]. f_equal; [|exact IH].
  unfold shakeOutput in Ho. apply bind_Ok in Ho as (a & Ha & [= <-]).
  rewrite (shakeProgram_filter _ _ _ Ha). reflexivity.
Qed.

(** X7.  [treeShakeExports] is idempotent: on the graph it returns, a
    second run on the same module succeeds and changes nothing. *)
Theorem export_step_is_idempotent i g g' :
  treeShakeExports i g = Ok g' -> treeShakeExports i g' = Ok g'.
Proof. apply treeShakeExports_idempotent. Qed.

(** ** [removeUnusedImports] *)

Lemma filterSpecifiers_nil_unused specs specs' :
  filterSpecifiers [] specs = Ok specs' ->
  specs' = specs /\ forallb isImportSpecifier specs = true.
Proof.
  revert specs'. induction specs as [|[imported local| |] specs IH]; intros specs'; simpl;
    [intros [= <-]; auto| |discriminate..].
  destruct (filterSpecifiers [] specs) as [rest| |]; simpl; [|discriminate..].
  intros [= <-]. destruct (IH rest eq_refl) as [-> Hall]. auto.
Qed.

Lemma pruneImports_false_imports i body g body' g' :
  pruneImports i [] body g false = Ok (body', g', false) ->
  forall src specs, In (ImportDeclaration src specs) body ->
    specs <> [] /\ forallb isImportSpecifier specs = true.
Proof.
  revert g body' g'. induction body as [|s body IH]; intros g body' g' H src specs; [intros []|].
  simpl in H. destruct s as [src0 specs0|d|d sp|b].
  2-4: apply bind_Ok in H as ([[rest g1] r1] & Hrest & H); injection H as <- <- ->;
       intros [Heq|Hin]; [discriminate|eapply IH; eauto].
  apply bind_Ok in H as (specs' & Hf & H).
  apply filterSpecifiers_nil_unused in Hf as [-> Hall].
  destruct specs0 as [|sp0 specs0].
  - apply bind_Ok in H as (g1 & _ & H). apply pruneImports_flag in H. discriminate.
  - apply bind_Ok in H as ([[rest g1] r1] & Hrest & H). injection H as <- <- ->.
    intros [[= <- <-]|Hin]; [split; [discriminate|exact Hall]|eapply IH; eauto].
Qed.

Lemma removeUnusedImports_false_imports i j g g' e o :
  removeUnusedImports i j g = Ok (false, g') ->
  g !! i = Some e -> output (value e) !! j = Some o ->
  unusedImports (ast (data o)) = []
  /\ forall src specs, In (ImportDeclaration src specs) (ast (data o)) ->
       specs <> [] /\ forallb isImportSpecifier specs = true.
Proof.
  intros H He Ho.
  apply removeUnusedImports_Ok in H as (e0 & o0 & body' & g1 & He0 & Ho0 & Hp & _).
  rewrite He in He0. injection He0 as <-. rewrite Ho in Ho0. injection Ho0 as <-.
  destruct (unusedImports (ast (data o))) as [|u unused] eqn:Hu.
  - split; [reflexivity|]. simpl in Hp. eapply pruneImports_false_imports; eauto.
  - simpl in Hp. apply pruneImports_flag in Hp. discriminate.
Qed.

Lemma filterSpecifiers_Ok unused specs specs' :
  filterSpecifiers unused specs = Ok specs' ->
  specs' = List.filter (keepSpecifier unused) specs
  /\ forallb isImportSpecifier specs = true.
Proof.
  revert specs'. induction specs as [|[imported local| |] specs IH]; intros specs'; simpl;
    [intros [= <-]; auto| |discriminate..].
  intros H. apply bind_Ok in H as (rest & Hrest & [= <-]).
  destruct (IH rest Hrest) as [-> Hall]. split; [|exact Hall].
  change (keepSpecifier unused (ImportSpecifier imported local))
    with (negb (includes unused imported)).
  destruct (includes unused imported); reflexivity.
Qed.

Lemma pruneImports_Ok i unused body g r body' g' r' :
  pruneImports i unused body g r = Ok (body', g', r') ->
  body' = prunedBody unused body
  /\ forall src specs, In (ImportDeclaration src specs) body ->
       forallb isImportSpecifier specs = true.
Proof.
  revert g r body' g' r'. induction body as [|s body IH]; intros g r body' g' r' H.
  - simpl in H. injection H as <- _ _. split; [reflexivity|intros ? ? []].
  - simpl in H. destruct s as [src0 specs0|d|d sp|b].
    2-4: apply bind_Ok in H as ([[rest g1] r1] & Hrest & H); injection H as <- _ _;
         destruct (IH _ _ _ _ _ Hrest) as [-> Hall]; (split; [reflexivity|]);
         intros src specs [Heq|Hin]; [discriminate|eauto].
    apply bind_Ok in H as (specs' & Hf & H).
    apply filterSpecifiers_Ok in Hf as [-> Hspecs].
    unfold prunedBody. simpl. destruct (List.filter (keepSpecifier unused) specs0) as [|sp l].
    + apply bind_Ok in H as (g1 & _ & H). destruct (IH _ _ _ _ _ H) as [-> Hall].
      split; [reflexivity|]. intros src specs [[= <- <-]|Hin]; eauto.
    + apply bind_Ok in H as ([[rest g1] r1] & Hrest & H). injection H as <- _ _.
      destruct (IH _ _ _ _ _ Hrest) as [-> Hall].
      split; [reflexivity|]. intros src specs [[= <- <-]|Hin]; eauto.
Qed.

Lemma removeUnusedImports_tree i j g b g' body :
  removeUnusedImports i j g = Ok (b, g') -> treeOf g i j = Some body ->
  graphTrees g' !! i
  = option_map (fun ts => <[j := prunedBody (unusedImports body) body]> ts)
               (graphTrees g !! i)
  /\ (forall k, k <> i -> graphTrees g' !! k = graphTrees g !! k)
  /\ forall src specs, In (ImportDeclaration src specs) body ->
       forallb isImportSpecifier specs = true.
Proof.
  intros H Ht. apply removeUnusedImports_Ok in H as (e & o & body' & g1 & Hi & Hj & Hp & ->).
  unfold treeOf in Ht. rewrite Hi, Hj in Ht. injection Ht as <-.
  pose proof (pruneImports_size _ _ _ _ _ _ _ _ Hp) as (Htrees & _).
  destruct (pruneImports_Ok _ _ _ _ _ _ _ _ Hp) as [-> Hall].
  assert (exists e1, g1 !! i = Some e1 /\ moduleTrees (value e1) = moduleTrees (value e))
    as (e1 & Hi1 & He1).
  { assert (graphTrees g1 !! i = Some (moduleTrees (value e))) as Hl.
    { rewrite Htrees, graphTrees_lookup, Hi. reflexivity. }
    rewrite graphTrees_lookup in Hl. destruct (g1 !! i) as [e1|]; [|discriminate].
    exists e1. split; [reflexivity|]. congruence. }
  rewrite (graphTrees_setAst _ _ _ _ _ Hi1), He1, Htrees.
  assert (i < length (graphTrees g)) as Hlt.
  { unfold graphTrees. rewrite length_map. eapply lookup_lt_Some; eauto. }
  split; [|split; [|exact Hall]].
  - rewrite list_lookup_insert_eq by exact Hlt.
    rewrite graphTrees_lookup, Hi. reflexivity.
  - intros k Hk. apply list_lookup_insert_ne. auto.
Qed.

(** X8.  When [removeUnusedImports] succeeds on a tree, the tree it leaves
    is the tree it found without the import specifiers whose imported
    name is among the unused imports and without the import declarations
    that this leaves with no specifier; every other tree of the graph is
    as it was. *)
Theorem import_step_prunes_unused_specifiers i j g b g' body :
  removeUnusedImports i j g = Ok (b, g') -> treeOf g i j = Some body ->
  treeOf g' i j = Some (prunedBody (unusedImports body) body)
  /\ forall i' j', (i', j') <> (i, j) -> treeOf g' i' j' = treeOf g i' j'.
Proof.
  intros H Ht. destruct (removeUnusedImports_tree _ _ _ _ _ _ H Ht) as (Hi & Hne & _).
  rewrite treeOf_trees in Ht.
  destruct (graphTrees g !! i) as [ts|] eqn:Hts; [|discriminate]. simpl in Hi.
  split.
  - rewrite treeOf_trees, Hi. apply list_lookup_insert_eq. eapply lookup_lt_Some; eauto.
  - intros i' j' Hij. rewrite !treeOf_trees.
    destruct (Nat.eq_dec i' i) as [->|Hi'].
    + rewrite Hi, Hts. apply list_lookup_insert_ne. congruence.
    + rewrite (Hne i' Hi'). reflexivity.
Qed.

(** X9.  [removeUnusedImports] throws on every tree that holds an import
    declaration with a default or a namespace specifier: the filter of
    the specifiers reads [specifier.imported.name], and such a specifier
    has no [imported]. *)
Theorem import_step_throws_on_default_import i j g body src specs sp :
  treeOf g i j = Some body ->
  In (ImportDeclaration src specs) body -> In sp specs ->
  isImportSpecifier sp = false ->
  exists err, removeUnusedImports i j g = Throw err.
Proof.
  intros Ht Hin Hsp Hkind.
  pose proof (removeUnusedImports_terminated i j g) as Hterm.
  destruct (removeUnusedImports i j g) as [[b g']|err|] eqn:H; [|eauto|discriminate].
  exfalso. destruct (removeUnusedImports_tree _ _ _ _ _ _ H Ht) as (_ & _ & Hall).
  specialize (Hall src specs Hin). rewrite forallb_forall in Hall.
  rewrite (Hall sp Hsp) in Hkind. discriminate.
Qed.

Lemma pruneImports_no_bare i body g body' g' r' :
  pruneImports i [] body g false = Ok (body', g', r') ->
  (forall src, ~ In (ImportDeclaration src []) body) -> r' = false.
Proof.
  revert g body' g' r'. induction body as [|s body IH]; intros g body' g' r' H Hbare.
  - simpl in H. injection H as _ _ <-. reflexivity.
  - simpl in H. destruct s as [src0 specs0|d|d sp|b].
    2-4: apply bind_Ok in H as ([[rest g1] r1] & Hrest & H); injection H as _ _ <-;
         eapply IH; [exact Hrest|]; intros src Hin; apply (Hbare src); right; exact Hin.
    apply bind_Ok in H as (specs' & Hf & H).
    destruct specs' as [|sp l].
    + exfalso. apply (Hbare src0). left. f_equal.
      revert Hf. clear. destruct specs0 as [|[a b| |] l]; simpl; [reflexivity| |discriminate..].
      destruct (filterSpecifiers [] l); simpl; discriminate.
    + apply bind_Ok in H as ([[rest g1] r1] & Hrest & H). injection H as _ _ <-.
      eapply IH; [exact Hrest|]. intros src Hin. apply (Hbare src). right. exact Hin.
Qed.

(** X10.  [removeUnusedImports] answers that nothing was removed exactly
    when the tree has no unused import and no import declaration without
    specifiers, and in that case it leaves the graph as it is. *)
Theorem import_step_reports_no_removal i j g b g' body :
  removeUnusedImports i j g = Ok (b, g') -> treeOf g i j = Some body ->
  (b = false
   <-> unusedImports body = [] /\ forall src, ~ In (ImportDeclaration src []) body)
  /\ (b = false -> g' = g).
Proof.
  intros H Ht. split; [split|].
  - intros ->. unfold treeOf in Ht.
    destruct (g !! i) as [e|] eqn:He; [|discriminate].
    destruct (output (value e) !! j) as [o|] eqn:Ho; [|discriminate]. injection Ht as <-.
    destruct (removeUnusedImports_false_imports _ _ _ _ _ _ H He Ho) as [Hu Hall].
    split; [exact Hu|]. intros src Hin. destruct (Hall src [] Hin) as [Hne _]. congruence.
  - intros [Hu Hbare]. unfold treeOf in Ht.
    destruct (g !! i) as [e|] eqn:He; [|discriminate].
    destruct (output (value e) !! j) as [o|] eqn:Ho; [|discriminate]. injection Ht as <-.
    apply removeUnusedImports_Ok in H as (e0 & o0 & body' & g1 & He0 & Ho0 & Hp & _).
    rewrite He in He0. injection He0 as <-. rewrite Ho in Ho0. injection Ho0 as <-.
    rewrite Hu in Hp. simpl in Hp. eapply pruneImports_no_bare; eauto.
  - intros ->. apply removeUnusedImports_false in H as [-> _]. reflexivity.
Qed.

(** ** [treeShakeAll]: what the pass leaves of the trees *)

(** X11.  The pass only prunes the trees: the tree of every output after the
    pass is the tree before it without some import declarations, without
    some export declarations that declare a name, and with specifiers
    missing from some of the import declarations that are left; the other
    statements (expression statements, export lists and the like) are all
    there, in their order. *)
Theorem pass_prunes_trees n g g' i j body :
  treeShakeAll n g = Ok g' -> treeOf g i j = Some body ->
  exists body',
    treeOf g' i j = Some body' /\ prunedTo body body'
    /\ forall s, In s body -> isImport s = false -> declaredNames s = [] ->
         In s body'.
Proof.
  intros H Ht. apply treeShakeAll_pruned in H.
  rewrite treeOf_trees in Ht. rewrite treeOf_trees.
  destruct (graphTrees g !! i) as [ts|] eqn:Hi; [|discriminate].
  destruct (Forall2_lookup_l _ _ _ _ _ H Hi) as (ts' & Hi' & Hts).
  rewrite Hi'.
  destruct (Forall2_lookup_l _ _ _ _ _ Hts Ht) as (body' & Hj' & Hb).
  exists body'. split; [exact Hj'|]. split; [exact Hb|].
  intros s. apply prunedTo_keeps. exact Hb.
Qed.

Lemma prunedTo_untouched body body' :
  prunedTo body body' ->
  (forall s, In s body -> isImport s = false /\ declaredNames s = []) ->
  body' = body.
Proof.
  induction 1 as [|s body body' H IH|s body body' Hs H IH|src specs body body' H IH
                  |src specs specs' body body' Hsub H IH]; intros Hall.
  - reflexivity.
  - f_equal. apply IH. intros s' Hs'. apply Hall. right. exact Hs'.
  - destruct (Hall s) as [_ Hd]; [left; reflexivity|]. contradiction.
  - destruct (Hall (ImportDeclaration src specs)) as [Hi _]; [left; reflexivity|].
    discriminate.
  - destruct (Hall (ImportDeclaration src specs)) as [Hi _]; [left; reflexivity|].
    discriminate.
Qed.

(** X12.  A tree without import declarations and without export
    declarations that declare a name (a CommonJS module, for one) comes
    out of the pass as it went in. *)
Theorem tree_without_imports_and_exports_is_kept n g g' i j body :
  treeShakeAll n g = Ok g' -> treeOf g i j = Some body ->
  (forall s, In s body -> isImport s = false /\ declaredNames s = []) ->
  treeOf g' i j = Some body.
Proof.
  intros H Ht Hall. apply treeShakeAll_pruned in H.
  rewrite treeOf_trees in Ht. rewrite treeOf_trees.
  destruct (graphTrees g !! i) as [ts|] eqn:Hi; [|discriminate].
  destruct (Forall2_lookup_l _ _ _ _ _ H Hi) as (ts' & Hi' & Hts).
  rewrite Hi'.
  destruct (Forall2_lookup_l _ _ _ _ _ Hts Ht) as (body' & Hj' & Hb).
  rewrite Hj'. f_equal. apply prunedTo_untouched; auto.
Qed.

(** ** [treeShakeAll]: what the pass leaves of the edges *)

Lemma sublist_List_filter {A : Type} (p : A -> bool) (l : list A) :
  sublist (List.filter p l) l.
Proof.
  induction l as [|x l IH]; simpl; [constructor|].
  destruct (p x); [apply sublist_skip|apply sublist_cons]; exact IH.
Qed.

Lemma edgesShrink_refl a : edgesShrink a a.
Proof. unfold edgesShrink. repeat split; auto; congruence. Qed.

Lemma edgesShrink_trans a1 a2 a3 : edgesShrink a1 a2 -> edgesShrink a2 a3 -> edgesShrink a1 a3.
Proof.
  intros (Hk & Hp & Hpr & Hd & Hi & Hdel & Hent) (Hk' & Hp' & Hpr' & Hd' & Hi' & Hdel' & Hent').
  unfold edgesShrink. split; [congruence|]. split; [congruence|]. split; [auto|].
  split; [etrans; eauto|]. split; [etrans; eauto|]. split.
  - intros H1 H3. destruct (e_present a2) eqn:H2; [auto|].
    rewrite (Hdel H1 eq_refl) in Hi'. apply sublist_nil_r in Hi'. exact Hi'.
  - intros H3 Hnil. apply Hent; auto.
Qed.

Lemma detached_present depKey p i k es j x' :
  alterEdges (dropDependency depKey) i (alterEdges (dropInverse p) k es) !! j = Some x' ->
  exists x,
    es !! j = Some x
    /\ e_inverse x'
       = (if Nat.eqb j k then countingDelete p (e_inverse x) else e_inverse x)
    /\ e_present x'
       = (if Nat.eqb j k
          then match countingDelete p (e_inverse x) with [] => false | _ :: _ => e_present x end
          else e_present x).
Proof.
  rewrite !alterEdges_lookup.
  destruct (es !! j) as [x|]; [|destruct (Nat.eqb j i), (Nat.eqb j k); discriminate].
  intros H. exists x. split; [reflexivity|].
  destruct (Nat.eqb j k), (Nat.eqb j i); simpl in H; injection H as <-; simpl; auto.
Qed.

Lemma detach_shrink es es' : detach es es' -> Forall2 edgesShrink es es'.
Proof.
  intros (i & a & depKey & dep & k & b & Ha & Hdep & Hb & Hkey & Hpres & ->).
  apply Forall2_same_length_lookup. split; [symmetry; apply detached_length|].
  intros j x x' Hx Hx'. pose proof Hx' as Hx''.
  apply detached_lookup in Hx' as (x0 & Hx0 & Hk & Hp & Hd & Hi & _).
  apply detached_present in Hx'' as (x1 & Hx1 & _ & Hpr).
  rewrite Hx in Hx0, Hx1. injection Hx0 as <-. injection Hx1 as <-.
  unfold edgesShrink. split; [exact Hk|]. split; [exact Hp|].
  split; [|split; [|split; [|split]]].
  - rewrite Hpr. destruct (Nat.eqb j k); [|auto]. destruct (countingDelete _ _); [discriminate|auto].
  - rewrite Hd. destruct (Nat.eqb j i); [apply sublist_List_filter|reflexivity].
  - rewrite Hi. destruct (Nat.eqb j k); [apply countingDelete_sublist|reflexivity].
  - rewrite Hpr, Hi. destruct (Nat.eqb j k); [|congruence].
    destruct (countingDelete _ _); [auto|congruence].
  - rewrite Hpr, Hi. destruct (Nat.eqb j k); [|auto].
    destruct (countingDelete _ _); [discriminate|discriminate].
Qed.

Lemma detaches_shrink es es' : rtc detach es es' -> Forall2 edgesShrink es es'.
Proof.
  induction 1 as [es|es es1 es' Hd _ IH].
  - apply Forall2_refl. apply edgesShrink_refl.
  - eapply Forall2_trans; [|apply detach_shrink; exact Hd|exact IH].
    intros a1 a2 a3. apply edgesShrink_trans.
Qed.

Lemma treeShakeAll_edgesShrink n g g' i e e' :
  treeShakeAll n g = Ok g' -> g !! i = Some e -> g' !! i = Some e' ->
  edgesShrink (edgesOf e) (edgesOf e').
Proof.
  intros H He He'. apply treeShakeAll_detach, detaches_shrink in H.
  eapply (Forall2_lookup_lr _ _ _ i); [exact H| |]; unfold graphEdges;
    rewrite map_lookup; [rewrite He|rewrite He']; reflexivity.
Qed.

(** X13.  The pass never adds to the graph.  It keeps the slots, their keys
    and the paths of their modules; a module deleted from
    [graph.dependencies] does not come back; the dependency entries and
    the inverse dependencies of a module after the pass are among those it
    had before, in the same order. *)
Theorem pass_only_removes_edges n g g' :
  treeShakeAll n g = Ok g' ->
  Forall2 (fun e e' =>
             depId e' = depId e /\ path (value e') = path (value e)
             /\ (present e' = true -> present e = true)
             /\ sublist (dependencies (value e')) (dependencies (value e))
             /\ sublist (inverseDependencies (value e'))
                        (inverseDependencies (value e))) g g'.
Proof.
  intros H. apply treeShakeAll_detach, detaches_shrink in H.
  unfold graphEdges in H.
  revert H. generalize g'. clear. induction g as [|e g IH]; intros g' H.
  - destruct g'; [constructor|inversion H].
  - destruct g' as [|e' g']; [inversion H|]. simpl in H.
    inversion H as [|? ? ? ? (Hk & Hp & Hpr & Hd & Hi & _) Hrest]; subst.
    constructor; [|apply IH; exact Hrest]. simpl in *. auto.
Qed.

(** X14.  A module is deleted from [graph.dependencies] exactly when the
    pass removes its last inverse dependency: a module that the pass
    deleted has no inverse dependency left, and a module that is still in
    the graph without inverse dependencies had none before the pass. *)
Theorem module_deleted_when_last_importer_goes n g g' i e e' :
  treeShakeAll n g = Ok g' -> g !! i = Some e -> g' !! i = Some e' ->
  (present e = true -> present e' = false -> inverseDependencies (value e') = [])
  /\ (present e' = true -> inverseDependencies (value e') = [] ->
      inverseDependencies (value e) = []).
Proof.
  intros H He He'.
  destruct (treeShakeAll_edgesShrink _ _ _ _ _ _ H He He')
    as (_ & _ & _ & _ & _ & Hdel & Hent).
  split; assumption.
Qed.

(** ** [treeShakeAll]: the graph it returns *)

(** X15.  When the pass completes it has reached a fixed point of its two
    steps: for every module of the resulting graph, [treeShakeExports]
    leaves the graph as it is, and [removeUnusedImports] on each of its
    trees leaves the graph as it is and answers that nothing was removed. *)
Theorem result_is_fixed_by_both_steps n g g' i e j :
  treeShakeAll n g = Ok g' -> g' !! i = Some e -> present e = true ->
  j < length (output (value e)) ->
  treeShakeExports i g' = Ok g' /\ removeUnusedImports i j g' = Ok (false, g').
Proof.
  intros H He Hp Hj. apply treeShakeAll_stable in H.
  destruct (H i e He Hp) as [Hex Him]. split; [exact Hex|apply Him; exact Hj].
Qed.

(** X16.  In the graph that the pass returns, every import declaration of a
    module has a specifier, all its specifiers are [ImportSpecifier]s, and
    the imported name of each of them is the name of an identifier node
    of the same tree, outside the import specifiers, for which
    [scope.bindingIdentifierEquals] answers [false]: a reference to the
    name, or the identifier of a redeclaration of it. *)
Theorem result_imports_are_used n g g' i j e o src specs :
  treeShakeAll n g = Ok g' -> g' !! i = Some e -> present e = true ->
  output (value e) !! j = Some o ->
  In (ImportDeclaration src specs) (ast (data o)) ->
  specs <> []
  /\ forall sp, In sp specs ->
       exists imported local,
         sp = ImportSpecifier imported local
         /\ In (Identifier imported false) (flat_map statementNodes (ast (data o))).
Proof.
  intros H He Hp Ho Hin. apply treeShakeAll_stable in H.
  destruct (H i e He Hp) as [_ Him].
  specialize (Him j (lookup_lt_Some _ _ _ Ho)).
  destruct (removeUnusedImports_false_imports _ _ _ _ _ _ Him He Ho) as [Hu Hall].
  destruct (Hall src specs Hin) as [Hne Hspecs]. split; [exact Hne|].
  intros sp Hsp. rewrite forallb_forall in Hspecs. specialize (Hspecs sp Hsp).
  destruct sp as [imported local| |]; [|discriminate..].
  exists imported, local. split; [reflexivity|].
  assert (In imported (usedIdentifiers (ast (data o)))) as Hused.
  { destruct (in_dec string_dec imported (usedIdentifiers (ast (data o)))) as [Hy|Hn];
      [exact Hy|].
    exfalso. assert (In imported (unusedImports (ast (data o)))) as Hun.
    { apply unusedImports_In. split; [|exact Hn].
      apply in_flat_map. exists (ImportDeclaration src specs). split; [exact Hin|].
      simpl. apply in_map_iff. exists (ImportSpecifier imported local). auto. }
    rewrite Hu in Hun. destruct Hun. }
  unfold usedIdentifiers in Hused. apply (proj1 (mkSet_In _ _)) in Hused.
  apply in_flat_map in Hused as (node & Hnode & Hx).
  destruct node as [x [|]| | | |]; simpl in Hx; try contradiction.
  destruct Hx as [<-|[]]. exact Hnode.
Qed.

(** X17.  Running the pass on its own result gives the result back whenever
    the import records of the result are up to date, that is, whenever
    collecting the imports of the result again changes nothing. *)
Theorem second_pass_is_identity_on_fresh_records g g' :
  treeShake g = Ok g' -> collectAll g' = Ok g' -> treeShake g' = Ok g'.
Proof.
  intros H Hc. unfold treeShake in *.
  eapply second_run_fixed_when_records_fresh; eauto.
Qed.

(** ** Graphs on which the pass completes *)

Lemma mapM_total {A B : Type} (f : A -> result B) (l : list A) :
  (forall x, In x l -> exists y, f x = Ok y) -> exists l', mapM f l = Ok l'.
Proof.
  induction l as [|x l IH]; intros H; simpl; [eauto|].
  destruct (H x (or_introl eq_refl)) as [y ->]. simpl.
  destruct IH as [l' ->]; [intros z Hz; apply H; right; exact Hz|]. simpl. eauto.
Qed.

Lemma find_exists {A : Type} (p : A -> bool) (l : list A) (x : A) :
  In x l -> p x = true -> exists y, List.find p l = Some y.
Proof.
  induction l as [|z l IH]; intros [] Hp; simpl; subst.
  - rewrite Hp. eauto.
  - destruct (p z); eauto.
Qed.

Lemma getGraphId_total m v :
  In v (dependencyNames m) ->
  (forall kd, In kd (dependencies m) -> fst kd <> "" /\ absolutePath (snd kd) <> "") ->
  exists k, getGraphId m v = Ok k.
Proof.
  intros Hin Hne. unfold dependencyNames in Hin. apply in_map_iff in Hin as ([k d] & Hname & Hkd).
  simpl in Hname. unfold getGraphId.
  destruct (find_exists (fun dep => String.eqb (data_name dep) v)
              (List.map snd (dependencies m)) d) as [dep Hf].
  { apply in_map_iff. exists (k, d). auto. }
  { rewrite Hname. apply String.eqb_refl. }
  rewrite Hf. apply find_some in Hf as [Hdep _].
  apply in_map_iff in Hdep as ([k' d'] & <- & Hkd').
  destruct (Hne _ Hkd') as [_ Hp]. simpl in *.
  destruct (String.eqb_spec (absolutePath d') ""); [contradiction|eauto].
Qed.

Lemma requireVisitor_total m e :
  requireHasArgument e = true ->
  incl (requireSource e) (dependencyNames m) ->
  (forall kd, In kd (dependencies m) -> fst kd <> "" /\ absolutePath (snd kd) <> "") ->
  exists items, requireVisitor m e = Ok items.
Proof.
  intros Harg Hsrc Hne. destruct e as [x b|v|o p|callee args|cs]; simpl; eauto.
  simpl in *. destruct (hasName callee "require") eqn:Hn; [|eauto].
  destruct args as [|[x b|v|o p|c a|cs] rest]; simpl in *; eauto; [discriminate|].
  destruct (getGraphId_total m v) as [k ->]; [apply Hsrc; left; reflexivity|exact Hne|].
  simpl. eauto.
Qed.

Lemma forallb_In {A : Type} (p : A -> bool) (l : list A) (x : A) :
  forallb p l = true -> In x l -> p x = true.
Proof. intros H Hx. rewrite forallb_forall in H. auto. Qed.

Lemma safeStatement_requires s :
  safeStatement s = true -> isImport s = false ->
  forallb requireHasArgument (statementNodes s) = true.
Proof.
  destruct s as [src specs|d|[[ds|x b]|] specs|b]; simpl; try discriminate; auto.
  intros H _. apply andb_true_iff in H as [_ H]. exact H.
Qed.

Lemma collectStatement_total m s :
  safeStatement s = true ->
  incl (statementSources s) (dependencyNames m) ->
  (forall kd, In kd (dependencies m) -> fst kd <> "" /\ absolutePath (snd kd) <> "") ->
  exists items, collectStatement m s = Ok items.
Proof.
  intros Hs Hsrc Hne.
  assert (Hother : isImport s = false ->
            statementSources s = flat_map requireSource (statementNodes s) ->
            exists items,
              (do rs <- mapM (requireVisitor m) (statementNodes s); Ok (concat rs))
              = Ok items).
  { intros Hi Heq.
    destruct (mapM_total (requireVisitor m) (statementNodes s)) as [rs ->]; [|simpl; eauto].
    intros e He. apply requireVisitor_total; [|
      |exact Hne].
    - exact (forallb_In _ _ _ (safeStatement_requires s Hs Hi) He).
    - intros v Hv. apply Hsrc. rewrite Heq. apply in_flat_map. eauto. }
  destruct s as [src specs|d|d specs|b]; try (apply Hother; reflexivity).
  simpl. destruct (getGraphId_total m src) as [k ->];
    [apply Hsrc; left; reflexivity|exact Hne|]. simpl. eauto.
Qed.

Lemma In_treeSources ts body s v :
  In body ts -> In s body -> In v (statementSources s) -> In v (treeSources ts).
Proof.
  intros Hb Hs Hv. unfold treeSources. apply in_flat_map. exists body. split; [exact Hb|].
  apply in_flat_map. eauto.
Qed.

Lemma collectImportExports_total m :
  slotSafe (dependencies m) (moduleTrees m) ->
  exists m', collectImportExports m = Ok m'.
Proof.
  intros (_ & Hincl & Hne & Hsafe). unfold collectImportExports.
  destruct (mapM_total (collectOutput m) (output m)) as [os ->]; [|simpl; eauto].
  intros o Ho. unfold collectOutput, collectProgram.
  assert (Hbody : In (ast (data o)) (moduleTrees m)).
  { unfold moduleTrees. apply in_map_iff. eauto. }
  destruct (mapM_total (collectStatement m) (ast (data o))) as [rs ->]; [|simpl; eauto].
  intros s Hs. apply collectStatement_total; [eapply Hsafe; eauto| |exact Hne].
  intros v Hv. apply Hincl. eapply In_treeSources; eauto.
Qed.

Lemma safe_slot g e :
  safe g -> In e g -> slotSafe (dependencies (value e)) (moduleTrees (value e)).
Proof.
  intros (_ & _ & _ & H) He. apply In_lookup in He as [i Hi].
  eapply (Forall2_lookup_lr _ _ _ i (edgesOf e) (moduleTrees (value e))) in H; [exact H| |].
  - unfold graphEdges. rewrite map_lookup, Hi. reflexivity.
  - rewrite graphTrees_lookup, Hi. reflexivity.
Qed.

Lemma safe_transfer g g' :
  graphEdges g' = graphEdges g -> graphTrees g' = graphTrees g -> safe g -> safe g'.
Proof. unfold safe. intros -> ->. auto. Qed.

Lemma collectAll_safe g :
  safe g -> exists g1, collectAll g = Ok g1 /\ safe g1.
Proof.
  intros Hs. unfold collectAll.
  destruct (mapM_total collectSlot g) as [g1 Hg1].
  - intros e He. unfold collectSlot. destruct (present e); [|eauto].
    destruct (collectImportExports_total (value e)) as [m ->]; [|simpl; eauto].
    eapply safe_slot; eauto.
  - exists g1. split; [exact Hg1|].
    eapply safe_transfer; [eapply collectAll_edges|eapply collectAll_trees|exact Hs]; exact Hg1.
Qed.

(** the export step on a safe graph *)
Lemma shakeStatement_total used s :
  safeStatement s = true -> exists r, shakeStatement used s = Ok r.
Proof.
  destruct s as [src specs|d|[[ds|x b]|] specs|b]; simpl; eauto.
  - destruct (used "default"); simpl; eauto.
  - intros H. apply andb_true_iff in H as [Hlen _]. apply Nat.leb_le in Hlen.
    rewrite shakeDeclarators_count.
    assert (Hle : length (unusedNames used (identifierNames ds)) <= 1).
    { unfold unusedNames.
      etransitivity; [apply sublist_length, sublist_List_filter|exact Hlen]. }
    destruct (unusedNames used (identifierNames ds)) as [|y [|z l]]; simpl in Hle; eauto.
    lia.
  - destruct (used x); simpl; eauto.
Qed.

Lemma shakeProgram_total used body :
  (forall s, In s body -> safeStatement s = true) ->
  exists body', shakeProgram used body = Ok body'.
Proof.
  induction body as [|s body IH]; intros H; simpl; [eauto|].
  destruct (shakeStatement_total used s) as [r ->]; [apply H; left; reflexivity|]. simpl.
  destruct IH as [rest ->]; [intros s' Hs'; apply H; right; exact Hs'|]. simpl. eauto.
Qed.

Lemma sublist_flat_map {A B : Type} (f : A -> list B) (l' l : list A) :
  sublist l' l -> sublist (flat_map f l') (flat_map f l).
Proof.
  induction 1 as [|x l1 l2 _ IH|x l1 l2 _ IH]; simpl.
  - constructor.
  - apply sublist_app; [reflexivity|exact IH].
  - apply sublist_inserts_l. exact IH.
Qed.

Lemma sublist_In {A : Type} (l' l : list A) (x : A) : sublist l' l -> In x l' -> In x l.
Proof. intros H Hx. apply list_elem_of_In. apply list_elem_of_In in Hx. eapply elem_of_sublist; eauto. Qed.

Lemma treeSources_insert ts j body body' :
  ts !! j = Some body ->
  sublist (flat_map statementSources body') (flat_map statementSources body) ->
  sublist (treeSources (<[j := body']> ts)) (treeSources ts).
Proof.
  intros Hj Hsub. rewrite <- (take_drop_middle ts j body Hj) at 2.
  rewrite insert_take_drop by (eapply lookup_lt_Some; eauto).
  unfold treeSources. rewrite !flat_map_app. simpl.
  apply sublist_app; [reflexivity|]. apply sublist_app; [exact Hsub|reflexivity].
Qed.

Lemma In_insert_tree (ts : list program) j body' body0 :
  In body0 (<[j := body']> ts) -> body0 = body' \/ In body0 ts.
Proof.
  intros H. apply In_lookup in H as [k Hk].
  destruct (Nat.eq_dec k j) as [->|Hne].
  - destruct (lookup_lt_is_Some_2 ts j) as [x Hx].
    { apply lookup_lt_Some in Hk. rewrite length_insert in Hk. exact Hk. }
    rewrite list_lookup_insert_eq in Hk by (eapply lookup_lt_Some; eauto).
    injection Hk as <-. left. reflexivity.
  - rewrite list_lookup_insert_ne in Hk by auto. right. apply In_lookup. eauto.
Qed.

(** A tree of a module replaced by one with fewer sources and safe
    statements, under dependency entries that still name them. *)
Lemma slotSafe_insert deps deps' ts j body body' :
  slotSafe deps ts -> ts !! j = Some body ->
  sublist (flat_map statementSources body') (flat_map statementSources body) ->
  (forall s, In s body' -> safeStatement s = true) ->
  sublist deps' deps ->
  incl (treeSources (<[j := body']> ts)) (List.map (fun kd => data_name (snd kd)) deps') ->
  slotSafe deps' (<[j := body']> ts).
Proof.
  intros (Hnd & Hincl & Hne & Hsafe) Hj Hsub Hbody' Hdeps Hincl'.
  split; [|split; [|split]].
  - eapply sublist_NoDup; [exact Hnd|]. eapply treeSources_insert; eauto.
  - exact Hincl'.
  - intros kd Hkd. apply Hne. eapply sublist_In; eauto.
  - intros body0 s Hb Hs. apply In_insert_tree in Hb as [->|Hb]; [auto|eauto].
Qed.

Lemma safe_insert_tree g g' i a ts j body body' :
  safe g -> graphEdges g' = graphEdges g ->
  graphEdges g !! i = Some a -> graphTrees g !! i = Some ts -> ts !! j = Some body ->
  graphTrees g' = <[i := <[j := body']> ts]> (graphTrees g) ->
  sublist (flat_map statementSources body') (flat_map statementSources body) ->
  (forall s, In s body' -> safeStatement s = true) ->
  safe g'.
Proof.
  intros (Hs & Hl & Ha & Hslots) He Hi Hts Hj Ht Hsub Hbody'.
  unfold safe. rewrite He, Ht. repeat (split; [assumption|]).
  rewrite <- (list_insert_id (graphEdges g) i a Hi).
  apply Forall2_insert; [exact Hslots|].
  pose proof (Forall2_lookup_lr _ _ _ _ _ _ Hslots Hi Hts) as Hslot.
  apply (slotSafe_insert (e_dependencies a) (e_dependencies a) ts j body body');
    [exact Hslot|exact Hj|exact Hsub|exact Hbody'|reflexivity|].
  destruct Hslot as (_ & Hincl & _). intros v Hv. apply Hincl.
  eapply sublist_In; [eapply treeSources_insert; eauto|exact Hv].
Qed.

Lemma In_filter_sub {A : Type} (p : A -> bool) (l : list A) (x : A) :
  In x (List.filter p l) -> In x l.
Proof. intros H. apply filter_In in H. tauto. Qed.

Lemma treeShakeExports_safe i g e :
  safe g -> g !! i = Some e ->
  exists g', treeShakeExports i g = Ok g' /\ safe g'.
Proof.
  intros Hs He.
  pose proof (safe_slot g e Hs (proj2 (In_lookup _ _) (ex_intro _ i He)))
    as (_ & _ & _ & Hsafe).
  assert (Hprog : exists g', treeShakeExports i g = Ok g').
  { unfold treeShakeExports. rewrite He.
    destruct (mapM_total (shakeOutput (isExportUsed g (depId e) (value e)))
                (output (value e))) as [os ->]; [|simpl; eauto].
    intros o Ho. unfold shakeOutput.
    destruct (shakeProgram_total (isExportUsed g (depId e) (value e)) (ast (data o)))
      as [a ->]; [|simpl; eauto].
    intros s Hin. eapply Hsafe; [|exact Hin]. unfold moduleTrees. apply in_map_iff. eauto. }
  destruct Hprog as [g' Hg']. exists g'. split; [exact Hg'|].
  pose proof (treeShakeExports_edges _ _ _ Hg') as Hedges.
  apply treeShakeExports_Ok in Hg' as (e0 & os & He0 & Hos & ->).
  rewrite He in He0. injection He0 as <-.
  (* one tree at a time *)
  destruct Hs as (Hsi & Hl & Ha & Hslots).
  unfold safe. rewrite Hedges. repeat (split; [assumption|]).
  unfold graphTrees at 1. rewrite map_insert. fold (graphTrees g). simpl.
  rewrite <- (list_insert_id (graphEdges g) i (edgesOf e))
    by (unfold graphEdges; rewrite map_lookup, He; reflexivity).
  apply Forall2_insert; [exact Hslots|].
  assert (Hslot : slotSafe (dependencies (value e)) (moduleTrees (value e))).
  { eapply (Forall2_lookup_lr _ _ _ i (edgesOf e) (moduleTrees (value e))) in Hslots;
      [exact Hslots| |].
    - unfold graphEdges. rewrite map_lookup, He. reflexivity.
    - rewrite graphTrees_lookup, He. reflexivity. }
  assert (Hsub : Forall2 (fun body body' => sublist body' body)
                         (moduleTrees (value e)) (moduleTrees (set_output os (value e)))).
  { unfold moduleTrees. simpl. clear -Hos.
    induction Hos as [|o o' l l' Ho _ IH]; simpl; constructor; [|exact IH].
    unfold shakeOutput in Ho. apply bind_Ok in Ho as (a & Ha & [= <-]). simpl.
    rewrite (shakeProgram_filter _ _ _ Ha). apply sublist_List_filter. }
  simpl. destruct Hslot as (Hnd & Hincl & Hne & Hsafe').
  assert (Hsrc : sublist (treeSources (moduleTrees (set_output os (value e))))
                         (treeSources (moduleTrees (value e)))).
  { clear -Hsub. induction Hsub as [|b b' l l' Hb _ IH]; simpl; [constructor|].
    unfold treeSources in *. simpl. apply sublist_app; [|exact IH].
    apply sublist_flat_map. exact Hb. }
  split; [eapply sublist_NoDup; eauto|]. split; [|split; [exact Hne|]].
  - intros v Hv. apply Hincl. eapply sublist_In; eauto.
  - intros body' s Hb Hin. apply In_lookup in Hb as [j Hj].
    destruct (Forall2_lookup_r _ _ _ _ _ Hsub Hj) as (body & Hbody & Hsb).
    eapply Hsafe'; [apply In_lookup; eauto|]. eapply sublist_In; eauto.
Qed.

(** the import step on a safe graph *)
Lemma detach_absentEmpty es es' : detach es es' -> absentEmpty es -> absentEmpty es'.
Proof.
  intros (i & a & depKey & dep & k & b & Ha & Hdep & Hb & Hkey & Hpres & ->) Habs x' Hx' Hp.
  apply In_lookup in Hx' as [j Hj]. apply detached_present in Hj as (x & Hx & Hinv & Hpr).
  assert (Hin : In x es) by (apply In_lookup; eauto).
  rewrite Hinv. rewrite Hpr in Hp. destruct (Nat.eqb j k).
  - destruct (countingDelete (e_path a) (e_inverse x)) eqn:E; [reflexivity|].
    rewrite (Habs x Hin Hp) in E. discriminate.
  - apply (Habs x Hin Hp).
Qed.

Lemma detach_edgesOk es es' : detach es es' -> edgesOk es -> edgesOk es'.
Proof.
  intros Hd (Hs & Hl & Ha). split; [eapply detach_simple; eauto|].
  split; [eapply detach_linked; eauto|eapply detach_absentEmpty; eauto].
Qed.

Lemma unlink_edges i src g g' :
  unlink i src g = Ok g' ->
  exists e depKey d0 dep k b,
    g !! i = Some e
    /\ List.find (fun kd => String.eqb (data_name (snd kd)) src) (dependencies (value e))
       = Some (depKey, d0)
    /\ mapGet depKey (dependencies (value e)) = Some dep
    /\ g !! k = Some b /\ depId b = absolutePath dep /\ present b = true
    /\ graphEdges g'
       = alterEdges (dropDependency depKey) i
           (alterEdges (dropInverse (path (value e))) k (graphEdges g)).
Proof.
  intros H.
  apply unlink_Ok in H as (e & depKey & d0 & dep & k & graphDep & He & Hf & Hdep & Hk & Hgk & ->).
  destruct (indexOf_Some _ _ _ Hk) as (b & Hb & Hpres & Hkey). rewrite Hgk in Hb.
  injection Hb as <-.
  exists e, depKey, d0, dep, k, graphDep. repeat (split; [assumption|]).
  unfold graphEdges, alterModule, alterSlot, alterEdges. rewrite map_lookup, Hgk. simpl.
  set (g1 := <[k := _]> g).
  assert (Hg1 : List.map edgesOf g1
                = <[k := dropInverse (path (value e)) (edgesOf graphDep)]> (List.map edgesOf g)).
  { unfold g1. rewrite map_insert. f_equal. unfold dropInverse, edgesOf; simpl.
    destruct (countingDelete _ _); reflexivity. }
  rewrite <- Hg1, map_lookup. destruct (g1 !! i) as [e1|]; [|reflexivity].
  rewrite map_insert. reflexivity.
Qed.

Lemma mapGet_exists {V : Type} k (v : V) (m : list (string * V)) :
  In (k, v) m -> exists v', mapGet k m = Some v'.
Proof.
  induction m as [|[k' v'] m IH]; intros []; simpl.
  - injection H as -> ->. rewrite String.eqb_refl. eauto.
  - destruct (String.eqb k' k); eauto.
Qed.

Lemma indexOf_total id g e :
  In e g -> present e = true -> depId e = id -> exists k, indexOf id g = Some k.
Proof.
  induction g as [|e0 g IH]; intros [] Hp Hk; simpl.
  - subst e0. rewrite Hp, Hk, String.eqb_refl. simpl. eauto.
  - destruct (present e0 && String.eqb (depId e0) id); [eauto|].
    destruct (IH H Hp Hk) as [k ->]. eauto.
Qed.

Lemma unlink_total i src g e :
  edgesOk (graphEdges g) -> g !! i = Some e ->
  In src (dependencyNames (value e)) ->
  (forall kd, In kd (dependencies (value e)) -> fst kd <> "" /\ absolutePath (snd kd) <> "") ->
  exists g', unlink i src g = Ok g'.
Proof.
  intros (_ & Hl & Habs) He Hsrc Hne. unfold unlink. rewrite He.
  unfold dependencyNames in Hsrc. apply in_map_iff in Hsrc as ([k0 d] & Hname & Hkd).
  destruct (find_exists (fun kd => String.eqb (data_name (snd kd)) src)
              (dependencies (value e)) (k0, d) Hkd) as [[depKey d0] Hf].
  { simpl in *. rewrite Hname. apply String.eqb_refl. }
  rewrite Hf. apply find_some in Hf as [Hin _].
  destruct (Hne _ Hin) as [Hkey _]. simpl in Hkey.
  destruct (String.eqb_spec depKey ""); [contradiction|].
  destruct (mapGet_exists _ _ _ Hin) as [dep Hdep]. rewrite Hdep.
  apply mapGet_In in Hdep.
  destruct (Hl (edgesOf e) (depKey, dep)) as (b & Hb & Hbk & Hbi & _).
  { apply In_graphEdges. exists e. split; [apply In_lookup; eauto|reflexivity]. }
  { exact Hdep. }
  apply In_graphEdges in Hb as (B & HB & <-). simpl in *.
  assert (Hp : present B = true).
  { destruct (present B) eqn:Hp; [reflexivity|].
    assert (Hnil : e_inverse (edgesOf B) = []).
    { apply Habs; [apply In_graphEdges; eauto|exact Hp]. }
    simpl in Hnil. rewrite Hnil in Hbi. destruct Hbi. }
  destruct (indexOf_total _ _ _ HB Hp Hbk) as [k Hk]. rewrite Hk.
  destruct (indexOf_Some _ _ _ Hk) as (graphDep & Hg & _). rewrite Hg. eauto.
Qed.

Lemma filterSpecifiers_total unused specs :
  forallb isImportSpecifier specs = true -> exists specs', filterSpecifiers unused specs = Ok specs'.
Proof.
  induction specs as [|[imported local| |] specs IH]; simpl; intros H; try discriminate; [eauto|].
  destruct (IH H) as [rest ->]. simpl. eauto.
Qed.

Lemma sources_prunedBody unused body :
  sublist (flat_map statementSources (prunedBody unused body))
          (flat_map statementSources body).
Proof.
  induction body as [|s body IH]; simpl; [constructor|].
  unfold prunedBody in *. simpl. rewrite flat_map_app.
  apply sublist_app; [|exact IH].
  destruct s as [src specs|d|d sp|b]; simpl; try rewrite app_nil_r; try reflexivity.
  destruct (List.filter _ specs); simpl; [apply sublist_nil_l|reflexivity].
Qed.

Lemma safe_prunedBody unused body s :
  (forall s0, In s0 body -> safeStatement s0 = true) ->
  In s (prunedBody unused body) -> safeStatement s = true.
Proof.
  intros Hall Hs. unfold prunedBody in Hs. apply in_flat_map in Hs as (s0 & Hs0 & Hs).
  specialize (Hall s0 Hs0).
  destruct s0 as [src specs|d|d sp|b]; simpl in Hs; try (destruct Hs as [<-|[]]; exact Hall).
  destruct (List.filter (keepSpecifier unused) specs) as [|x l] eqn:Hf; [destruct Hs|].
  destruct Hs as [<-|[]]. change (forallb isImportSpecifier (x :: l) = true).
  rewrite <- Hf. simpl in Hall.
  apply forallb_forall. intros y Hy. apply filter_In in Hy as [Hy _].
  eapply forallb_In; eauto.
Qed.

Lemma graphEdges_lookup g i :
  graphEdges g !! i = option_map edgesOf (g !! i).
Proof. unfold graphEdges. rewrite map_lookup. destruct (g !! i); reflexivity. Qed.

Lemma unlink_dependencies i src g g' e :
  unlink i src g = Ok g' -> g !! i = Some e ->
  exists depKey d0 e',
    List.find (fun kd => String.eqb (data_name (snd kd)) src) (dependencies (value e))
    = Some (depKey, d0)
    /\ g' !! i = Some e'
    /\ dependencies (value e') = mapDelete depKey (dependencies (value e))
    /\ forall x, x <> i ->
         option_map e_dependencies (graphEdges g' !! x)
         = option_map e_dependencies (graphEdges g !! x).
Proof.
  intros H He.
  apply unlink_edges in H as (e0 & depKey & d0 & dep & k & b & He0 & Hf & _ & Hb & _ & _ & Hg').
  rewrite He in He0. injection He0 as <-.
  assert (Hi : graphEdges g' !! i
               = Some (dropDependency depKey
                         (if Nat.eqb i k then dropInverse (path (value e)) (edgesOf e)
                          else edgesOf e))).
  { rewrite Hg', !alterEdges_lookup, Nat.eqb_refl, graphEdges_lookup, He. simpl.
    destruct (Nat.eqb i k); reflexivity. }
  rewrite graphEdges_lookup in Hi. destruct (g' !! i) as [e'|] eqn:He'; [|discriminate].
  exists depKey, d0, e'. split; [exact Hf|]. split; [reflexivity|]. split.
  - apply (f_equal (option_map e_dependencies)) in Hi. simpl in Hi.
    injection Hi as Hi. rewrite Hi. destruct (Nat.eqb i k); reflexivity.
  - intros x Hx. rewrite Hg', !alterEdges_lookup.
    destruct (Nat.eqb_spec x i) as [->|_]; [contradiction|].
    destruct (Nat.eqb x k); [|reflexivity].
    destruct (graphEdges g !! x); reflexivity.
Qed.

Lemma NoDup_app_swap {A : Type} (l1 l2 l3 : list A) :
  NoDup (l1 ++ l2 ++ l3) -> NoDup (l2 ++ l1 ++ l3).
Proof.
  intros H. rewrite !NoDup_app in *. destruct H as (H1 & H12 & H2 & H23 & H3).
  split; [exact H2|]. split.
  - intros x Hx Hin. apply elem_of_app in Hin as [Hin|Hin].
    + apply (H12 x Hin). apply elem_of_app. auto.
    + apply (H23 x Hx Hin).
  - split; [exact H1|]. split; [|exact H3].
    intros x Hx Hin. apply (H12 x Hx). apply elem_of_app. auto.
Qed.

Lemma pruneImports_safe i unused body :
  forall g r e others,
    edgesOk (graphEdges g) -> g !! i = Some e ->
    NoDup (flat_map statementSources body ++ others) ->
    incl (flat_map statementSources body ++ others) (dependencyNames (value e)) ->
    (forall kd, In kd (dependencies (value e)) ->
       fst kd <> "" /\ absolutePath (snd kd) <> "") ->
    (forall s, In s body -> safeStatement s = true) ->
    exists body' g' r' e',
      pruneImports i unused body g r = Ok (body', g', r')
      /\ edgesOk (graphEdges g')
      /\ g' !! i = Some e'
      /\ sublist (dependencies (value e')) (dependencies (value e))
      /\ incl (flat_map statementSources body' ++ others) (dependencyNames (value e'))
      /\ forall x, x <> i ->
           option_map e_dependencies (graphEdges g' !! x)
           = option_map e_dependencies (graphEdges g !! x).
Proof.
  induction body as [|s body IH]; intros g r e others Hok He Hnd Hincl Hne Hsafe.
  - simpl. exists [], g, r, e. split; [reflexivity|]. split; [exact Hok|].
    split; [exact He|]. split; [reflexivity|]. split; [exact Hincl|]. auto.
  - assert (Hrest : forall s0, In s0 body -> safeStatement s0 = true).
    { intros s0 Hs0. apply Hsafe. right. exact Hs0. }
    assert (Hkeep : isImport s = false \/ (exists src specs, s = ImportDeclaration src specs) ->
              forall g0 r0 e0,
                edgesOk (graphEdges g0) -> g0 !! i = Some e0 ->
                incl (flat_map statementSources (s :: body) ++ others)
                     (dependencyNames (value e0)) ->
                (forall kd, In kd (dependencies (value e0)) ->
                   fst kd <> "" /\ absolutePath (snd kd) <> "") ->
                exists rest g' r' e',
                  pruneImports i unused body g0 r0 = Ok (rest, g', r')
                  /\ edgesOk (graphEdges g')
                  /\ g' !! i = Some e'
                  /\ sublist (dependencies (value e')) (dependencies (value e0))
                  /\ incl (flat_map statementSources rest ++ statementSources s ++ others)
                          (dependencyNames (value e'))
                  /\ forall x, x <> i ->
                       option_map e_dependencies (graphEdges g' !! x)
                       = option_map e_dependencies (graphEdges g0 !! x)).
    { intros _ g0 r0 e0 Hok0 He0 Hincl0 Hne0.
      apply (IH g0 r0 e0 (statementSources s ++ others)); auto.
      - simpl in Hnd. rewrite <- app_assoc in Hnd. apply NoDup_app_swap. exact Hnd.
      - intros v Hv. apply Hincl0. simpl. rewrite <- app_assoc.
        apply in_app_iff in Hv as [Hv|Hv]; apply in_app_iff; [right|];
          [apply in_app_iff; left; exact Hv|].
        apply in_app_iff in Hv as [Hv|Hv]; [left; exact Hv|].
        right. apply in_app_iff. right. exact Hv. }
    assert (Hfinish : forall (rest : program) (e' : slot) (s' : statement),
              statementSources s' = statementSources s ->
              incl (flat_map statementSources rest ++ statementSources s ++ others)
                   (dependencyNames (value e')) ->
              incl (flat_map statementSources (s' :: rest) ++ others)
                   (dependencyNames (value e'))).
    { intros rest e' s' Hs' Hi' v Hv. apply Hi'. simpl in Hv. rewrite Hs' in Hv.
      rewrite <- app_assoc in Hv.
      apply in_app_iff in Hv as [Hv|Hv]; apply in_app_iff; [right; apply in_app_iff; auto|].
      apply in_app_iff in Hv as [Hv|Hv]; [left; exact Hv|].
      right. apply in_app_iff. right. exact Hv. }
    destruct s as [src specs|d|d sp|b].
    2-4: destruct (Hkeep (or_introl eq_refl) g r e Hok He Hincl Hne)
           as (rest & g' & r' & e' & Hp & Hok' & He' & Hsub & Hincl' & Hoth);
         simpl; rewrite Hp; simpl;
         eexists _, g', r', e'; (split; [reflexivity|]);
         repeat (split; [assumption|]); (split; [|exact Hoth]);
         eapply Hfinish; eauto.
    simpl.
    destruct (filterSpecifiers_total unused specs) as [specs' Hf].
    { apply (Hsafe (ImportDeclaration src specs)). left. reflexivity. }
    rewrite Hf. simpl. destruct specs' as [|sp specs'].
    + (* the declaration goes, and the dependency entry with it *)
      destruct (unlink_total i src g e Hok He) as [g1 Hg1]; [|exact Hne|].
      { apply Hincl. simpl. left. reflexivity. }
      rewrite Hg1. simpl.
      destruct (unlink_dependencies _ _ _ _ _ Hg1 He) as (depKey & d0 & e1 & Hfind & He1 & Hd1 & Hoth1).
      assert (Hok1 : edgesOk (graphEdges g1)).
      { eapply detach_edgesOk; [eapply unlink_detach; eauto|exact Hok]. }
      assert (Hsub1 : sublist (dependencies (value e1)) (dependencies (value e))).
      { rewrite Hd1. apply sublist_List_filter. }
      destruct (IH g1 true e1 others Hok1 He1) as (rest & g' & r' & e' & Hp & Hok' & He' & Hsub & Hincl' & Hoth);
        [simpl in Hnd; apply NoDup_cons in Hnd as [_ Hnd]; exact Hnd| | |exact Hrest|].
      * (* the other sources keep their entries *)
        intros v Hv.
        assert (Hv0 : In v (dependencyNames (value e))).
        { apply Hincl. simpl. right. exact Hv. }
        assert (Hneq : v <> src).
        { intros ->. simpl in Hnd. apply NoDup_cons in Hnd as [Hn _].
          apply Hn. apply list_elem_of_In. exact Hv. }
        unfold dependencyNames in *. apply in_map_iff in Hv0 as ([k' d'] & Hname & Hkd).
        apply in_map_iff. exists (k', d'). split; [exact Hname|].
        rewrite Hd1. apply mapDelete_In. split; [exact Hkd|]. simpl. intros ->.
        apply find_some in Hfind as [Hin0 Hn0]. simpl in Hn0. apply String.eqb_eq in Hn0.
        destruct Hok as ((_ & _ & Hdeps) & _).
        destruct (Hdeps (edgesOf e)) as [Hkeys _].
        { apply In_graphEdges. exists e. split; [apply In_lookup; eauto|reflexivity]. }
        assert (Heq : (depKey, d') = (depKey, d0)).
        { apply (NoDup_map_In fst _ _ _ Hkeys Hkd Hin0). reflexivity. }
        injection Heq as ->. simpl in Hname. congruence.
      * intros kd Hkd. apply Hne. eapply sublist_In; eauto.
      * exists rest, g', r', e'. split; [exact Hp|]. split; [exact Hok'|].
        split; [exact He'|]. split; [etrans; eauto|]. split; [exact Hincl'|].
        intros x Hx. rewrite (Hoth x Hx). apply Hoth1. exact Hx.
    + destruct (Hkeep (or_intror (ex_intro _ src (ex_intro _ specs eq_refl))) g r e Hok He Hincl Hne)
        as (rest & g' & r' & e' & Hp & Hok' & He' & Hsub & Hincl' & Hoth).
      rewrite Hp. simpl.
      exists (ImportDeclaration src (sp :: specs') :: rest), g', r', e'.
      split; [reflexivity|]. repeat (split; [assumption|]). split; [|exact Hoth].
      apply (Hfinish rest e' (ImportDeclaration src (sp :: specs'))); [reflexivity|].
      exact Hincl'.
Qed.

Lemma treeSources_split ts j body :
  ts !! j = Some body ->
  treeSources ts
  = treeSources (take j ts) ++ flat_map statementSources body
    ++ treeSources (drop (S j) ts).
Proof.
  intros Hj. rewrite <- (take_drop_middle ts j body Hj) at 1.
  unfold treeSources. rewrite flat_map_app. reflexivity.
Qed.

Lemma treeSources_split_insert ts j body body' :
  ts !! j = Some body ->
  treeSources (<[j := body']> ts)
  = treeSources (take j ts) ++ flat_map statementSources body'
    ++ treeSources (drop (S j) ts).
Proof.
  intros Hj. rewrite insert_take_drop by (eapply lookup_lt_Some; eauto).
  unfold treeSources. rewrite flat_map_app. reflexivity.
Qed.

Lemma removeUnusedImports_safe i j g e o :
  safe g -> g !! i = Some e -> output (value e) !! j = Some o ->
  exists b g', removeUnusedImports i j g = Ok (b, g') /\ safe g'.
Proof.
  intros Hs He Ho.
  assert (Hts : moduleTrees (value e) !! j = Some (ast (data o))).
  { unfold moduleTrees. rewrite map_lookup, Ho. reflexivity. }
  pose proof (safe_slot g e Hs (proj2 (In_lookup _ _) (ex_intro _ i He)))
    as Hslot.
  pose proof Hslot as (Hnd & Hincl & Hne & Hsafe).
  destruct Hs as (Hsi & Hl & Ha & Hslots).
  set (others := treeSources (take j (moduleTrees (value e)))
                 ++ treeSources (drop (S j) (moduleTrees (value e)))).
  destruct (pruneImports_safe i (unusedImports (ast (data o))) (ast (data o)) g
              (nonEmpty (unusedImports (ast (data o)))) e others)
    as (body' & g1 & r' & e1 & Hp & Hok1 & He1 & Hsub & Hincl1 & Hoth).
  { split; [exact Hsi|]. split; assumption. }
  { exact He. }
  { unfold others. apply NoDup_app_swap. rewrite <- treeSources_split by exact Hts. exact Hnd. }
  { intros v Hv. apply Hincl. rewrite (treeSources_split _ _ _ Hts).
    unfold others in Hv. rewrite !in_app_iff in *. tauto. }
  { exact Hne. }
  { intros s Hin. eapply Hsafe; [|exact Hin]. apply In_lookup. eauto. }
  unfold removeUnusedImports. rewrite He, Ho, Hp. simpl.
  exists r', (setAst i j body' g1). split; [reflexivity|].
  pose proof (pruneImports_size _ _ _ _ _ _ _ _ Hp) as (Htrees & _).
  destruct (pruneImports_Ok _ _ _ _ _ _ _ _ Hp) as [Hbody' _].
  assert (Hm1 : moduleTrees (value e1) = moduleTrees (value e)).
  { assert (graphTrees g1 !! i = Some (moduleTrees (value e))) as Hlk.
    { rewrite Htrees, graphTrees_lookup, He. reflexivity. }
    rewrite graphTrees_lookup, He1 in Hlk. congruence. }
  destruct Hok1 as (Hsi1 & Hl1 & Ha1).
  unfold safe. rewrite setAst_edges. repeat (split; [assumption|]).
  rewrite (graphTrees_setAst _ _ _ _ _ He1), Hm1, Htrees.
  apply Forall2_same_length_lookup. split.
  - rewrite length_insert. unfold graphEdges, graphTrees. rewrite !length_map.
    apply (f_equal (@length _)) in Htrees. unfold graphTrees in Htrees.
    rewrite !length_map in Htrees. exact Htrees.
  - intros x a1 ts1 Hx Hts1. destruct (Nat.eq_dec x i) as [->|Hxi].
    + rewrite graphEdges_lookup, He1 in Hx. injection Hx as <-.
      rewrite list_lookup_insert_eq in Hts1
        by (unfold graphTrees; rewrite length_map; eapply lookup_lt_Some; eauto).
      injection Hts1 as <-. simpl.
      eapply slotSafe_insert; [exact Hslot|exact Hts| | |exact Hsub|].
      * rewrite Hbody'. apply sources_prunedBody.
      * intros s Hin. rewrite Hbody' in Hin. eapply safe_prunedBody; [|exact Hin].
        intros s0 Hs0. eapply Hsafe; [|exact Hs0]. apply In_lookup. eauto.
      * intros v Hv. apply Hincl1. rewrite (treeSources_split_insert _ _ _ _ Hts) in Hv.
        unfold others. rewrite !in_app_iff in *. tauto.
    + rewrite list_lookup_insert_ne in Hts1 by auto.
      pose proof (Hoth x Hxi) as Hd. rewrite Hx in Hd. simpl in Hd.
      destruct (graphEdges g !! x) as [a0|] eqn:Ha0; [|discriminate].
      simpl in Hd. injection Hd as Hd. rewrite Hd.
      exact (Forall2_lookup_lr _ _ _ _ _ _ Hslots Ha0 Hts1).
Qed.

Lemma treeOf_pruned g g' i j body :
  treesPruned (graphTrees g) (graphTrees g') -> treeOf g i j = Some body ->
  exists body', treeOf g' i j = Some body'.
Proof.
  intros H Ht. rewrite treeOf_trees in Ht. rewrite treeOf_trees.
  destruct (graphTrees g !! i) as [ts|] eqn:Hi; [|discriminate].
  destruct (Forall2_lookup_l _ _ _ _ _ H Hi) as (ts' & -> & Hts).
  destruct (Forall2_lookup_l _ _ _ _ _ Hts Ht) as (body' & Hj' & _). eauto.
Qed.

Lemma treeOf_Some g i j body :
  treeOf g i j = Some body ->
  exists e o, g !! i = Some e /\ output (value e) !! j = Some o /\ ast (data o) = body.
Proof.
  unfold treeOf. destruct (g !! i) as [e|]; [|discriminate].
  destruct (output (value e) !! j) as [o|] eqn:Ho; [|discriminate].
  intros [= <-]. eauto.
Qed.

Section SafeLoops.
Variable rerun : graph -> result graph.
Hypothesis rerun_safe :
  forall g, safe g ->
    (forall err, rerun g <> Throw err) /\ (forall g', rerun g = Ok g' -> safe g').
Hypothesis rerun_pruned :
  forall g g', rerun g = Ok g' -> treesPruned (graphTrees g) (graphTrees g').

Lemma forOutputs_safe i js g :
  safe g -> (forall j, In j js -> exists body, treeOf g i j = Some body) ->
  (forall err, forOutputs rerun i js g <> Throw err)
  /\ (forall g', forOutputs rerun i js g = Ok g' -> safe g').
Proof.
  revert g. induction js as [|j js IH]; intros g Hs Hjs; simpl.
  - split; [discriminate|]. intros g' [= <-]. exact Hs.
  - destruct (Hjs j (or_introl eq_refl)) as [body Hbody].
    apply treeOf_Some in Hbody as (e & o & He & Ho & _).
    destruct (removeUnusedImports_safe i j g e o Hs He Ho) as (b & g1 & Hr & Hs1).
    rewrite Hr. simpl.
    pose proof (removeUnusedImports_pruned _ _ _ _ _ Hr) as Hp1.
    assert (Hjs1 : forall j0, In j0 js -> exists body, treeOf g1 i j0 = Some body).
    { intros j0 Hj0. destruct (Hjs j0 (or_intror Hj0)) as [body0 Hb0].
      eapply treeOf_pruned; eauto. }
    destruct b.
    + destruct (rerun_safe g1 Hs1) as [Hno Hsafe].
      destruct (rerun g1) as [g2|err|] eqn:Hg2; simpl.
      * apply IH; [apply Hsafe; reflexivity|].
        intros j0 Hj0. destruct (Hjs1 j0 Hj0) as [body0 Hb0].
        eapply treeOf_pruned; [apply rerun_pruned; exact Hg2|exact Hb0].
      * destruct (Hno err eq_refl).
      * split; discriminate.
    + simpl. apply IH; assumption.
Qed.

Lemma forModules_safe idxs g :
  safe g ->
  (forall err, forModules rerun idxs g <> Throw err)
  /\ (forall g', forModules rerun idxs g = Ok g' -> safe g').
Proof.
  revert g. induction idxs as [|i idxs IH]; intros g Hs; simpl.
  - split; [discriminate|]. intros g' [= <-]. exact Hs.
  - destruct (g !! i) as [e|] eqn:He; [|apply IH; exact Hs].
    destruct (present e); [|apply IH; exact Hs].
    destruct (treeShakeExports_safe i g e Hs He) as (g1 & Hg1 & Hs1).
    rewrite Hg1. simpl.
    pose proof (treeShakeExports_pruned _ _ _ Hg1) as Hp1.
    destruct (forOutputs_safe i (seq 0 (length (output (value e)))) g1 Hs1) as [Hno Hsafe].
    { intros j Hj. apply in_seq in Hj.
      destruct (lookup_lt_is_Some_2 (output (value e)) j) as [o Ho]; [lia|].
      eapply (treeOf_pruned g g1 i j (ast (data o))); [exact Hp1|].
      unfold treeOf. rewrite He, Ho. reflexivity. }
    destruct (forOutputs rerun i _ g1) as [g2|err|] eqn:Hg2; simpl.
    + apply IH. apply Hsafe. reflexivity.
    + destruct (Hno err eq_refl).
    + split; discriminate.
Qed.
End SafeLoops.

Lemma treeShakeAll_safe n g :
  safe g ->
  (forall err, treeShakeAll n g <> Throw err)
  /\ (forall g', treeShakeAll n g = Ok g' -> safe g').
Proof.
  revert g. induction n as [|n IH]; intros g Hs; simpl; [split; discriminate|].
  destruct (collectAll_safe g Hs) as (g1 & Hg1 & Hs1). rewrite Hg1. simpl.
  apply forModules_safe; [exact IH|apply treeShakeAll_pruned|exact Hs1].
Qed.

(** X18.  The pass completes, without throwing, on every graph that is
    safe: the keys and the paths of the graph are distinct, the
    dependency entries of a module have distinct keys and distinct
    targets, none of them with an empty key or path, and each has its
    target in the graph with the module among the inverse dependencies of
    the target; a deleted module has no inverse dependency; in the trees
    of a module every import declaration has [ImportSpecifier]s only,
    every exported variable declaration declares one identifier at most,
    every call of [require] has an argument, and every module name that
    is imported or required is the name of a dependency entry and is
    imported or required once.  The graph that the pass returns is safe
    again.  (The trees are given: parsing the code of a module that comes
    without a tree is not part of the statement.) *)
Theorem pass_completes_on_safe_graphs g :
  safe g -> exists g', treeShake g = Ok g' /\ safe g'.
Proof.
  intros Hs. unfold treeShake.
  destruct (treeShakeAll_budget (importSize g) g (le_n _)) as [Hterm _].
  destruct (treeShakeAll_safe (S (importSize g)) g Hs) as [Hno Hsafe].
  destruct (treeShakeAll (S (importSize g)) g) as [g'|err|] eqn:H.
  - exists g'. split; [reflexivity|]. apply Hsafe. reflexivity.
  - destruct (Hno err eq_refl).
  - discriminate.
Qed.

Lemma collectAll_Ok_resolves g g1 e o src specs :
  collectAll g = Ok g1 -> In e g -> present e = true -> In o (output (value e)) ->
  In (ImportDeclaration src specs) (ast (data o)) ->
  In src (dependencyNames (value e)).
Proof.
  intros H He Hp Ho Hin. apply mapM_Ok in H. apply In_lookup in He as [i Hi].
  destruct (Forall2_lookup_l _ _ _ _ _ H Hi) as (e1 & _ & Hc).
  unfold collectSlot in Hc. rewrite Hp in Hc. apply bind_Ok in Hc as (m & Hm & _).
  unfold collectImportExports in Hm. apply bind_Ok in Hm as (os & Hos & _).
  apply mapM_Ok in Hos. apply In_lookup in Ho as [j Hj].
  destruct (Forall2_lookup_l _ _ _ _ _ Hos Hj) as (o1 & _ & Ho1).
  unfold collectOutput in Ho1. apply bind_Ok in Ho1 as (imps & Himps & _).
  destruct (collectProgram_Ok _ _ _ Himps) as [Hdecl _].
  destruct (Hdecl src specs Hin) as (k & Hk & _).
  apply getGraphId_Ok in Hk as (_ & depKey & dep & Hdep & Hname & _).
  unfold dependencyNames. apply in_map_iff. exists (depKey, dep). auto.
Qed.

(** X19.  The pass throws on every graph in which a module imports from a
    module name that is not the name of one of its dependency entries:
    the first loop of [treeShakeAll] does not get past it. *)
Theorem pass_throws_on_unresolved_import n g e o src specs :
  In e g -> present e = true -> In o (output (value e)) ->
  In (ImportDeclaration src specs) (ast (data o)) ->
  ~ In src (dependencyNames (value e)) ->
  exists err, treeShakeAll (S n) g = Throw err.
Proof.
  intros He Hp Ho Hin Hno. simpl.
  pose proof (collectAll_terminated g) as Hterm.
  destruct (collectAll g) as [g1|err|] eqn:Hc; simpl; [|eauto|discriminate].
  exfalso. apply Hno. eapply collectAll_Ok_resolves; eauto.
Qed.

(** ** Idempotence *)

Lemma requireVisitor_sources m e items :
  requireVisitor m e = Ok items -> requireSource e = [] -> items = [].
Proof.
  destruct e as [x b|v|o p|callee args|cs]; simpl; try (intros [= <-]; reflexivity).
  destruct (hasName callee "require"); [|intros [= <-]; reflexivity].
  destruct args as [|[x b|v|o p|c a|cs] rest]; try discriminate;
    intros [= <-]; reflexivity.
Qed.

Lemma collectStatement_sources m s items :
  collectStatement m s = Ok items -> statementSources s = [] -> items = [].
Proof.
  destruct s as [src specs|d|d sp|b]; simpl; [intros _ [=]| | |];
    intros H Hsrc; apply bind_Ok in H as (rs & Hrs & [= <-]); apply mapM_Ok in Hrs;
    (assert (Hall : forall r, In r rs -> r = []);
     [intros r Hr; destruct (Forall2_right_In _ _ _ Hrs r Hr) as (node & Hnode & Hv);
      eapply requireVisitor_sources; [exact Hv|];
      destruct (requireSource node) as [|v l] eqn:Hn; [reflexivity|];
      exfalso;
      assert (Hin : In v (flat_map requireSource _)) by
        (apply in_flat_map; exists node; split; [exact Hnode|rewrite Hn; left; reflexivity]);
      rewrite Hsrc in Hin; destruct Hin
     |clear -Hall; induction rs as [|r rs IH]; simpl; [reflexivity|];
      rewrite (Hall r (or_introl eq_refl)); simpl; apply IH;
      intros r' Hr'; apply Hall; right; exact Hr']).
Qed.

Lemma collectProgram_filter m body imps (p : statement -> bool) :
  collectProgram m body = Ok imps ->
  (forall s, In s body -> p s = false -> statementSources s = []) ->
  collectProgram m (List.filter p body) = Ok imps.
Proof.
  unfold collectProgram. intros H Hclean.
  apply bind_Ok in H as (rs & Hrs & [= <-]).
  revert rs Hrs. induction body as [|s body IH]; intros rs Hrs; simpl in *.
  - injection Hrs as <-. reflexivity.
  - apply bind_Ok in Hrs as (items & Hitems & Hrs).
    apply bind_Ok in Hrs as (rest & Hrest & [= <-]).
    specialize (IH (fun s0 Hs0 => Hclean s0 (or_intror Hs0)) rest Hrest).
    apply bind_Ok in IH as (rs' & Hrs' & Hcat). injection Hcat as Hcat.
    destruct (p s) eqn:Hp; simpl.
    + rewrite Hitems. simpl. rewrite Hrs'. simpl. rewrite Hcat. reflexivity.
    + rewrite Hrs'. simpl. rewrite Hcat.
      rewrite (collectStatement_sources _ _ _ Hitems (Hclean s (or_introl eq_refl) Hp)).
      reflexivity.
Qed.

Lemma fresh_slot g e : fresh g -> In e g -> collectSlot e = Ok e.
Proof.
  unfold fresh, collectAll. intros H He. apply mapM_Ok in H.
  apply (proj1 (Forall2_eq_same _ _) H). exact He.
Qed.

Lemma collectOutput_fixed_modules m o :
  collectOutput m o = Ok o ->
  exists imps, collectProgram m (ast (data o)) = Ok imps
    /\ modules (data o) = Some {| imports := imps; exports := [] |}.
Proof.
  unfold collectOutput. intros H. apply bind_Ok in H as (imps & Himps & Heq).
  exists imps. split; [exact Himps|]. injection Heq as Heq.
  apply (f_equal (fun o' => modules (data o'))) in Heq. simpl in Heq.
  symmetry. exact Heq.
Qed.

Lemma treeShakeExports_fresh i g g' :
  exportsClean g -> fresh g -> treeShakeExports i g = Ok g' -> fresh g'.
Proof.
  intros Hclean Hfresh H.
  apply treeShakeExports_Ok in H as (e & os & He & Hos & ->).
  unfold fresh, collectAll. apply mapM_Forall2. apply Forall2_eq_same.
  intros x Hx. apply In_insert in Hx as [->|Hx]; [|eapply fresh_slot; eauto].
  pose proof (fresh_slot g e Hfresh (proj2 (In_lookup _ _) (ex_intro _ i He))) as Hslot.
  unfold collectSlot in *. simpl. destruct (present e) eqn:Hp; [|reflexivity].
  apply bind_Ok in Hslot as (m & Hm & Heq).
  assert (Hmv : m = value e).
  { injection Heq as Heq. apply (f_equal value) in Heq. exact Heq. }
  subst m. unfold collectImportExports in *.
  apply bind_Ok in Hm as (os0 & Hos0 & Heq0).
  assert (Hos0' : os0 = output (value e)).
  { injection Heq0 as Heq0. apply (f_equal output) in Heq0. exact Heq0. }
  subst os0. simpl.
  assert (Hnew : mapM (collectOutput (set_output os (value e))) os = Ok os).
  { apply mapM_Forall2. apply Forall2_eq_same. intros o' Ho'.
    apply In_lookup in Ho' as [j Hj].
    destruct (Forall2_lookup_r _ _ _ _ _ Hos Hj) as (o & Ho & Hsh).
    apply mapM_Ok in Hos0.
    pose proof (proj1 (Forall2_eq_same _ _) Hos0 o (proj2 (In_lookup _ _) (ex_intro _ j Ho)))
      as Hfix.
    apply collectOutput_fixed_modules in Hfix as (imps & Himps & Hmods).
    unfold shakeOutput in Hsh. apply bind_Ok in Hsh as (a & Ha & [= <-]).
    rewrite (shakeProgram_filter _ _ _ Ha).
    unfold collectOutput. simpl.
    rewrite (collectProgram_module (value e) (set_output os (value e))) by reflexivity.
    rewrite (collectProgram_filter _ _ imps _ Himps).
    - simpl. unfold set_modules, set_ast. simpl. rewrite <- Hmods. reflexivity.
    - intros s Hs Hf. apply (Hclean i j (ast (data o)) s); [|exact Hs|].
      + unfold treeOf. rewrite He, Ho. reflexivity.
      + intros Hd. rewrite Hd in Hf. discriminate. }
  rewrite Hnew. reflexivity.
Qed.

Lemma prunedTo_In body body' s :
  prunedTo body body' -> In s body' -> In s body \/ declaredNames s = [].
Proof.
  induction 1 as [|s0 body body' H IH|s0 body body' Hs H IH|src specs body body' H IH
                  |src specs specs' body body' Hsub H IH]; intros Hin.
  - destruct Hin.
  - destruct Hin as [->|Hin]; [left; left; reflexivity|].
    destruct (IH Hin); [left; right|right]; assumption.
  - destruct (IH Hin); [left; right|right]; assumption.
  - destruct (IH Hin); [left; right|right]; assumption.
  - destruct Hin as [<-|Hin]; [right; reflexivity|].
    destruct (IH Hin); [left; right|right]; assumption.
Qed.

Lemma exportsClean_pruned g g' :
  treesPruned (graphTrees g) (graphTrees g') -> exportsClean g -> exportsClean g'.
Proof.
  intros H Hclean i j body' s Ht Hs Hd.
  rewrite treeOf_trees in Ht.
  destruct (graphTrees g' !! i) as [ts'|] eqn:Hi; [|discriminate].
  destruct (Forall2_lookup_r _ _ _ _ _ H Hi) as (ts & Hts & Hp).
  destruct (Forall2_lookup_r _ _ _ _ _ Hp Ht) as (body & Hbody & Hpr).
  destruct (prunedTo_In _ _ _ Hpr Hs) as [Hin|Hnil]; [|contradiction].
  apply (Hclean i j body s); [|exact Hin|exact Hd].
  rewrite treeOf_trees, Hts. exact Hbody.
Qed.

Section FreshLoops.
Variable rerun : graph -> result graph.
Hypothesis rerun_fresh :
  forall g g', exportsClean g -> rerun g = Ok g' -> fresh g'.
Hypothesis rerun_pruned :
  forall g g', rerun g = Ok g' -> treesPruned (graphTrees g) (graphTrees g').

Lemma forOutputs_fresh i js g g' :
  exportsClean g -> fresh g -> forOutputs rerun i js g = Ok g' -> fresh g'.
Proof.
  revert g. induction js as [|j js IH]; intros g Hclean Hfresh H; simpl in H.
  - injection H as <-. exact Hfresh.
  - apply bind_Ok in H as ([removed g1] & Hr & H). apply bind_Ok in H as (g2 & Hg2 & H).
    pose proof (exportsClean_pruned _ _ (removeUnusedImports_pruned _ _ _ _ _ Hr) Hclean)
      as Hclean1.
    destruct removed.
    + apply (IH g2); [|eapply rerun_fresh; eauto|exact H].
      eapply exportsClean_pruned; [apply rerun_pruned; exact Hg2|exact Hclean1].
    + injection Hg2 as <-. apply removeUnusedImports_false in Hr as [-> _].
      apply (IH g); assumption.
Qed.

Lemma forModules_fresh idxs g g' :
  exportsClean g -> fresh g -> forModules rerun idxs g = Ok g' -> fresh g'.
Proof.
  revert g. induction idxs as [|i idxs IH]; intros g Hclean Hfresh H; simpl in H.
  - injection H as <-. exact Hfresh.
  - destruct (g !! i) as [e|]; [|eauto]. destruct (present e); [|eauto].
    apply bind_Ok in H as (g1 & Hg1 & H). apply bind_Ok in H as (g2 & Hg2 & H).
    pose proof (exportsClean_pruned _ _ (treeShakeExports_pruned _ _ _ Hg1) Hclean) as Hclean1.
    pose proof (treeShakeExports_fresh _ _ _ Hclean Hfresh Hg1) as Hfresh1.
    apply (IH g2); [|eapply forOutputs_fresh; eauto|exact H].
    eapply exportsClean_pruned; [|exact Hclean1].
    eapply forOutputs_pruned; [exact rerun_pruned|exact Hg2].
Qed.
End FreshLoops.

Lemma collectAll_fresh g g1 : collectAll g = Ok g1 -> fresh g1.
Proof.
  intros H. unfold fresh, collectAll in *. apply mapM_Forall2. apply Forall2_eq_same.
  intros e1 He1. apply mapM_Ok in H.
  destruct (Forall2_right_In _ _ _ H e1 He1) as (e & _ & Hc).
  unfold collectSlot in *. destruct (present e) eqn:Hp.
  - apply bind_Ok in Hc as (m & Hm & [= <-]). simpl. rewrite Hp.
    rewrite (collectImportExports_fixed _ _ Hm). reflexivity.
  - injection Hc as <-. rewrite Hp. reflexivity.
Qed.

Lemma treeShakeAll_fresh n g g' :
  exportsClean g -> treeShakeAll n g = Ok g' -> fresh g'.
Proof.
  revert g g'. induction n as [|n IH]; intros g g' Hclean H; [discriminate|].
  simpl in H. apply bind_Ok in H as (g1 & Hg1 & H).
  eapply (forModules_fresh (treeShakeAll n)); [exact IH|apply treeShakeAll_pruned| | |exact H].
  - intros i j body s Ht. apply (Hclean i j body s).
    rewrite treeOf_trees in *. rewrite <- (collectAll_trees _ _ Hg1). exact Ht.
  - eapply collectAll_fresh; eauto.
Qed.

(** X20.  The pass is idempotent on the graphs in which no export
    declaration that declares a name holds a call of [require] on a string
    literal: on such a graph, the pass run on its own result returns the
    result as it is, with its import records up to date. *)
Theorem pass_is_idempotent_without_require_in_exports g g' :
  exportsClean g -> treeShake g = Ok g' ->
  collectAll g' = Ok g' /\ treeShake g' = Ok g'.
Proof.
  intros Hclean H. unfold treeShake in *.
  pose proof (treeShakeAll_fresh _ _ _ Hclean H) as Hfresh.
  split; [exact Hfresh|].
  eapply second_run_fixed_when_records_fresh; eauto.
Qed.

(** ** The code of the pruned modules *)

Lemma regenerateSlot_Ok generate countLines e e' :
  regenerateSlot generate countLines e = Ok e' ->
  edgesOf e' = edgesOf e
  /\ moduleTrees (value e') = moduleTrees (value e)
  /\ (present e = false -> e' = e)
  /\ (present e = true ->
      forall o, In o (output (value e')) ->
        generate (path (value e')) (ast (data o))
          = Ok (code (data o), functionMap (data o))
        /\ lineCount (data o) = countLines (code (data o))
        /\ map_segments (data o) = []).
Proof.
  unfold regenerateSlot. destruct (present e) eqn:Hp.
  - intros H. apply bind_Ok in H as (os & Hos & [= <-]). apply mapM_Ok in Hos.
    split; [unfold edgesOf; simpl; rewrite Hp; reflexivity|].
    split; [|split; [discriminate|]].
    + simpl. unfold moduleTrees. apply Forall2_map_eq.
      eapply Forall2_impl; [exact Hos|]. intros o o' Ho. unfold regenerateOutput in Ho.
      destruct (generate _ _) as [[c fm]| |]; simpl in Ho; [|discriminate..].
      injection Ho as <-. reflexivity.
    + intros _ o' Ho'. simpl in *.
      destruct (Forall2_right_In _ _ _ Hos o' Ho') as (o & _ & Ho).
      unfold regenerateOutput in Ho.
      destruct (generate _ _) as [[c fm]| |] eqn:Hg; simpl in Ho; [|discriminate..].
      injection Ho as <-. simpl. auto.
  - intros [= <-]. split; [reflexivity|]. split; [reflexivity|].
    split; [reflexivity|discriminate].
Qed.

(** X21.  In the graph that [treeShakeSerializerPlugin] returns, the trees
    and the edges are those left by the pass; the code and the function
    map of every output of a module of the graph are generated from the
    tree of that output, the line count is the line count of that code,
    and the source map is empty; the modules that the pass deleted are
    not regenerated. *)
Theorem plugin_regenerates_code_from_pruned_trees
    (generate : string -> program -> result (string * option string))
    (countLines : string -> nat)
    (props : SerializerParameters) (entryPoint : string)
    (preModules : list Module) (g2 : graph) (options : SerializerOptions) :
  treeShakeSerializerPlugin generate countLines props
    = Ok (entryPoint, preModules, g2, options) ->
  exists g1,
    treeShake (snd (fst props)) = Ok g1
    /\ graphTrees g2 = graphTrees g1 /\ graphEdges g2 = graphEdges g1
    /\ (forall e o, In e g2 -> present e = true -> In o (output (value e)) ->
          generate (path (value e)) (ast (data o))
            = Ok (code (data o), functionMap (data o))
          /\ lineCount (data o) = countLines (code (data o))
          /\ map_segments (data o) = [])
    /\ (forall i e, g1 !! i = Some e -> present e = false -> g2 !! i = Some e).
Proof.
  destruct props as [[[ep pm] g] opts]. simpl. intros H.
  apply bind_Ok in H as (g1 & Hg1 & H). apply bind_Ok in H as (g2' & Hg2 & [= _ _ <- _]).
  exists g1. split; [exact Hg1|]. apply mapM_Ok in Hg2.
  split; [|split; [|split]].
  - unfold graphTrees. apply Forall2_map_eq. eapply Forall2_impl; [exact Hg2|].
    intros e e' He. apply regenerateSlot_Ok in He. tauto.
  - unfold graphEdges. apply Forall2_map_eq. eapply Forall2_impl; [exact Hg2|].
    intros e e' He. apply regenerateSlot_Ok in He. tauto.
  - intros e' o He' Hp Ho.
    destruct (Forall2_right_In _ _ _ Hg2 e' He') as (e & _ & He).
    apply regenerateSlot_Ok in He as (Hedges & _ & _ & Hlive).
    apply Hlive; [|exact Ho].
    assert (e_present (edgesOf e') = e_present (edgesOf e)) as Hpe by congruence.
    simpl in Hpe. congruence.
  - intros i e He Hp.
    destruct (Forall2_lookup_l _ _ _ _ _ Hg2 He) as (e' & He' & Hr).
    apply regenerateSlot_Ok in Hr as (_ & _ & Hdead & _). rewrite He'. f_equal. auto.
Qed.

(** ** [getSortedModules] *)

Lemma insertById_Permutation f m l : Permutation (insertById f m l) (m :: l).
Proof.
  induction l as [|m' l IH]; simpl; [reflexivity|].
  destruct (Nat.ltb _ _); [|reflexivity].
  rewrite IH. apply perm_swap.
Qed.

Lemma insertById_In f m l x : In x (insertById f m l) <-> x = m \/ In x l.
Proof.
  split.
  - intros H. apply (Permutation_in _ (insertById_Permutation f m l)) in H.
    destruct H; auto.
  - intros H. apply (Permutation_in _ (Permutation_sym (insertById_Permutation f m l))).
    destruct H; [left|right]; auto.
Qed.

Lemma insertById_sorted f m l :
  StronglySorted (fun a b => f (path a) <= f (path b)) l ->
  StronglySorted (fun a b => f (path a) <= f (path b)) (insertById f m l).
Proof.
  induction 1 as [|m' l Hs IH Hall]; simpl.
  - constructor; constructor.
  - destruct (Nat.ltb_spec (f (path m')) (f (path m))) as [Hlt|Hge].
    + constructor; [exact IH|]. apply List.Forall_forall. intros x Hx.
      apply insertById_In in Hx as [->|Hx]; [lia|].
      rewrite List.Forall_forall in Hall. auto.
    + constructor; [constructor; assumption|].
      constructor; [exact Hge|]. rewrite List.Forall_forall in Hall |- *.
      intros x Hx. specialize (Hall x Hx). lia.
Qed.

Lemma insertById_filter f m l n :
  StronglySorted (fun a b => f (path a) <= f (path b)) l ->
  List.filter (fun x => Nat.eqb (f (path x)) n) (insertById f m l)
  = List.filter (fun x => Nat.eqb (f (path x)) n) (m :: l).
Proof.
  induction 1 as [|m' l Hs IH Hall]; [reflexivity|].
  simpl insertById.
  destruct (Nat.ltb_spec (f (path m')) (f (path m))) as [Hlt|Hge]; [|reflexivity].
  simpl in *. rewrite IH.
  destruct (Nat.eqb_spec (f (path m')) n) as [E1|E1],
           (Nat.eqb_spec (f (path m)) n) as [E2|E2]; try reflexivity. lia.
Qed.

(** X22.  [getSortedModules] returns the modules that are in
    [graph.dependencies], each once, in ascending order of the module id
    that [createModuleId] gives their paths; modules with the same id stay
    in the order of the graph.  ([createModuleId] is a function of the
    path: it answers the same id whenever it is asked about a path.) *)
Theorem getSortedModules_sorts_by_module_id g (createModuleId : string -> nat) :
  Permutation (getSortedModules g createModuleId)
              (List.map value (List.filter present g))
  /\ StronglySorted (fun a b => createModuleId (path a) <= createModuleId (path b))
                    (getSortedModules g createModuleId)
  /\ forall n,
       List.filter (fun m => Nat.eqb (createModuleId (path m)) n)
                   (getSortedModules g createModuleId)
       = List.filter (fun m => Nat.eqb (createModuleId (path m)) n)
                     (List.map value (List.filter present g)).
Proof.
  unfold getSortedModules.
  induction (List.map value (List.filter present g)) as [|m l (IHp & IHs & IHf)]; simpl.
  - split; [reflexivity|]. split; [constructor|reflexivity].
  - split; [|split].
    + rewrite insertById_Permutation, IHp. reflexivity.
    + apply insertById_sorted. exact IHs.
    + intros n. rewrite insertById_filter by exact IHs. simpl. rewrite IHf. reflexivity.
Qed.

(** ** [getDefaultSerializer] *)

Lemma append_assoc (a b c : string) :
  String.append (String.append a b) c = String.append a (String.append b c).
Proof. induction a as [|x a IH]; simpl; [reflexivity|]. rewrite IH. reflexivity. Qed.

Section SerializerProperties.
Variable baseJSBundleCode : SerializerParameters -> result string.
Variable sourceMapString : list Module -> SerializerOptions -> string.
Variable isJscSafeUrl : string -> bool.
Variable toNormalUrl : string -> string.
Variable searchParamsGet : string -> string -> option string.
Variable pathname : string -> string.
Variable getCssSerialAssets : graph -> SerializerOptions -> list SerialAsset.
Variable fileNameFromContents : string -> string -> string.
Variable JSON_parse : string -> result parsedMap.
Variable JSON_stringify_map : parsedMap -> string.
Variable JSON_stringify_assets : list SerialAsset -> string.
Variable relative : string -> string -> string.
Variables serverPreludeSerializerPlugin environmentVariableSerializerPlugin
  : SerializerPlugin.
Variable generate : string -> program -> result (string * option string).
Variable countLines : string -> nat.

Let defaultSerializer :=
  getDefaultSerializer baseJSBundleCode sourceMapString isJscSafeUrl toNormalUrl
    searchParamsGet pathname getCssSerialAssets fileNameFromContents JSON_parse
    JSON_stringify_map JSON_stringify_assets relative.

Let createSerializer :=
  createSerializerFromSerialProcessors baseJSBundleCode sourceMapString
    isJscSafeUrl toNormalUrl searchParamsGet pathname getCssSerialAssets
    fileNameFromContents JSON_parse JSON_stringify_map JSON_stringify_assets
    relative.

Let emittedAssets :=
  jsAssets sourceMapString pathname fileNameFromContents JSON_parse
    JSON_stringify_map relative.

(** The URL that [getDefaultSerializer] reads the search parameters of. *)
Let normalUrl (options : SerializerOptions) : string :=
  let raw := nullish (sourceUrl options) "" in
  if isJscSafeUrl raw then toNormalUrl raw else raw.

Lemma getDefaultSerializer_default
    (fallbackSerializer : option Serializer) (props : SerializerParameters) :
  truthy (sourceUrl (snd props)) = false
  \/ searchParamsGet (normalUrl (snd props)) "platform" <> Some "web"
  \/ searchParamsGet (normalUrl (snd props)) "serializer.output" <> Some "static" ->
  defaultSerializer fallbackSerializer props
  = nullish fallbackSerializer
      (fun params => do c <- baseJSBundleCode params; Ok (BundleString c)) props.
Proof.
  destruct props as [[[ep pm] g] options]. simpl. intros H.
  unfold defaultSerializer, getDefaultSerializer.
  destruct (nullish fallbackSerializer _ _) as [jsCode| |]; simpl; [|reflexivity..].
  destruct (truthy (sourceUrl options)) eqn:Ht; [|reflexivity].
  assert (Hopt : forall o s, o <> Some s -> optEq o s = false).
  { intros [x|] s Hne; simpl; [|reflexivity].
    destruct (String.eqb_spec x s) as [->|]; [congruence|reflexivity]. }
  destruct H as [H|[H|H]]; [discriminate| |]; unfold normalUrl in H;
    rewrite (Hopt _ _ H); simpl; rewrite ?orb_true_r; reflexivity.
Qed.

(** X23.  Without a source URL, or with a source URL that does not ask for
    [platform=web] and [serializer.output=static], the serializer returns
    what the fallback serializer returns (the code of Metro's base bundle
    when there is no fallback), whatever that is.  (The source URL is one
    that the [URL] constructor accepts.) *)
Theorem serializer_default_behaviour
    (fallbackSerializer : option Serializer) (props : SerializerParameters) :
  truthy (sourceUrl (snd props)) = false
  \/ searchParamsGet (normalUrl (snd props)) "platform" <> Some "web"
  \/ searchParamsGet (normalUrl (snd props)) "serializer.output" <> Some "static" ->
  defaultSerializer fallbackSerializer props
  = nullish fallbackSerializer
      (fun params => do c <- baseJSBundleCode params; Ok (BundleString c)) props.
Proof. apply getDefaultSerializer_default. Qed.

(** X24.  The assets of the static export.  There is no asset when the
    bundle is the empty string.  Otherwise the first asset is the JS asset,
    whose source is the code of the bundle; it is followed by a map
    asset exactly when source maps are asked for and the options give a
    source map URL; the map asset is made from the map of the bundle when
    the serializer returned one, and from [serializeToSourceMap]
    otherwise; in a development build the two are named [index.js] and
    [index.map], otherwise the name of the map is the name of the JS asset
    followed by [.map]. *)
Theorem static_export_assets
    (props : SerializerParameters) (url : string) (includeSourceMaps : bool)
    (jsCode : serialized) (assets : list SerialAsset) :
  emittedAssets props url includeSourceMaps jsCode = Ok assets ->
  let options := snd props in
  let code := match jsCode with BundleString c => c | BundleWithMap c _ => c end in
  let sourceMap := match jsCode with
                   | BundleString _ => serializeToSourceMap sourceMapString props
                   | BundleWithMap _ m => m
                   end in
  if match jsCode with BundleString "" => true | _ => false end
  then assets = []
  else exists js,
    asset_type js = "js" /\ asset_source js = code
    /\ originFilename js = "index.js"
    /\ (dev options = true -> filename js = "index.js")
    /\ if includeSourceMaps && truthy (sourceMapUrl options)
       then exists parsed map,
              assets = [js; map]
              /\ JSON_parse sourceMap = Ok parsed
              /\ asset_type map = "map" /\ originFilename map = "index.map"
              /\ asset_source map
                 = JSON_stringify_map (rewriteSources relative options parsed)
              /\ filename map
                 = (if dev options then "index.map"
                    else String.append (filename js) ".map")
       else assets = [js].
Proof.
  destruct props as [[[ep pm] g] options]. unfold emittedAssets, jsAssets. simpl.
  assert (Hname : forall h,
            String.append (String.append "_expo/static/js/web/" (String.append h ".js")) ".map"
            = String.append "_expo/static/js/web/" (String.append h ".js.map")).
  { intros h. rewrite !append_assoc. reflexivity. }
  assert (Hdev : forall h : string,
            dev options = true ->
            (if dev options then "index.js" else h) = "index.js").
  { intros h ->. reflexivity. }
  destruct jsCode as [[|c0 c]|c m]; [intros [= <-]; reflexivity| |];
    (destruct (includeSourceMaps && truthy (sourceMapUrl options));
     [destruct (JSON_parse _) as [parsed| |] eqn:Hp; simpl; [|discriminate..]|]);
    intros [= <-]; eexists; repeat (apply conj); revgoals;
    try (exists parsed; eexists; repeat (apply conj)); try reflexivity;
    try (apply Hdev);
    simpl; destruct (dev options); try reflexivity; symmetry; apply Hname.
Qed.

(** ** The chain *)

Lemma runProcessors_app (ps qs : list (option SerializerPlugin))
    (props : SerializerParameters) :
  runProcessors (ps ++ qs) props
  = do props' <- runProcessors ps props; runProcessors qs props'.
Proof.
  revert props. induction ps as [|[p|] ps IH]; intros props; simpl; [reflexivity| |apply IH].
  destruct (p props) as [props'| |]; simpl; [apply IH|reflexivity..].
Qed.

(** X25.  Chains compose: the serializer made from the plugins [ps]
    followed by the plugins [qs] runs [ps] and hands the tuple they leave
    to the serializer made from [qs]; when [ps] throw, so does the chain. *)
Theorem chain_of_appended_plugins
    (ps qs : list (option SerializerPlugin))
    (originalSerializer : option Serializer) (props : SerializerParameters) :
  createSerializer (ps ++ qs) originalSerializer props
  = do props' <- runProcessors ps props;
    createSerializer qs originalSerializer props'.
Proof.
  unfold createSerializer, createSerializerFromSerialProcessors.
  rewrite runProcessors_app.
  destruct (runProcessors ps props); reflexivity.
Qed.

(** X26.  A plugin that throws ends the chain: the serializer throws the
    same error, and neither the plugins after it nor the final serializer
    have a say. *)
Theorem failing_plugin_aborts_the_chain
    (ps qs : list (option SerializerPlugin)) (p : SerializerPlugin)
    (originalSerializer : option Serializer)
    (props props1 : SerializerParameters) (err : error) :
  runProcessors ps props = Ok props1 -> p props1 = Throw err ->
  createSerializer (ps ++ Some p :: qs) originalSerializer props = Throw err.
Proof.
  intros H1 H2. unfold createSerializer, createSerializerFromSerialProcessors.
  rewrite runProcessors_app, H1. simpl. rewrite H2. reflexivity.
Qed.

(** ** The configuration *)

Let withPlugins :=
  withSerializerPlugins baseJSBundleCode sourceMapString isJscSafeUrl toNormalUrl
    searchParamsGet pathname getCssSerialAssets fileNameFromContents JSON_parse
    JSON_stringify_map JSON_stringify_assets relative.

Let withExpo :=
  withExpoSerializers baseJSBundleCode sourceMapString isJscSafeUrl toNormalUrl
    searchParamsGet pathname getCssSerialAssets fileNameFromContents JSON_parse
    JSON_stringify_map JSON_stringify_assets relative
    serverPreludeSerializerPlugin environmentVariableSerializerPlugin
    generate countLines.

(** X27.  The serializer that [withExpoSerializers] installs runs the server
    prelude plugin, then the environment variable plugin unless
    [EXPO_NO_CLIENT_ENV_VARS] is set, then the tree-shaking plugin when
    [EXPO_USE_TREE_SHAKING] is set, and hands the tuple to the default
    serializer built around the custom serializer the configuration had;
    the other fields of the configuration are kept. *)
Theorem withExpoSerializers_stages (env : Env) (config : InputConfigT) :
  exists customSerializer',
    serializer (withExpo env config)
    = Some {| customSerializer := Some customSerializer';
              serializerFields := match serializer config with
                                  | Some s => serializerFields s
                                  | None => []
                                  end |}
    /\ configFields (withExpo env config) = configFields config
    /\ forall props,
         customSerializer' props
         = do p1 <- serverPreludeSerializerPlugin props;
           do p2 <- (if EXPO_NO_CLIENT_ENV_VARS env then Ok p1
                     else environmentVariableSerializerPlugin p1);
           do p3 <- (if EXPO_USE_TREE_SHAKING env
                     then treeShakeSerializerPlugin generate countLines p2
                     else Ok p2);
           defaultSerializer (originalSerializerOf config) p3.
Proof.
  eexists. split; [reflexivity|]. split; [reflexivity|].
  intros props. unfold createSerializerFromSerialProcessors, originalSerializerOf.
  destruct env as [[|] [|]]; simpl;
    destruct (serverPreludeSerializerPlugin props) as [p1| |]; simpl; try reflexivity.
  - destruct (treeShakeSerializerPlugin generate countLines p1); reflexivity.
  - destruct (environmentVariableSerializerPlugin p1) as [p2| |]; simpl; try reflexivity.
    destruct (treeShakeSerializerPlugin generate countLines p2); reflexivity.
  - destruct (environmentVariableSerializerPlugin p1) as [p2| |]; simpl; reflexivity.
Qed.

(** X28.  Wrapping a configuration twice nests the serializers: the plugins
    of the outer wrapping run first, and unless the tuple they leave asks
    for the static export, the result is that of the plugins of the inner
    wrapping and the default serializer around the original custom
    serializer, run on that tuple. *)
Theorem withSerializerPlugins_nested
    (config : InputConfigT) (ps qs : list SerializerPlugin)
    (props props1 : SerializerParameters) (outer : Serializer) :
  originalSerializerOf (withPlugins (withPlugins config ps) qs) = Some outer ->
  runProcessors (List.map Some qs) props = Ok props1 ->
  truthy (sourceUrl (snd props1)) = false
  \/ searchParamsGet (normalUrl (snd props1)) "platform" <> Some "web"
  \/ searchParamsGet (normalUrl (snd props1)) "serializer.output" <> Some "static" ->
  outer props
  = createSerializer (List.map Some (qs ++ ps)) (originalSerializerOf config) props.
Proof.
  intros Houter Hqs Hstatic. unfold originalSerializerOf in Houter. simpl in Houter.
  injection Houter as <-.
  unfold createSerializer, createSerializerFromSerialProcessors.
  rewrite List.map_app, runProcessors_app, Hqs. simpl.
  fold defaultSerializer.
  rewrite (getDefaultSerializer_default _ _ Hstatic). reflexivity.
Qed.
End SerializerProperties.

(** ** The list of component screens *)

Lemma insertSorted_available (a : Components.api) l :
  Components.isAvailable a = true ->
  Components.insertSorted Components.compareApis a l = a :: l.
Proof.
  intros Ha. destruct l as [|b l]; simpl; [reflexivity|].
  unfold Components.compareApis. rewrite Ha. destruct (Components.isAvailable b); reflexivity.
Qed.

Lemma insertSorted_unavailable (a : Components.api) F U :
  Components.isAvailable a = false ->
  forallb Components.isAvailable F = true ->
  forallb (fun b => negb (Components.isAvailable b)) U = true ->
  Components.insertSorted Components.compareApis a (F ++ U) = F ++ a :: U.
Proof.
  intros Ha HF HU. induction F as [|b F IH]; simpl in *.
  - destruct U as [|b U]; simpl in *; [reflexivity|].
    apply andb_true_iff in HU as [Hb _]. apply negb_true_iff in Hb.
    unfold Components.compareApis. rewrite Ha, Hb. reflexivity.
  - apply andb_true_iff in HF as [Hb HF].
    unfold Components.compareApis at 1. rewrite Ha, Hb. simpl. rewrite IH by exact HF.
    reflexivity.
Qed.

Lemma forallb_List_filter {A : Type} (p : A -> bool) (l : list A) :
  forallb p (List.filter p l) = true.
Proof.
  induction l as [|x l IH]; simpl; [reflexivity|].
  destruct (p x) eqn:Hx; simpl; [rewrite Hx|]; exact IH.
Qed.

Lemma sort_compareApis (l : list Components.api) :
  Components.sort Components.compareApis l
  = List.filter Components.isAvailable l
    ++ List.filter (fun a => negb (Components.isAvailable a)) l.
Proof.
  induction l as [|a l IH]; simpl; [reflexivity|].
  unfold Components.sort in *. simpl. rewrite IH.
  destruct (Components.isAvailable a) eqn:Ha; simpl.
  - apply insertSorted_available. exact Ha.
  - apply insertSorted_unavailable; [exact Ha|apply forallb_List_filter..].
Qed.

(** X29.  [_getApis] lists every screen name of its table once: first the
    names under which [Screens] has a screen, then the names under which
    it has none, each group in the order of the table. *)
Theorem getApis_lists_available_screens_first
    (Screen : Type) (Screens : string -> option Screen) :
  let available := fun name => match Screens name with
                               | Some _ => true
                               | None => false
                               end in
  Components._getApis Screen Screens
  = List.map (fun name => {| Components.name := name; Components.isAvailable := true |})
             (List.filter available Components.screens)
    ++ List.map (fun name => {| Components.name := name; Components.isAvailable := false |})
                (List.filter (fun name => negb (available name)) Components.screens).
Proof.
  intros available. unfold Components._getApis. rewrite sort_compareApis.
  generalize Components.screens. intros l. f_equal.
  - induction l as [|x l IH]; simpl; [reflexivity|].
    unfold available at 1. destruct (Screens x); simpl; [f_equal|]; exact IH.
  - induction l as [|x l IH]; simpl; [reflexivity|].
    unfold available at 1. destruct (Screens x); simpl; [|f_equal]; exact IH.
Qed.

(** ** The counts of the inverse dependencies *)

Lemma detaches_counted es es' :
  rtc detach es es' -> keyed es -> counted es -> keyed es' /\ counted es'.
Proof.
  induction 1 as [es|es es1 es' Hd _ IH]; [auto|].
  intros Hk Hc. apply IH; [eapply detach_keyed; eauto|eapply detach_counted; eauto].
Qed.

(** X30.  The pass keeps the counts of Metro.  Take a graph with distinct
    keys, distinct paths and distinct dependency keys in every module, in
    which every module is counted among the inverse dependencies of every
    other once per dependency entry that resolves to that one.  When the
    pass completes, the counts are right again: unlinking an import takes
    away one dependency entry and one count.  This holds of the modules
    that the pass deleted from [graph.dependencies] too, which keep their
    dependency entries and stay counted. *)
Theorem pass_keeps_the_counts n g g' A B :
  keyed (graphEdges g) -> counted (graphEdges g) ->
  treeShakeAll n g = Ok g' -> In A g' -> In B g' ->
  count_occ string_dec (inverseDependencies (value B)) (path (value A))
  = length (List.filter (fun kd => String.eqb (absolutePath (snd kd)) (depId B))
                        (dependencies (value A))).
Proof.
  intros Hk Hc H HA HB.
  destruct (detaches_counted _ _ (treeShakeAll_detach _ _ _ H) Hk Hc) as [_ Hc'].
  apply (Hc' (edgesOf A) (edgesOf B)); apply In_graphEdges; eauto.
Qed.

(** ** The further properties on the concrete graphs *)

Lemma pass_prunes_trees_witness :
  exists g' body,
    treeShake partialImportGraph = Ok g'
    /\ treeOf partialImportGraph 0 0 = Some body
    /\ exists body',
         treeOf g' 0 0 = Some body' /\ prunedTo body body'
         /\ forall s, In s body -> isImport s = false -> declaredNames s = [] ->
              In s body'.
Proof.
  assert (H : exists g' body,
             treeShake partialImportGraph = Ok g'
             /\ treeOf partialImportGraph 0 0 = Some body).
  { do 2 eexists. split; [vm_compute; reflexivity|reflexivity]. }
  destruct H as (g' & body & H1 & H2). exists g', body.
  split; [exact H1|]. split; [exact H2|].
  exact (pass_prunes_trees _ _ _ _ _ _ H1 H2).
Defined.

Lemma tree_without_imports_and_exports_is_kept_witness :
  exists g' body,
    treeShake requireGraph = Ok g'
    /\ treeOf requireGraph 1 0 = Some body
    /\ (forall s, In s body -> isImport s = false /\ declaredNames s = [])
    /\ treeOf g' 1 0 = Some body.
Proof.
  assert (H : exists g' body,
             treeShake requireGraph = Ok g'
             /\ treeOf requireGraph 1 0 = Some body
             /\ (forall s, In s body -> isImport s = false /\ declaredNames s = [])).
  { do 2 eexists. split; [vm_compute; reflexivity|]. split; [reflexivity|].
    intros s [<-|[]]. split; reflexivity. }
  destruct H as (g' & body & H1 & H2 & H3). exists g', body.
  split; [exact H1|]. split; [exact H2|]. split; [exact H3|].
  exact (tree_without_imports_and_exports_is_kept _ _ _ _ _ _ H1 H2 H3).
Defined.

Lemma pass_only_removes_edges_witness :
  exists g',
    treeShake unusedImportGraph = Ok g'
    /\ Forall2 (fun e e' =>
                  depId e' = depId e /\ path (value e') = path (value e)
                  /\ (present e' = true -> present e = true)
                  /\ sublist (dependencies (value e')) (dependencies (value e))
                  /\ sublist (inverseDependencies (value e'))
                             (inverseDependencies (value e)))
               unusedImportGraph g'.
Proof.
  assert (H : exists g', treeShake unusedImportGraph = Ok g').
  { eexists. vm_compute. reflexivity. }
  destruct H as (g' & H1). exists g'. split; [exact H1|].
  exact (pass_only_removes_edges _ _ _ H1).
Defined.

Lemma module_deleted_when_last_importer_goes_witness :
  exists g' e e',
    treeShake unusedImportGraph = Ok g'
    /\ unusedImportGraph !! 1 = Some e /\ g' !! 1 = Some e'
    /\ (present e = true -> present e' = false ->
        inverseDependencies (value e') = [])
    /\ (present e' = true -> inverseDependencies (value e') = [] ->
        inverseDependencies (value e) = []).
Proof.
  assert (H : exists g' e e',
             treeShake unusedImportGraph = Ok g'
             /\ unusedImportGraph !! 1 = Some e /\ g' !! 1 = Some e').
  { do 3 eexists. split; [vm_compute; reflexivity|]. split; reflexivity. }
  destruct H as (g' & e & e' & H1 & H2 & H3). exists g', e, e'.
  split; [exact H1|]. split; [exact H2|]. split; [exact H3|].
  exact (module_deleted_when_last_importer_goes _ _ _ _ _ _ H1 H2 H3).
Defined.

Lemma result_is_fixed_by_both_steps_witness :
  exists g' e,
    treeShake partialImportGraph = Ok g'
    /\ g' !! 0 = Some e /\ present e = true /\ 0 < length (output (value e))
    /\ treeShakeExports 0 g' = Ok g'
    /\ removeUnusedImports 0 0 g' = Ok (false, g').
Proof.
  assert (H : exists g' e,
             treeShake partialImportGraph = Ok g'
             /\ g' !! 0 = Some e /\ present e = true
             /\ 0 < length (output (value e))).
  { do 2 eexists. split; [vm_compute; reflexivity|]. split; [reflexivity|].
    split; [reflexivity|]. simpl. lia. }
  destruct H as (g' & e & H1 & H2 & H3 & H4). exists g', e.
  split; [exact H1|]. split; [exact H2|]. split; [exact H3|]. split; [exact H4|].
  exact (result_is_fixed_by_both_steps _ _ _ _ _ _ H1 H2 H3 H4).
Defined.

Lemma result_imports_are_used_witness :
  exists g' e o,
    treeShake redeclaredGraph = Ok g'
    /\ g' !! 1 = Some e /\ present e = true /\ output (value e) !! 0 = Some o
    /\ In (ImportDeclaration "./x" [ImportSpecifier "a" "b"]) (ast (data o))
    /\ [ImportSpecifier "a" "b"] <> []
    /\ forall sp, In sp [ImportSpecifier "a" "b"] ->
         exists imported local,
           sp = ImportSpecifier imported local
           /\ In (Identifier imported false) (flat_map statementNodes (ast (data o))).
Proof.
  assert (H : exists g' e o,
             treeShake redeclaredGraph = Ok g'
             /\ g' !! 1 = Some e /\ present e = true
             /\ output (value e) !! 0 = Some o
             /\ In (ImportDeclaration "./x" [ImportSpecifier "a" "b"]) (ast (data o))).
  { do 3 eexists. split; [vm_compute; reflexivity|]. split; [reflexivity|].
    split; [reflexivity|]. split; [reflexivity|]. left. reflexivity. }
  destruct H as (g' & e & o & H1 & H2 & H3 & H4 & H5). exists g', e, o.
  split; [exact H1|]. split; [exact H2|]. split; [exact H3|]. split; [exact H4|].
  split; [exact H5|].
  exact (result_imports_are_used _ _ _ _ _ _ _ _ _ H1 H2 H3 H4 H5).
Defined.

Lemma second_pass_is_identity_on_fresh_records_witness :
  exists g',
    treeShake partialImportGraph = Ok g' /\ collectAll g' = Ok g'
    /\ treeShake g' = Ok g'.
Proof.
  assert (H : exists g',
             treeShake partialImportGraph = Ok g' /\ collectAll g' = Ok g').
  { eexists. split; vm_compute; reflexivity. }
  destruct H as (g' & H1 & H2). exists g'. split; [exact H1|]. split; [exact H2|].
  exact (second_pass_is_identity_on_fresh_records _ _ H1 H2).
Defined.

Lemma collected_records_match_the_tree_witness :
  exists e m' o',
    partialImportGraph !! 0 = Some e
    /\ collectImportExports (value e) = Ok m' /\ output m' !! 0 = Some o'
    /\ exists o imps,
         output (value e) !! 0 = Some o
         /\ ast (data o') = ast (data o)
         /\ modules (data o') = Some {| imports := imps; exports := [] |}
         /\ (forall src specs, In (ImportDeclaration src specs) (ast (data o)) ->
               exists k, getGraphId (value e) src = Ok k
                 /\ In {| source := src; key := k;
                          specifiers := List.map specifierRecordOf specs;
                          cjs := false |} imps)
         /\ (forall it, In it imps ->
               getGraphId (value e) (source it) = Ok (key it)
               /\ (if cjs it
                   then specifiers it = []
                        /\ exists callee rest,
                             hasName callee "require" = true
                             /\ In (CallExpression callee
                                      (StringLiteral (source it) :: rest))
                                   (flat_map statementNodes (ast (data o)))
                   else exists specs,
                          In (ImportDeclaration (source it) specs) (ast (data o))
                          /\ specifiers it = List.map specifierRecordOf specs)).
Proof.
  assert (H : exists e m' o',
             partialImportGraph !! 0 = Some e
             /\ collectImportExports (value e) = Ok m' /\ output m' !! 0 = Some o').
  { do 3 eexists. split; [reflexivity|]. split; [vm_compute; reflexivity|reflexivity]. }
  destruct H as (e & m' & o' & H1 & H2 & H3). exists e, m', o'.
  split; [exact H1|]. split; [exact H2|]. split; [exact H3|].
  exact (collected_records_match_the_tree _ _ _ _ H2 H3).
Defined.

Lemma collectImportExports_idempotent_witness :
  exists e m',
    partialImportGraph !! 0 = Some e
    /\ collectImportExports (value e) = Ok m'
    /\ collectImportExports m' = Ok m'.
Proof.
  assert (H : exists e m',
             partialImportGraph !! 0 = Some e
             /\ collectImportExports (value e) = Ok m').
  { do 2 eexists. split; [reflexivity|vm_compute; reflexivity]. }
  destruct H as (e & m' & H1 & H2). exists e, m'.
  split; [exact H1|]. split; [exact H2|].
  exact (collectImportExports_idempotent _ _ H2).
Defined.

Lemma detector_reports_exports_members_witness :
  In (MemberExpression (Identifier "module" false) (Identifier "exports" false))
     (flat_map statementNodes commonJsBody)
  /\ ((hasName (Identifier "module" false) "module" = true
       /\ hasName (Identifier "exports" false) "exports" = true)
      \/ hasName (Identifier "module" false) "exports" = true)
  /\ (detectCommonJsExportsUsage commonJsBody = Ok true
      \/ detectCommonJsExportsUsage commonJsBody = Throw TypeError).
Proof.
  assert (H1 : In (MemberExpression (Identifier "module" false)
                                    (Identifier "exports" false))
                  (flat_map statementNodes commonJsBody)).
  { simpl. right. left. reflexivity. }
  assert (H2 : (hasName (Identifier "module" false) "module" = true
                /\ hasName (Identifier "exports" false) "exports" = true)
               \/ hasName (Identifier "module" false) "exports" = true).
  { left. split; reflexivity. }
  split; [exact H1|]. split; [exact H2|].
  exact (detector_reports_exports_members _ _ _ H1 H2).
Defined.

Lemma export_step_filters_unused_exports_witness :
  exists g' e,
    treeShakeExports 1 partialImportGraph = Ok g'
    /\ partialImportGraph !! 1 = Some e
    /\ g' = <[1 := set_value
                (set_output
                   (List.map
                      (fun o => set_ast
                                  (List.filter
                                     (fun s => forallb
                                                 (isExportUsed partialImportGraph
                                                               (depId e) (value e))
                                                 (declaredNames s))
                                     (ast (data o))) o)
                      (output (value e)))
                   (value e)) e]> partialImportGraph.
Proof.
  assert (H : exists g' e,
             treeShakeExports 1 partialImportGraph = Ok g'
             /\ partialImportGraph !! 1 = Some e).
  { do 2 eexists. split; [vm_compute; reflexivity|reflexivity]. }
  destruct H as (g' & e & H1 & H2). exists g', e.
  split; [exact H1|]. split; [exact H2|].
  exact (export_step_filters_unused_exports _ _ _ _ H1 H2).
Defined.

Lemma export_step_is_idempotent_witness :
  exists g',
    treeShakeExports 1 partialImportGraph = Ok g'
    /\ treeShakeExports 1 g' = Ok g'.
Proof.
  assert (H : exists g', treeShakeExports 1 partialImportGraph = Ok g').
  { eexists. vm_compute. reflexivity. }
  destruct H as (g' & H1). exists g'. split; [exact H1|].
  exact (export_step_is_idempotent _ _ _ H1).
Defined.

Lemma import_step_prunes_unused_specifiers_witness :
  exists b g' body,
    removeUnusedImports 0 0 partialImportGraph = Ok (b, g')
    /\ treeOf partialImportGraph 0 0 = Some body
    /\ treeOf g' 0 0 = Some (prunedBody (unusedImports body) body)
    /\ forall i' j', (i', j') <> (0, 0) ->
         treeOf g' i' j' = treeOf partialImportGraph i' j'.
Proof.
  assert (H : exists b g' body,
             removeUnusedImports 0 0 partialImportGraph = Ok (b, g')
             /\ treeOf partialImportGraph 0 0 = Some body).
  { do 3 eexists. split; [vm_compute; reflexivity|reflexivity]. }
  destruct H as (b & g' & body & H1 & H2). exists b, g', body.
  split; [exact H1|]. split; [exact H2|].
  exact (import_step_prunes_unused_specifiers _ _ _ _ _ _ H1 H2).
Defined.

Lemma import_step_throws_on_default_import_witness :
  exists body,
    treeOf defaultImportGraph 0 0 = Some body
    /\ In (ImportDeclaration "react" [ImportDefaultSpecifier "React"]) body
    /\ In (ImportDefaultSpecifier "React") [ImportDefaultSpecifier "React"]
    /\ isImportSpecifier (ImportDefaultSpecifier "React") = false
    /\ exists err, removeUnusedImports 0 0 defaultImportGraph = Throw err.
Proof.
  assert (H : exists body,
             treeOf defaultImportGraph 0 0 = Some body
             /\ In (ImportDeclaration "react" [ImportDefaultSpecifier "React"]) body
             /\ In (ImportDefaultSpecifier "React") [ImportDefaultSpecifier "React"]
             /\ isImportSpecifier (ImportDefaultSpecifier "React") = false).
  { eexists. split; [reflexivity|]. split; [left; reflexivity|].
    split; [left; reflexivity|reflexivity]. }
  destruct H as (body & H1 & H2 & H3 & H4). exists body.
  split; [exact H1|]. split; [exact H2|]. split; [exact H3|]. split; [exact H4|].
  exact (import_step_throws_on_default_import _ _ _ _ _ _ _ H1 H2 H3 H4).
Defined.

Lemma import_step_reports_no_removal_witness :
  exists b g' body,
    removeUnusedImports 0 0 partialImportGraph = Ok (b, g')
    /\ treeOf partialImportGraph 0 0 = Some body
    /\ (b = false
        <-> unusedImports body = []
            /\ forall src, ~ In (ImportDeclaration src []) body)
    /\ (b = false -> g' = partialImportGraph).
Proof.
  assert (H : exists b g' body,
             removeUnusedImports 0 0 partialImportGraph = Ok (b, g')
             /\ treeOf partialImportGraph 0 0 = Some body).
  { do 3 eexists. split; [vm_compute; reflexivity|reflexivity]. }
  destruct H as (b & g' & body & H1 & H2). exists b, g', body.
  split; [exact H1|]. split; [exact H2|].
  exact (import_step_reports_no_removal _ _ _ _ _ _ H1 H2).
Defined.

Lemma plugin_regenerates_code_from_pruned_trees_witness :
  let generate := fun (_ : string) (_ : program) => Ok ("code", @None string) in
  let countLines := fun _ : string => 1 in
  exists g2,
    treeShakeSerializerPlugin generate countLines
      ("/index", [], partialImportGraph, sampleOptions)
    = Ok ("/index", [], g2, sampleOptions)
    /\ exists g1,
         treeShake partialImportGraph = Ok g1
         /\ graphTrees g2 = graphTrees g1 /\ graphEdges g2 = graphEdges g1
         /\ (forall e o, In e g2 -> present e = true -> In o (output (value e)) ->
               generate (path (value e)) (ast (data o))
                 = Ok (code (data o), functionMap (data o))
               /\ lineCount (data o) = countLines (code (data o))
               /\ map_segments (data o) = [])
         /\ (forall i e, g1 !! i = Some e -> present e = false -> g2 !! i = Some e).
Proof.
  intros generate countLines.
  assert (H : exists g2,
             treeShakeSerializerPlugin generate countLines
               ("/index", [], partialImportGraph, sampleOptions)
             = Ok ("/index", [], g2, sampleOptions)).
  { eexists. vm_compute. reflexivity. }
  destruct H as (g2 & H1). exists g2. split; [exact H1|].
  exact (plugin_regenerates_code_from_pruned_trees _ _ _ _ _ _ _ H1).
Defined.

Lemma serializer_default_behaviour_witness :
  let baseJSBundleCode := fun _ : SerializerParameters => Ok "bundle" in
  let searchParamsGet := fun (_ _ : string) => @None string in
  let props : SerializerParameters := ("/index", [], [], sampleOptions) in
  let serializer :=
    getDefaultSerializer baseJSBundleCode (fun _ _ => "{}") (fun _ => false)
      (fun u => u) searchParamsGet (fun u => u) (fun _ _ => [])
      (fun _ _ => "h") (fun _ => Ok sampleParsedMap) (fun _ => "map")
      (fun _ => "assets") (fun _ v => v) in
  (truthy (sourceUrl (snd props)) = false
   \/ searchParamsGet
        (let raw := nullish (sourceUrl (snd props)) "" in
         if false then raw else raw) "platform" <> Some "web"
   \/ searchParamsGet
        (let raw := nullish (sourceUrl (snd props)) "" in
         if false then raw else raw) "serializer.output" <> Some "static")
  /\ serializer None props
     = nullish None
         (fun params => do c <- baseJSBundleCode params; Ok (BundleString c)) props.
Proof.
  intros baseJSBundleCode searchParamsGet props serializer.
  assert (H : truthy (sourceUrl (snd props)) = false
              \/ searchParamsGet
                   (let raw := nullish (sourceUrl (snd props)) "" in
                    if false then raw else raw) "platform" <> Some "web"
              \/ searchParamsGet
                   (let raw := nullish (sourceUrl (snd props)) "" in
                    if false then raw else raw) "serializer.output" <> Some "static").
  { right. left. discriminate. }
  split; [exact H|].
  exact (serializer_default_behaviour baseJSBundleCode (fun _ _ => "{}")
           (fun _ => false) (fun u => u) searchParamsGet (fun u => u)
           (fun _ _ => []) (fun _ _ => "h") (fun _ => Ok sampleParsedMap)
           (fun _ => "map") (fun _ => "assets") (fun _ v => v) None props H).
Defined.

Lemma static_export_assets_witness :
  let sourceMapString := fun (_ : list Module) (_ : SerializerOptions) => "{}" in
  let JSON_parse := fun _ : string => Ok sampleParsedMap in
  let JSON_stringify_map := fun _ : parsedMap => "rewritten" in
  let relative := fun _ v : string => v in
  let props : SerializerParameters := ("/srv/app/index.js", [], [], sampleOptions) in
  let jsCode := BundleWithMap "console.log(1)" "{}" in
  exists assets,
    jsAssets sourceMapString (fun u => u) (fun _ _ => "h") JSON_parse
             JSON_stringify_map relative props "/index.bundle" true jsCode
    = Ok assets
    /\ exists js,
         asset_type js = "js" /\ asset_source js = "console.log(1)"
         /\ originFilename js = "index.js"
         /\ (dev (snd props) = true -> filename js = "index.js")
         /\ exists parsed map,
              assets = [js; map]
              /\ JSON_parse "{}" = Ok parsed
              /\ asset_type map = "map" /\ originFilename map = "index.map"
              /\ asset_source map
                 = JSON_stringify_map (rewriteSources relative (snd props) parsed)
              /\ filename map = String.append (filename js) ".map".
Proof.
  intros sourceMapString JSON_parse JSON_stringify_map relative props jsCode.
  assert (H : exists assets,
             jsAssets sourceMapString (fun u => u) (fun _ _ => "h") JSON_parse
                      JSON_stringify_map relative props "/index.bundle" true jsCode
             = Ok assets).
  { eexists. reflexivity. }
  destruct H as (assets & H1). exists assets. split; [exact H1|].
  exact (static_export_assets sourceMapString (fun u => u) (fun _ _ => "h")
           JSON_parse JSON_stringify_map relative props "/index.bundle" true
           jsCode assets H1).
Defined.

Lemma failing_plugin_aborts_the_chain_witness :
  let failing : SerializerPlugin := fun _ => Throw (ExternalError "plugin failed") in
  let props : SerializerParameters := ("/index", [], [], sampleOptions) in
  runProcessors [None] props = Ok props
  /\ failing props = Throw (ExternalError "plugin failed")
  /\ createSerializerFromSerialProcessors (fun _ => Ok "bundle") (fun _ _ => "{}")
       (fun _ => false) (fun u => u) (fun _ _ => None) (fun u => u)
       (fun _ _ => []) (fun _ _ => "h") (fun _ => Ok sampleParsedMap)
       (fun _ => "map") (fun _ => "assets") (fun _ v => v)
       ([None] ++ Some failing :: [Some (fun p => Ok p)]) None props
     = Throw (ExternalError "plugin failed").
Proof.
  intros failing props.
  assert (H1 : runProcessors [None] props = Ok props) by reflexivity.
  assert (H2 : failing props = Throw (ExternalError "plugin failed")) by reflexivity.
  split; [exact H1|]. split; [exact H2|].
  exact (failing_plugin_aborts_the_chain (fun _ => Ok "bundle") (fun _ _ => "{}")
           (fun _ => false) (fun u => u) (fun _ _ => None) (fun u => u)
           (fun _ _ => []) (fun _ _ => "h") (fun _ => Ok sampleParsedMap)
           (fun _ => "map") (fun _ => "assets") (fun _ v => v)
           [None] [Some (fun p => Ok p)] failing None props props
           (ExternalError "plugin failed") H1 H2).
Defined.

Lemma withSerializerPlugins_nested_witness :
  let baseJSBundleCode := fun _ : SerializerParameters => Ok "bundle" in
  let searchParamsGet := fun (_ _ : string) => @None string in
  let wrap :=
    withSerializerPlugins baseJSBundleCode (fun _ _ => "{}") (fun _ => false)
      (fun u => u) searchParamsGet (fun u => u) (fun _ _ => [])
      (fun _ _ => "h") (fun _ => Ok sampleParsedMap) (fun _ => "map")
      (fun _ => "assets") (fun _ v => v) in
  let config := {| serializer := None; configFields := [] |} in
  let inner : SerializerPlugin := fun p => Ok p in
  let props : SerializerParameters := ("/index", [], [], sampleOptions) in
  exists outer,
    originalSerializerOf (wrap (wrap config [inner]) [inner]) = Some outer
    /\ runProcessors (List.map Some [inner]) props = Ok props
    /\ (truthy (sourceUrl (snd props)) = false
        \/ searchParamsGet
             (let raw := nullish (sourceUrl (snd props)) "" in
              if false then raw else raw) "platform" <> Some "web"
        \/ searchParamsGet
             (let raw := nullish (sourceUrl (snd props)) "" in
              if false then raw else raw) "serializer.output" <> Some "static")
    /\ outer props
       = createSerializerFromSerialProcessors baseJSBundleCode (fun _ _ => "{}")
           (fun _ => false) (fun u => u) searchParamsGet (fun u => u)
           (fun _ _ => []) (fun _ _ => "h") (fun _ => Ok sampleParsedMap)
           (fun _ => "map") (fun _ => "assets") (fun _ v => v)
           (List.map Some ([inner] ++ [inner])) (originalSerializerOf config) props.
Proof.
  intros baseJSBundleCode searchParamsGet wrap config inner props.
  assert (H : exists outer,
             originalSerializerOf (wrap (wrap config [inner]) [inner]) = Some outer
             /\ runProcessors (List.map Some [inner]) props = Ok props
             /\ (truthy (sourceUrl (snd props)) = false
                 \/ searchParamsGet
                      (let raw := nullish (sourceUrl (snd props)) "" in
                       if false then raw else raw) "platform" <> Some "web"
                 \/ searchParamsGet
                      (let raw := nullish (sourceUrl (snd props)) "" in
                       if false then raw else raw) "serializer.output"
                    <> Some "static")).
  { eexists. split; [reflexivity|]. split; [reflexivity|]. right. left. discriminate. }
  destruct H as (outer & H1 & H2 & H3). exists outer.
  split; [exact H1|]. split; [exact H2|]. split; [exact H3|].
  exact (withSerializerPlugins_nested baseJSBundleCode (fun _ _ => "{}")
           (fun _ => false) (fun u => u) searchParamsGet (fun u => u)
           (fun _ _ => []) (fun _ _ => "h") (fun _ => Ok sampleParsedMap)
           (fun _ => "map") (fun _ => "assets") (fun _ v => v)
           config [inner] [inner] props props outer H1 H2 H3).
Defined.

Lemma pass_completes_on_safe_graphs_witness :
  safe partialImportGraph
  /\ exists g', treeShake partialImportGraph = Ok g' /\ safe g'.
Proof.
  assert (H : safe partialImportGraph).
  { split; [|split; [|split]].
    - split; [apply distinct_NoDup; reflexivity|].
      split; [apply distinct_NoDup; reflexivity|].
      intros a [<-|[<-|[]]]; split; apply distinct_NoDup; reflexivity.
    - intros a kd [<-|[<-|[]]]; simpl; [intros [<-|[]]|intros []].
      eexists. split; [right; left; reflexivity|].
      simpl. repeat split; auto.
    - intros a [<-|[<-|[]]]; discriminate.
    - constructor; [|constructor; [|constructor]].
      + split; [apply distinct_NoDup; reflexivity|].
        split; [intros v [<-|[]]; left; reflexivity|].
        split; [intros kd [<-|[]]; split; discriminate|].
        intros body s [<-|[]] [<-|[<-|[]]]; reflexivity.
      + split; [apply distinct_NoDup; reflexivity|].
        split; [intros v []|]. split; [intros kd []|].
        intros body s [<-|[]] [<-|[<-|[]]]; reflexivity. }
  split; [exact H|]. exact (pass_completes_on_safe_graphs _ H).
Defined.

Lemma pass_throws_on_unresolved_import_witness :
  exists e o,
    In e unresolvedImportGraph /\ present e = true /\ In o (output (value e))
    /\ In (ImportDeclaration "./missing" [ImportSpecifier "x" "x"]) (ast (data o))
    /\ ~ In "./missing" (dependencyNames (value e))
    /\ exists err, treeShakeAll 1 unresolvedImportGraph = Throw err.
Proof.
  assert (H : exists e o,
             In e unresolvedImportGraph /\ present e = true /\ In o (output (value e))
             /\ In (ImportDeclaration "./missing" [ImportSpecifier "x" "x"])
                   (ast (data o))
             /\ ~ In "./missing" (dependencyNames (value e))).
  { do 2 eexists. split; [left; reflexivity|]. split; [reflexivity|].
    split; [left; reflexivity|]. split; [left; reflexivity|]. intros []. }
  destruct H as (e & o & H1 & H2 & H3 & H4 & H5). exists e, o.
  split; [exact H1|]. split; [exact H2|]. split; [exact H3|]. split; [exact H4|].
  split; [exact H5|].
  exact (pass_throws_on_unresolved_import 0 _ _ _ _ _ H1 H2 H3 H4 H5).
Defined.

Lemma pass_is_idempotent_without_require_in_exports_witness :
  exists g',
    exportsClean partialImportGraph /\ treeShake partialImportGraph = Ok g'
    /\ collectAll g' = Ok g' /\ treeShake g' = Ok g'.
Proof.
  assert (H : exists g',
             exportsClean partialImportGraph /\ treeShake partialImportGraph = Ok g').
  { eexists. split; [|vm_compute; reflexivity].
    intros [|[|i]] [|j] body s Ht; try discriminate; injection Ht as <-;
      intros [<-|[<-|[]]] Hd; reflexivity || (exfalso; apply Hd; reflexivity). }
  destruct H as (g' & H1 & H2). exists g'. split; [exact H1|]. split; [exact H2|].
  exact (pass_is_idempotent_without_require_in_exports _ _ H1 H2).
Defined.

Lemma pass_keeps_the_counts_witness :
  exists g' A B,
    keyed (graphEdges twoSpecifiersGraph)
    /\ counted (graphEdges twoSpecifiersGraph)
    /\ treeShake twoSpecifiersGraph = Ok g'
    /\ In A g' /\ In B g'
    /\ path (value A) = "/a" /\ depId B = "/b"
    /\ count_occ string_dec (inverseDependencies (value B)) (path (value A))
       = length (List.filter
                   (fun kd => String.eqb (absolutePath (snd kd)) (depId B))
                   (dependencies (value A))).
Proof.
  assert (H : exists g' A B,
             keyed (graphEdges twoSpecifiersGraph)
             /\ counted (graphEdges twoSpecifiersGraph)
             /\ treeShake twoSpecifiersGraph = Ok g'
             /\ In A g' /\ In B g'
             /\ path (value A) = "/a" /\ depId B = "/b").
  { do 3 eexists. split; [|split; [|split; [vm_compute; reflexivity|]]].
    - split; [apply distinct_NoDup; reflexivity|].
      split; [apply distinct_NoDup; reflexivity|].
      intros a [<-|[<-|[]]]; apply distinct_NoDup; reflexivity.
    - intros a b [<-|[<-|[]]] [<-|[<-|[]]]; reflexivity.
    - split; [left; reflexivity|]. split; [right; left; reflexivity|].
      split; reflexivity. }
  destruct H as (g' & A & B & H1 & H2 & H3 & H4 & H5 & H6 & H7).
  exists g', A, B. repeat (split; [assumption|]).
  exact (pass_keeps_the_counts _ _ _ _ _ H1 H2 H3 H4 H5).
Defined.
